(** * Veins signal utilities: interference sweeps over a shared channel

    A shallow embedding of [src/veins/base/toolbox/SignalUtils.cc] and the
    properties of its five entry points ([getGlobalMax], [getGlobalMin],
    [getMinAtFreqIndex], [isChannelPowerBelowThreshold], [getMinSINR]) and of
    the helpers of its anonymous namespace.

    Conventions of the embedding.
    - [simtime_t] is a 64-bit fixed-point number that the file only compares:
      it is an integer ([Z]).
    - A power sample is a C++ [double].  A sample of a signal is an integer
      multiple of a fixed power quantum ([Z]), and the sums that the class
      [Signal] computes are exact.  The [double]s that [getMinAtFreqIndex]
      itself adds, subtracts and compares are taken both ways, as exact numbers
      and as IEEE 754 binary64 numbers that round (class [Arithmetic]).  The
      ratio computed by [getMinSINR] needs the special values of a [double]
      and has the type [ratio].
    - [ASSERT] throws when its condition is false: a function that contains one
      returns [option], and [None] is the failed assertion.
    - An [AirFrame*] is an address; the frames live in a heap
      ([gmap AirFramePtr AirFrame]).  The entry points that only read take the
      vector as it is seen through the heap, a list of (address, frame) pairs;
      the two that attenuate signals in place pass the heap along. *)

From Stdlib Require Import ZArith List Bool Lia Permutation Sorted QArith Floats.
From stdpp Require Import base option list gmap.

Open Scope Z_scope.

(** ** The collaborators: spectrum, signal, frame *)

Definition simtime_t := Z.

(** Modelled from the spec: the frequency axis ([Spectrum], declared in
    Spectrum.h) is an equality-comparable ordered set of frequency bins. *)
Definition Spectrum := list Z.

Definition getNumFreqs (sp : Spectrum) : nat := length sp.

Definition Spectrum_eqb (a b : Spectrum) : bool := bool_decide (a = b).

(** Modelled from the spec: an attenuation stage ([AnalogueModel], declared in
    AnalogueModel.h) rewrites the power vector of the signal it filters. *)
Inductive AnalogueModel := mkAnalogueModel (filterSignal : list Z -> list Z).

Definition filterSignal (m : AnalogueModel) : list Z -> list Z :=
  match m with mkAnalogueModel f => f end.

(** Modelled from the spec: the class [Signal] (Signal.h and Signal.cc): the
    spectrum, one power sample per bin, the populated range
    [[dataStart, dataEnd)], the reception interval and the attenuation stages
    with the number of them already applied. *)
Record Signal := mkSignal {
  getSpectrum : Spectrum;
  values : list Z;
  getDataStart : nat;
  getDataEnd : nat;
  getReceptionStart : simtime_t;
  getReceptionEnd : simtime_t;
  getAnalogueModelList : list AnalogueModel;
  numAnalogueModelsApplied : nat
}.

(** Modelled from the spec: [Signal(spectrum)] is the zero vector over the
    spectrum, with no populated bin. *)
Definition newSignal (sp : Spectrum) : Signal :=
  mkSignal sp (repeat 0 (getNumFreqs sp)) 0 0 0 0 [] 0.

(** Modelled from the spec: per-bin indexing, [Signal::at]; a sample outside the
    vector is zero. *)
Definition at_ (s : Signal) (index : nat) : Z := nth index (values s) 0.

Definition setValues (s : Signal) (vs : list Z) : Signal :=
  mkSignal (getSpectrum s) vs (getDataStart s) (getDataEnd s)
           (getReceptionStart s) (getReceptionEnd s)
           (getAnalogueModelList s) (numAnalogueModelsApplied s).

(** Assignment through the reference that [at] returns. *)
Definition setAt (s : Signal) (index : nat) (v : Z) : Signal :=
  setValues s (<[index := v]> (values s)).

Fixpoint zipWithZ (f : Z -> Z -> Z) (a b : list Z) : list Z :=
  match a, b with
  | x :: a', y :: b' => f x y :: zipWithZ f a' b'
  | _, _ => []
  end.

(** Modelled from the spec: the populated range of an accumulator covers the
    populated ranges of the signals combined into it; a signal without
    populated bins leaves it as it is. *)
Definition includeRange (s o : Signal) : nat * nat :=
  if (getDataStart o <? getDataEnd o)%nat then
    if (getDataStart s <? getDataEnd s)%nat then
      (Nat.min (getDataStart s) (getDataStart o),
       Nat.max (getDataEnd s) (getDataEnd o))
    else (getDataStart o, getDataEnd o)
  else (getDataStart s, getDataEnd s).

Definition combineWith (f : Z -> Z -> Z) (s o : Signal) : Signal :=
  mkSignal (getSpectrum s) (zipWithZ f (values s) (values o))
           (fst (includeRange s o)) (snd (includeRange s o))
           (getReceptionStart s) (getReceptionEnd s)
           (getAnalogueModelList s) (numAnalogueModelsApplied s).

(** Modelled from the spec: element-wise [operator+=] and [operator-=]; signals
    combined in one computation share the spectrum, which is checked by an
    assertion. *)
Definition plusAssign (s o : Signal) : option Signal :=
  if Spectrum_eqb (getSpectrum s) (getSpectrum o)
  then Some (combineWith Z.add s o) else None.

Definition minusAssign (s o : Signal) : option Signal :=
  if Spectrum_eqb (getSpectrum s) (getSpectrum o)
  then Some (combineWith Z.sub s o) else None.

(** The samples of the populated range. *)
Definition dataValues (s : Signal) : list Z :=
  firstn (getDataEnd s - getDataStart s) (skipn (getDataStart s) (values s)).

Definition maxOf (l : list Z) : Z :=
  match l with [] => 0 | x :: r => fold_left Z.max r x end.

Definition minOf (l : list Z) : Z :=
  match l with [] => 0 | x :: r => fold_left Z.min r x end.

(** Modelled from the spec: the max and min reductions scan the populated bin
    range; outside it every sample is zero, which is also the reduction of an
    empty range. *)
Definition getMax (s : Signal) : Z := maxOf (dataValues s).

Definition getDataMin (s : Signal) : Z := minOf (dataValues s).

(** Modelled from the spec: "apply stage N" rewrites the power vector with the
    stage of that index and counts it as consumed; an index past the list does
    nothing. *)
Definition applyAnalogueModel (index : nat) (s : Signal) : Signal :=
  match nth_error (getAnalogueModelList s) index with
  | Some m =>
      mkSignal (getSpectrum s) (filterSignal m (values s))
               (getDataStart s) (getDataEnd s)
               (getReceptionStart s) (getReceptionEnd s)
               (getAnalogueModelList s) (S (numAnalogueModelsApplied s))
  | None => s
  end.

Fixpoint applyStages (n index : nat) (s : Signal) : Signal :=
  match n with
  | O => s
  | S n' => applyStages n' (S index) (applyAnalogueModel index s)
  end.

(** Modelled from the spec: "apply all remaining stages". *)
Definition applyAllAnalogueModels (s : Signal) : Signal :=
  applyStages (length (getAnalogueModelList s) - numAnalogueModelsApplied s)
              (numAnalogueModelsApplied s) s.

(** Modelled from the spec: a frame ([AirFrame], generated from AirFrame.msg)
    owns one signal and carries the identity of its transmission, the tree
    id, which its duplicates share. *)
Record AirFrame := mkAirFrame {
  getTreeId : Z;
  getSignal : Signal
}.

Definition AirFramePtr := positive.

(** The vector of frame pointers as read through the heap. *)
Definition AirFrameVector := list (AirFramePtr * AirFrame).

(** ** The anonymous namespace *)

Inductive ChangeType := nothing | starting | ending.

Record SignalChange := mkSignalChange {
  signal : Signal;
  type : ChangeType;
  time : simtime_t
}.

Definition compareByTime (lhs rhs : SignalChange) : bool :=
  time lhs <? time rhs.

(** [airFrame == exclude]; the null pointer is [None]. *)
Definition isExcluded (p : AirFramePtr) (exclude : option AirFramePtr) : bool :=
  match exclude with
  | Some q => Pos.eqb p q
  | None => false
  end.

(** One iteration of the loop of [calculateChanges]. *)
Definition calculateChanges_body (start end_ : simtime_t)
    (exclude : option AirFramePtr) (changes : list SignalChange)
    (entry : AirFramePtr * AirFrame) : list SignalChange :=
  if isExcluded (fst entry) exclude then changes
  else
    let signal := getSignal (snd entry) in
    if (start =? end_) && (getReceptionStart signal =? start) then
      changes ++ [mkSignalChange signal starting (getReceptionStart signal)]
    else if (getReceptionStart signal <? end_) && (getReceptionEnd signal >? start) then
      let changes := changes ++ [mkSignalChange signal starting (getReceptionStart signal)] in
      if getReceptionEnd signal <=? end_ then
        changes ++ [mkSignalChange signal ending (getReceptionEnd signal)]
      else changes
    else changes.

Definition calculateChanges (start end_ : simtime_t) (airFrames : AirFrameVector)
    (exclude : option AirFramePtr) : list SignalChange :=
  fold_left (calculateChanges_body start end_ exclude) airFrames [].

(** [std::sort (changes.begin (), changes.end (), compareByTime)]: the result
    is ordered by time; the order of changes of equal time is left open by the
    library.  This is one such sort (it keeps their order); the sweeps do not
    depend on the choice. *)
Fixpoint insertByTime (c : SignalChange) (l : list SignalChange) : list SignalChange :=
  match l with
  | [] => [c]
  | d :: l' => if compareByTime d c then d :: insertByTime c l' else c :: l
  end.

Definition sortByTime (changes : list SignalChange) : list SignalChange :=
  fold_right insertByTime [] changes.

Definition greaterByReceptionEnd (lhs rhs : Signal) : bool :=
  getReceptionEnd lhs >? getReceptionEnd rhs.

(** [std::priority_queue<Signal, std::vector<Signal>, greaterByReceptionEnd>]:
    [top] is a signal of least reception end.  The queue is kept as the list
    of its signals in the order in which [pop] hands them out. *)
Fixpoint push (s : Signal) (q : list Signal) : list Signal :=
  match q with
  | [] => [s]
  | t :: q' => if greaterByReceptionEnd s t then t :: push s q' else s :: q
  end.

(** The loop that removes the signals ending before the current one starts.
    [top] of an empty queue has no value. *)
Fixpoint removeEnded (currentTime : simtime_t) (signalEndings : list Signal)
    (currentInterference : Signal) : option (list Signal * Signal) :=
  match signalEndings with
  | [] => None
  | top :: rest =>
      if getReceptionEnd top <=? currentTime then
        match minusAssign currentInterference top with
        | Some currentInterference' => removeEnded currentTime rest currentInterference'
        | None => None
        end
      else Some (signalEndings, currentInterference)
  end.

(** The loop that updates the maximum on the bins [spectrumIndex],
    [spectrumIndex + 1], ... ([n] of them).  The index of the source is a
    [uint16_t]; bins are counted in [nat], for spectra of fewer than 2^16
    bins. *)
Fixpoint updateMaximum (currentInterference : Signal) (spectrumIndex n : nat)
    (maxInterference : Signal) : Signal :=
  match n with
  | O => maxInterference
  | S n' =>
      updateMaximum currentInterference (S spectrumIndex) n'
        (setAt maxInterference spectrumIndex
           (Z.max (at_ currentInterference spectrumIndex)
                  (at_ maxInterference spectrumIndex)))
  end.

Record SweepState := mkSweepState {
  maxInterference : Signal;
  currentInterference : Signal;
  signalEndings : list Signal;
  currentTime : simtime_t
}.

Fixpoint getMaxInterference_loop (start end_ : simtime_t) (referenceFrame : AirFrame)
    (spectrum : Spectrum) (interfererFrames : AirFrameVector) (st : SweepState)
    : option Signal :=
  match interfererFrames with
  | [] => Some (maxInterference st)
  | (_, interfererFrame) :: rest =>
      if getTreeId interfererFrame =? getTreeId referenceFrame then
        getMaxInterference_loop start end_ referenceFrame spectrum rest st
      else
        let signal := getSignal interfererFrame in
        if (getReceptionEnd signal <=? start) || (getReceptionStart signal >? end_) then
          getMaxInterference_loop start end_ referenceFrame spectrum rest st
        else if negb (getReceptionEnd signal >? start) then None
        else if negb (getReceptionStart signal <=? end_) then None
        else if negb (getReceptionStart signal >=? currentTime st) then None
        else if negb (Spectrum_eqb (getSpectrum signal) spectrum) then None
        else
          let signalEndings := push signal (signalEndings st) in
          let currentTime := getReceptionStart signal in
          if currentTime >=? end_ then Some (maxInterference st)
          else
            match removeEnded currentTime signalEndings (currentInterference st) with
            | None => None
            | Some (signalEndings, currentInterference) =>
                match plusAssign currentInterference signal with
                | None => None
                | Some currentInterference =>
                    getMaxInterference_loop start end_ referenceFrame spectrum rest
                      (mkSweepState
                         (updateMaximum currentInterference (getDataStart signal)
                            (getDataEnd signal - getDataStart signal)
                            (maxInterference st))
                         currentInterference signalEndings currentTime)
                end
            end
  end.

Definition getMaxInterference (start end_ : simtime_t) (referenceFrame : AirFrame)
    (interfererFrames : AirFrameVector) : option Signal :=
  let spectrum := getSpectrum (getSignal referenceFrame) in
  getMaxInterference_loop start end_ referenceFrame spectrum interfererFrames
    (mkSweepState (newSignal spectrum) (newSignal spectrum) [] 0).

Definition powerLevelSumAtFrequencyIndex (signals : list Signal) (freqIndex : nat) : Z :=
  fold_left (fun powerLevelSum s => powerLevelSum + at_ s freqIndex) signals 0.

(** ** The sweeps over the sorted changes *)

(** The body of the second loop: a starting signal is added, an ending one
    subtracted. *)
Definition applyChange (it : SignalChange) (interference : Signal) : option Signal :=
  match type it with
  | starting => plusAssign interference (signal it)
  | ending => minusAssign interference (signal it)
  | nothing => Some interference
  end.

(** [next == changes.end () || it->time != next->time]. *)
Definition atBoundary (it : SignalChange) (rest : list SignalChange) : bool :=
  match rest with
  | [] => true
  | next :: _ => negb (time it =? time next)
  end.

(** "Calculate interference at beginning": the first loop of [getGlobalMax]
    and [getGlobalMin]; it returns the changes it has not consumed. *)
Fixpoint interferenceAtBeginning (start : simtime_t) (changes : list SignalChange)
    (interference : Signal) : option (Signal * list SignalChange) :=
  match changes with
  | [] => Some (interference, [])
  | it :: rest =>
      if time it >? start then Some (interference, changes)
      else
        match plusAssign interference (signal it) with
        | Some interference' => interferenceAtBeginning start rest interference'
        | None => None
        end
  end.

(** "Calculate all chunks" of [getGlobalMax]. *)
Fixpoint chunksMax (changes : list SignalChange) (interference : Signal)
    (maximum : Z) : option Z :=
  match changes with
  | [] => Some maximum
  | it :: rest =>
      match applyChange it interference with
      | None => None
      | Some interference' =>
          chunksMax rest interference'
            (if atBoundary it rest then
               let tmpMax := getMax interference' in
               if tmpMax >? maximum then tmpMax else maximum
             else maximum)
      end
  end.

(** [getGlobalMax] from the creation of the accumulator on: the two loops over
    the sorted changes. *)
Definition sweepMax (start : simtime_t) (spectrum : Spectrum)
    (changes : list SignalChange) : option Z :=
  match interferenceAtBeginning start changes (newSignal spectrum) with
  | None => None
  | Some (interference, rest) => chunksMax rest interference (getMax interference)
  end.

Definition getGlobalMax (start end_ : simtime_t) (airFrames : AirFrameVector) : option Z :=
  match airFrames with
  | [] => Some 0
  | front :: _ =>
      let changes := sortByTime (calculateChanges start end_ airFrames None) in
      match changes with
      | [] => Some 0
      | _ :: _ => sweepMax start (getSpectrum (getSignal (snd front))) changes
      end
  end.

(** "Calculate all chunks" of [getGlobalMin]. *)
Fixpoint chunksMin (changes : list SignalChange) (interference : Signal)
    (minimum : Z) : option Z :=
  match changes with
  | [] => Some minimum
  | it :: rest =>
      match applyChange it interference with
      | None => None
      | Some interference' =>
          chunksMin rest interference'
            (if atBoundary it rest then
               let tmpMin := getDataMin interference' in
               if tmpMin <? minimum then tmpMin else minimum
             else minimum)
      end
  end.

(** [getGlobalMin] from the creation of the accumulator on. *)
Definition sweepMin (start : simtime_t) (spectrum : Spectrum)
    (changes : list SignalChange) : option Z :=
  match interferenceAtBeginning start changes (newSignal spectrum) with
  | None => None
  | Some (interference, rest) => chunksMin rest interference (getDataMin interference)
  end.

Definition getGlobalMin (start end_ : simtime_t) (airFrames : AirFrameVector) : option Z :=
  match airFrames with
  | [] => Some 0
  | front :: _ =>
      let changes := sortByTime (calculateChanges start end_ airFrames None) in
      match changes with
      | [] => Some 0
      | _ :: _ => sweepMin start (getSpectrum (getSignal (snd front))) changes
      end
  end.

(** *** The [double]s of [getMinAtFreqIndex]

    [getMinAtFreqIndex] keeps its running sum and its minimum in two local
    variables of type [double].  What it does with them is the literal [0],
    [+=] and [-=] with a sample and [<]; the sample is what [Signal::at]
    returns.  These are the operations of the class below.  It has two models.
    In [binary64] a [double] is the IEEE 754 binary64 number of the machine, and
    every sum and difference is rounded to the nearest number, ties to even:
    this is the code as it runs.  In [exactArithmetic] a [double] is the number
    itself and no sum rounds.  Where a statement does not name the model it is
    about the exact one. *)
Class Arithmetic (double : Type) := {
  double_of : Z -> double;
  double_zero : double;
  double_add : double -> double -> double;
  double_sub : double -> double -> double;
  double_lt : double -> double -> bool
}.

#[global] Instance exactArithmetic : Arithmetic Z := {|
  double_of := fun sample => sample;
  double_zero := 0;
  double_add := Z.add;
  double_sub := Z.sub;
  double_lt := Z.ltb
|}.

(** The binary64 number nearest to an integer (the integer itself up to
    [2^53] in magnitude): its sign, mantissa and exponent, and the number. *)
Definition normalized (sample : Z) : spec_float :=
  binary_normalize prec emax sample 0 false.

Definition binary64_of (sample : Z) : float := SF2Prim (normalized sample).

Definition binary64 : Arithmetic float := {|
  double_of := binary64_of;
  double_zero := PrimFloat.zero;
  double_add := PrimFloat.add;
  double_sub := PrimFloat.sub;
  double_lt := PrimFloat.ltb
|}.

Section ScalarSweep.
Context {double : Type} {arith : Arithmetic double}.

(** The first loop of [getMinAtFreqIndex], on the power of one bin. *)
Fixpoint interferenceAtBeginningAt (freqIndex : nat) (start : simtime_t)
    (changes : list SignalChange) (interference : double)
    : double * list SignalChange :=
  match changes with
  | [] => (interference, [])
  | it :: rest =>
      if time it >? start then (interference, changes)
      else interferenceAtBeginningAt freqIndex start rest
             (double_add interference (double_of (at_ (signal it) freqIndex)))
  end.

Definition applyChangeAt (freqIndex : nat) (it : SignalChange) (interference : double)
    : double :=
  match type it with
  | starting => double_add interference (double_of (at_ (signal it) freqIndex))
  | ending => double_sub interference (double_of (at_ (signal it) freqIndex))
  | nothing => interference
  end.

(** The second loop of [getMinAtFreqIndex]. *)
Fixpoint chunksMinAt (freqIndex : nat) (changes : list SignalChange)
    (interference minimum : double) : double :=
  match changes with
  | [] => minimum
  | it :: rest =>
      let interference' := applyChangeAt freqIndex it interference in
      chunksMinAt freqIndex rest interference'
        (if atBoundary it rest then
           if double_lt interference' minimum then interference' else minimum
         else minimum)
  end.

(** [getMinAtFreqIndex] from the creation of the accumulator on. *)
Definition sweepMinAt (freqIndex : nat) (start : simtime_t)
    (changes : list SignalChange) : double :=
  let '(interference, rest) :=
    interferenceAtBeginningAt freqIndex start changes double_zero in
  chunksMinAt freqIndex rest interference interference.

Definition getMinAtFreqIndex (start end_ : simtime_t) (airFrames : AirFrameVector)
    (freqIndex : nat) (exclude : option AirFramePtr) : double :=
  match airFrames with
  | [] => double_zero
  | _ :: _ =>
      let changes := sortByTime (calculateChanges start end_ airFrames exclude) in
      match changes with
      | [] => double_zero
      | _ :: _ => sweepMinAt freqIndex start changes
      end
  end.
End ScalarSweep.

(** ** The entry points that attenuate signals in place *)

Abbreviation Heap := (gmap AirFramePtr AirFrame).

(** What a vector of frame pointers shows in a heap; a pointer that is not
    allocated has no value. *)
Fixpoint view (h : Heap) (ptrs : list AirFramePtr) : option AirFrameVector :=
  match ptrs with
  | [] => Some []
  | p :: rest =>
      match h !! p, view h rest with
      | Some f, Some v => Some ((p, f) :: v)
      | _, _ => None
      end
  end.

(** The signals that a vector of [Signal*] (each the signal of a frame of the
    heap) points to. *)
Definition signalsOf (h : Heap) (ptrs : list AirFramePtr) : option (list Signal) :=
  match view h ptrs with
  | Some v => Some (map (fun entry => getSignal (snd entry)) v)
  | None => None
  end.

(** A frame after a mutating member function has run on its signal. *)
Definition onFrame (f : Signal -> Signal) (frame : AirFrame) : AirFrame :=
  mkAirFrame (getTreeId frame) (f (getSignal frame)).

(** A call of a mutating member function on the signal of the frame at [p]. *)
Definition onSignal (f : Signal -> Signal) (p : AirFramePtr) (h : Heap) : Heap :=
  alter (onFrame f) p h.

Fixpoint onSignals (f : Signal -> Signal) (ptrs : list AirFramePtr) (h : Heap) : Heap :=
  match ptrs with
  | [] => h
  | p :: rest => onSignals f rest (onSignal f p h)
  end.

(** The condition under which a frame of the vector is kept as an interferer. *)
Definition isInterfererAt (now : simtime_t) (exclude : option AirFramePtr)
    (entry : AirFramePtr * AirFrame) : bool :=
  (getReceptionStart (getSignal (snd entry)) <=? now)
  && (getReceptionEnd (getSignal (snd entry)) >? now)
  && negb (isExcluded (fst entry) exclude).

(** The loop over the attenuation stages ([n] of them are left), and the
    assertion and [return false] after it. *)
Fixpoint applyAnalogueModels (n analogueModelIndex : nat) (interferers : list AirFramePtr)
    (freqIndex : nat) (threshold : Z) (h : Heap) : option (bool * Heap) :=
  match n with
  | O =>
      match signalsOf h interferers with
      | None => None
      | Some signals =>
          if powerLevelSumAtFrequencyIndex signals freqIndex >=? threshold
          then Some (false, h) else None
      end
  | S n' =>
      let h' := onSignals (applyAnalogueModel analogueModelIndex) interferers h in
      match signalsOf h' interferers with
      | None => None
      | Some signals =>
          if powerLevelSumAtFrequencyIndex signals freqIndex <? threshold
          then Some (true, h')
          else applyAnalogueModels n' (S analogueModelIndex) interferers freqIndex threshold h'
      end
  end.

Definition isChannelPowerBelowThreshold (h : Heap) (now : simtime_t)
    (interfererFrames : list AirFramePtr) (freqIndex : nat) (threshold : Z)
    (exclude : option AirFramePtr) : option (bool * Heap) :=
  match interfererFrames with
  | [] => Some (true, h)
  | front :: _ =>
      match view h interfererFrames with
      | None => None
      | Some frames =>
          let interferers := map fst (List.filter (isInterfererAt now exclude) frames) in
          match signalsOf h interferers with
          | None => None
          | Some signals =>
              if powerLevelSumAtFrequencyIndex signals freqIndex <? threshold
              then Some (true, h)
              else
                match h !! front with
                | None => None
                | Some frontFrame =>
                    let analogueModelCount :=
                      length (getAnalogueModelList (getSignal frontFrame)) in
                    if forallb (fun s => (analogueModelCount =? length (getAnalogueModelList s))%nat)
                               signals
                    then applyAnalogueModels analogueModelCount 0 interferers
                           freqIndex threshold h
                    else None
                end
          end
      end
  end.

(** The value of a [double] that holds a ratio of two powers. *)
Inductive ratio := Finite (q : Q) | INFINITY | NegInfinity | NotANumber.

(** Division of two powers as [double]s: dividing by zero gives an infinity, or
    no number for zero by zero. *)
Definition divide (x y : Z) : ratio :=
  if y =? 0 then
    if x >? 0 then INFINITY else if x <? 0 then NegInfinity else NotANumber
  else Finite (inject_Z x / inject_Z y)%Q.

(** [a < b] on [double]s; no comparison with a non-number holds. *)
Definition ratio_ltb (a b : ratio) : bool :=
  match a, b with
  | NotANumber, _ | _, NotANumber => false
  | NegInfinity, NegInfinity => false
  | NegInfinity, _ => true
  | _, NegInfinity => false
  | INFINITY, _ => false
  | Finite _, INFINITY => true
  | Finite p, Finite q => if Qlt_le_dec p q then true else false
  end.

(** [std::min (a, b)] is [(b < a) ? b : a]. *)
Definition std_min (a b : ratio) : ratio := if ratio_ltb b a then b else a.

(** The loop of [getMinSINR] over the bins [i], [i + 1], ... ([n] of them);
    [sinr.at (i)] is [signal.at (i) / (interference.at (i) + noise)]. *)
Fixpoint minOverData (signal interference : Signal) (noise : Z) (i n : nat)
    (min_sinr : ratio) : ratio :=
  match n with
  | O => min_sinr
  | S n' =>
      minOverData signal interference noise (S i) n'
        (std_min min_sinr (divide (at_ signal i) (at_ interference i + noise)))
  end.

Definition getMinSINR (h : Heap) (start end_ : simtime_t) (signalFrame : AirFramePtr)
    (interfererFrames : list AirFramePtr) (noise : Z) : option (ratio * Heap) :=
  match h !! signalFrame with
  | None => None
  | Some frame =>
      if negb (start >=? getReceptionStart (getSignal frame)) then None
      else if negb (end_ <=? getReceptionEnd (getSignal frame)) then None
      else
        let h1 := onSignal applyAllAnalogueModels signalFrame h in
        let h2 := onSignals applyAllAnalogueModels interfererFrames h1 in
        match h2 !! signalFrame, view h2 interfererFrames with
        | Some frame', Some frames =>
            let signal := getSignal frame' in
            match getMaxInterference start end_ frame' frames with
            | None => None
            | Some interference =>
                Some (minOverData signal interference noise (getDataStart signal)
                        (getDataEnd signal - getDataStart signal) INFINITY, h2)
            end
        | _, _ => None
        end
  end.

(** ** Definitions used by the statements *)

(** The changes that one frame of the vector adds. *)
Definition changesOfEntry (start end_ : simtime_t) (exclude : option AirFramePtr)
    (entry : AirFramePtr * AirFrame) : list SignalChange :=
  calculateChanges_body start end_ exclude [] entry.

(** The changes of a signal as the specification words them: in a window of
    positive length a Starting change when the reception interval overlaps it,
    and an Ending change too when the reception ends inside; in a point query
    a single Starting change exactly for a signal that starts at the instant. *)
Definition claimedChanges (start end_ : simtime_t) (s : Signal) : list SignalChange :=
  if start =? end_ then
    if getReceptionStart s =? start
    then [mkSignalChange s starting (getReceptionStart s)] else []
  else if (getReceptionStart s <? end_) && (getReceptionEnd s >? start) then
    mkSignalChange s starting (getReceptionStart s)
    :: (if getReceptionEnd s <=? end_
        then [mkSignalChange s ending (getReceptionEnd s)] else [])
  else [].

(** The same, with the point query as the code has it: a signal that starts at
    the instant or is under way at it contributes its Starting change. *)
Definition expectedChanges (start end_ : simtime_t) (s : Signal) : list SignalChange :=
  if start =? end_ then
    if (getReceptionStart s =? start)
       || ((getReceptionStart s <? start) && (getReceptionEnd s >? start))
    then [mkSignalChange s starting (getReceptionStart s)] else []
  else if (getReceptionStart s <? end_) && (getReceptionEnd s >? start) then
    mkSignalChange s starting (getReceptionStart s)
    :: (if getReceptionEnd s <=? end_
        then [mkSignalChange s ending (getReceptionEnd s)] else [])
  else [].


(** The signals of the frames of a vector. *)
Definition signalsIn (frames : AirFrameVector) : list Signal :=
  map (fun entry => getSignal (snd entry)) frames.

(** A signal is active at [t] when [t] is in its reception interval
    [[receptionStart, receptionEnd)]. *)
Definition activeAt (t : simtime_t) (s : Signal) : Prop :=
  getReceptionStart s <= t < getReceptionEnd s.

Definition activeAtb (t : simtime_t) (s : Signal) : bool :=
  (getReceptionStart s <=? t) && (t <? getReceptionEnd s).

Definition sumZ (l : list Z) : Z := fold_right Z.add 0 l.

(** The changes are in ascending order of time. *)
Definition sortedByTime (changes : list SignalChange) : Prop :=
  StronglySorted (fun a b => time a <= time b) changes.


(** A signal fits the spectrum [sp]: it is over that spectrum and has one
    sample per bin. *)
Definition fits (sp : Spectrum) (s : Signal) : Prop :=
  getSpectrum s = sp /\ length (values s) = getNumFreqs sp.

(** What a change adds to bin [b] of the accumulator in the first loop of a
    sweep, which consumes the changes up to [start]. *)
Definition beginningTerm (b : nat) (start : simtime_t) (c : SignalChange) : Z :=
  if time c <=? start then at_ (signal c) b else 0.

Definition isLater (start : simtime_t) (c : SignalChange) : bool := time c >? start.

(** The frames that are not duplicates of the reference frame. *)
Definition isOtherTransmission (referenceFrame : AirFrame)
    (entry : AirFramePtr * AirFrame) : bool :=
  negb (getTreeId (snd entry) =? getTreeId referenceFrame).

(** The frames that are not the excluded object. *)
Definition isNotExcluded (exclude : option AirFramePtr)
    (entry : AirFramePtr * AirFrame) : bool :=
  negb (isExcluded (fst entry) exclude).

(** ** The second loop of a sweep, whatever the accumulator

    [step] applies a change to the accumulator, [eval] reads the value that
    is compared, [op] keeps the better of two values. *)
Section Chunks.
Context {A : Type}.
Variable step : SignalChange -> A -> A.
Variable eval : A -> Z.
Variable op : Z -> Z -> Z.

Fixpoint chunks (changes : list SignalChange) (acc : A) (extremum : Z) : Z :=
  match changes with
  | [] => extremum
  | it :: rest =>
      chunks rest (step it acc)
        (if atBoundary it rest then op (eval (step it acc)) extremum else extremum)
  end.

Definition stepAll (changes : list SignalChange) (acc : A) : A :=
  fold_left (fun a c => step c a) changes acc.

(** The changes that are not later than [c]. *)
Definition upTo (c : SignalChange) (changes : list SignalChange) : list SignalChange :=
  List.filter (fun d => time d <=? time c) changes.

(** The value on the plateau that begins at the time of [c]: every change
    up to that time has been applied. *)
Definition plateau (changes : list SignalChange) (acc : A) (c : SignalChange) : Z :=
  eval (stepAll (upTo c changes) acc).

(** The best plateau. *)
Definition bestPlateau (changes : list SignalChange) (acc : A) (extremum : Z) : Z :=
  fold_left (fun e c => op (plateau changes acc c) e) changes extremum.
End Chunks.

(** The changes to a signal accumulator without their assertions. *)
Definition applyChange' (it : SignalChange) (interference : Signal) : Signal :=
  match type it with
  | starting => combineWith Z.add interference (signal it)
  | ending => combineWith Z.sub interference (signal it)
  | nothing => interference
  end.

(** The assertion of [applyChange]: the signal of the change is over the
    spectrum of the accumulator. *)
Definition changeFits (sp : Spectrum) (it : SignalChange) : bool :=
  match type it with
  | nothing => true
  | _ => Spectrum_eqb sp (getSpectrum (signal it))
  end.



(** ** The statement of the maximum interference *)

(** The sum, at bin [b], of the powers of the interferers (the frames of
    another transmission than the reference frame) that are active at [t]. *)
Definition interferenceAt (referenceFrame : AirFrame) (interfererFrames : AirFrameVector)
    (t : simtime_t) (b : nat) : Z :=
  sumZ (map (fun entry =>
               if isOtherTransmission referenceFrame entry
                  && activeAtb t (getSignal (snd entry))
               then at_ (getSignal (snd entry)) b else 0)
            interfererFrames).

(** The same sum over the interferers whose reception starts before [end_]. *)
Definition interferenceStartedBefore (end_ : simtime_t) (referenceFrame : AirFrame)
    (interfererFrames : AirFrameVector) (t : simtime_t) (b : nat) : Z :=
  sumZ (map (fun entry =>
               if isOtherTransmission referenceFrame entry
                  && (getReceptionStart (getSignal (snd entry)) <? end_)
                  && activeAtb t (getSignal (snd entry))
               then at_ (getSignal (snd entry)) b else 0)
            interfererFrames).

(** [v] is the maximum of [g] over the instants of [[start, end_]]. *)
Definition isMaxOver (start end_ : simtime_t) (g : simtime_t -> Z) (v : Z) : Prop :=
  (exists t, start <= t <= end_ /\ g t = v)
  /\ (forall t, start <= t <= end_ -> g t <= v).

Definition sortedByReceptionStart (frames : AirFrameVector) : Prop :=
  StronglySorted
    (fun a b => getReceptionStart (getSignal (snd a)) <= getReceptionStart (getSignal (snd b)))
    frames.

(** The data model of an interferer for the sweep over the spectrum [sp]: it
    is over [sp] with one sample per bin, its populated range lies in the
    spectrum, its samples are powers (not negative, zero outside the populated
    range), and it is received over an interval of positive length of the
    simulation time (which starts at 0). *)
Record wellFormed (sp : Spectrum) (s : Signal) : Prop := mkWellFormed {
  wf_fits : fits sp s;
  wf_range : (getDataEnd s <= getNumFreqs sp)%nat;
  wf_power : forall b, 0 <= at_ s b;
  wf_outside : forall b, ~ (getDataStart s <= b < getDataEnd s)%nat -> at_ s b = 0;
  wf_interval : 0 <= getReceptionStart s < getReceptionEnd s
}.

(** The interferers that the loop of [getMaxInterference] adds to the current
    interference. *)
Definition isSwept (start end_ : simtime_t) (referenceFrame : AirFrame)
    (entry : AirFramePtr * AirFrame) : bool :=
  isOtherTransmission referenceFrame entry
  && (start <? getReceptionEnd (getSignal (snd entry)))
  && (getReceptionStart (getSignal (snd entry)) <? end_).

(** The sum, at bin [b], of the signals of a list that are active at [t]. *)
Definition activeSum (signals : list Signal) (t : simtime_t) (b : nat) : Z :=
  sumZ (map (fun s => if activeAtb t s then at_ s b else 0) signals).

Definition sumAt (b : nat) (signals : list Signal) : Z :=
  sumZ (map (fun s => at_ s b) signals).

Definition sortedByReceptionEnd (q : list Signal) : Prop :=
  StronglySorted (fun a b => getReceptionEnd a <= getReceptionEnd b) q.

Definition endsAfter (t : simtime_t) (s : Signal) : bool := t <? getReceptionEnd s.

(** The signals that the loop of [getMaxInterference] has added or will add. *)
Definition sweptSignals (start end_ : simtime_t) (referenceFrame : AirFrame)
    (frames : AirFrameVector) : list Signal :=
  signalsIn (List.filter (isSwept start end_ referenceFrame) frames).

(** What holds of the state of the loop of [getMaxInterference] between two
    iterations, [swept] being the signals added so far. *)
Record sweepInvariant (start end_ : simtime_t) (sp : Spectrum) (swept : list Signal)
    (st : SweepState) : Prop := mkSweepInvariant {
  inv_max_fits : fits sp (maxInterference st);
  inv_cur_fits : fits sp (currentInterference st);
  inv_queue_sorted : sortedByReceptionEnd (signalEndings st);
  inv_queue : Permutation (signalEndings st)
                (List.filter (endsAfter (currentTime st)) swept);
  inv_cur : forall b, at_ (currentInterference st) b = sumAt b (signalEndings st);
  inv_swept : Forall (fun s => wellFormed sp s
                               /\ getReceptionStart s <= currentTime st
                               /\ start < getReceptionEnd s
                               /\ getReceptionStart s < end_) swept;
  inv_max : forall b, isMaxOver start end_ (fun t => activeSum swept t b)
                        (at_ (maxInterference st) b)
}.

(** Two signals that differ at most in their power samples and in the stages
    they have consumed, which is all that attenuation changes. *)
Definition sameShape (s s' : Signal) : Prop :=
  getSpectrum s = getSpectrum s'
  /\ getDataStart s = getDataStart s'
  /\ getDataEnd s = getDataEnd s'
  /\ getReceptionStart s = getReceptionStart s'
  /\ getReceptionEnd s = getReceptionEnd s'.

Definition sameFrameShape (f f' : AirFrame) : Prop :=
  getTreeId f = getTreeId f' /\ sameShape (getSignal f) (getSignal f').

(** What the assertions of [getMaxInterference] ask of an interferer. *)
Definition sweepable (sp : Spectrum) (s : Signal) : Prop :=
  getSpectrum s = sp /\ 0 <= getReceptionStart s < getReceptionEnd s.

(** The pointers to the frames that are not duplicates of the reference
    frame. *)
Definition isOtherPtr (h : Heap) (referenceFrame : AirFrame) (p : AirFramePtr) : bool :=
  match h !! p with
  | Some f => negb (getTreeId f =? getTreeId referenceFrame)
  | None => true
  end.

(** *** Changes of equal time, as the sweeps are said to treat them *)





Section Runs.
Context {A V : Type}.
Variable add : SignalChange -> A -> option A.
Variable step : SignalChange -> A -> option A.
Variable eval : A -> V.
Variable keep : V -> V -> V.




End Runs.





Section ScalarRuns.
Context {double : Type} {arith : Arithmetic double}.



End ScalarRuns.

(** The sum of the magnitudes of the samples at bin [b] that the changes add
    or take away: no running sum of the sweep is larger. *)
Definition magnitude (b : nat) (changes : list SignalChange) : Z :=
  sumZ (map (fun c => Z.abs (at_ (signal c) b)) changes).

(** The binary64 number of sign [s] and magnitude [p] below [2^53]: the
    mantissa has 53 bits. *)
Definition canonical (s : bool) (p : positive) : spec_float :=
  S754_finite s (Pos.shiftl p (Z.to_N (53 - Z.pos (Pos.size p))))
    (Z.pos (Pos.size p) - 53).

(** ** Definitions used by the further properties *)

(** A signal contributes changes to the window: in a point query it starts at
    the instant or is under way at it, otherwise its reception overlaps the
    window. *)
Definition contributes (start end_ : simtime_t) (s : Signal) : bool :=
  ((start =? end_) && (getReceptionStart s =? start))
  || ((getReceptionStart s <? end_) && (getReceptionEnd s >? start)).

(** The frames that the loop of [getMaxInterference] does not skip: those of
    another transmission than the reference frame whose reception is not over
    by [start] and does not start after [end_]. *)
Definition isCandidate (start end_ : simtime_t) (referenceFrame : AirFrame)
    (entry : AirFramePtr * AirFrame) : bool :=
  isOtherTransmission referenceFrame entry
  && negb ((getReceptionEnd (getSignal (snd entry)) <=? start)
           || (getReceptionStart (getSignal (snd entry)) >? end_)).

(** What a change adds to the power at bin [b]. *)
Definition delta (b : nat) (c : SignalChange) : Z := applyChangeAt b c 0.

(** The sum of what the changes up to time [t] add to the power at bin [b]. *)
Definition powerUpTo (b : nat) (t : simtime_t) (changes : list SignalChange) : Z :=
  sumZ (map (fun c => if time c <=? t then delta b c else 0) changes).

(** The total power, at bin [b], of the signals of the collection that are
    active at instant [t] and whose reception starts before [end_], the
    excluded frame left out. *)
Definition activePowerStartedBefore (end_ t : simtime_t) (airFrames : AirFrameVector)
    (exclude : option AirFramePtr) (b : nat) : Z :=
  sumZ (map (fun entry =>
               if negb (isExcluded (fst entry) exclude)
                  && (getReceptionStart (getSignal (snd entry)) <? end_)
                  && activeAtb t (getSignal (snd entry))
               then at_ (getSignal (snd entry)) b else 0)
            airFrames).

(** [v] is the minimum of [g] over the instants of [[start, end_]]. *)
Definition isMinOver (start end_ : simtime_t) (g : simtime_t -> Z) (v : Z) : Prop :=
  (exists t, start <= t <= end_ /\ g t = v)
  /\ (forall t, start <= t <= end_ -> v <= g t).

(** The interferers of the threshold test: the pointers to the frames of the
    vector that are active at [now] and are not the excluded frame. *)
Definition interferersAt (now : simtime_t) (exclude : option AirFramePtr)
    (frames : AirFrameVector) : list AirFramePtr :=
  map fst (List.filter (isInterfererAt now exclude) frames).

(** The heap once the stages [index], [index + 1], ... ([n] of them) have run,
    each on every interferer. *)
Fixpoint attenuated (n index : nat) (interferers : list AirFramePtr) (h : Heap) : Heap :=
  match n with
  | O => h
  | S n' =>
      attenuated n' (S index) interferers
        (onSignals (applyAnalogueModel index) interferers h)
  end.

(** The ratio at bin [i] when the divisor is not zero: the power of the signal
    over interference plus noise. *)
Definition sinrAt (signal interference : Signal) (noise : Z) (i : nat) : Q :=
  (inject_Z (at_ signal i) / inject_Z (at_ interference i + noise))%Q.

(** The sum of the magnitudes of the samples at bin [b] of the signals of the
    collection. *)
Definition totalMagnitude (b : nat) (airFrames : AirFrameVector) : Z :=
  sumZ (map (fun entry => Z.abs (at_ (getSignal (snd entry)) b)) airFrames).
(** The operations of the exact model are those of [Z]. *)
Ltac exact_sums :=
  cbn [double_of double_zero double_add double_sub double_lt exactArithmetic] in *.

(** ** Event extraction *)

Lemma calculateChanges_body_app start end_ exclude changes entry :
  calculateChanges_body start end_ exclude changes entry
  = changes ++ changesOfEntry start end_ exclude entry.
Proof.
  unfold changesOfEntry, calculateChanges_body.
  destruct (isExcluded (fst entry) exclude); [now rewrite app_nil_r|].
  destruct ((start =? end_) && _); [reflexivity|].
  destruct ((_ <? end_) && _); [|now rewrite app_nil_r].
  destruct (_ <=? end_); [|reflexivity].
  now rewrite <- app_assoc.
Qed.

Lemma fold_calculateChanges_body start end_ exclude airFrames changes :
  fold_left (calculateChanges_body start end_ exclude) airFrames changes
  = changes ++ flat_map (changesOfEntry start end_ exclude) airFrames.
Proof.
  revert changes. induction airFrames as [|entry rest IH]; intros changes; simpl.
  - now rewrite app_nil_r.
  - rewrite IH, calculateChanges_body_app. now rewrite <- app_assoc.
Qed.

Lemma calculateChanges_flat_map start end_ airFrames exclude :
  calculateChanges start end_ airFrames exclude
  = flat_map (changesOfEntry start end_ exclude) airFrames.
Proof. unfold calculateChanges. now rewrite fold_calculateChanges_body. Qed.

Lemma calculateChanges_cons start end_ entry rest exclude :
  calculateChanges start end_ (entry :: rest) exclude
  = changesOfEntry start end_ exclude entry ++ calculateChanges start end_ rest exclude.
Proof. now rewrite !calculateChanges_flat_map. Qed.

Lemma changesOfEntry_expected start end_ exclude entry :
  changesOfEntry start end_ exclude entry
  = if isExcluded (fst entry) exclude then []
    else expectedChanges start end_ (getSignal (snd entry)).
Proof.
  unfold changesOfEntry, calculateChanges_body, expectedChanges.
  destruct (isExcluded (fst entry) exclude); [reflexivity|].
  set (s := getSignal (snd entry)).
  destruct (Z.eqb_spec start end_) as [->|Hne]; simpl.
  - destruct (Z.eqb_spec (getReceptionStart s) end_) as [He|He]; simpl; [reflexivity|].
    destruct (Z.ltb_spec (getReceptionStart s) end_); simpl; [|reflexivity].
    destruct (Z.gtb_spec (getReceptionEnd s) end_); simpl; [|reflexivity].
    destruct (Z.leb_spec (getReceptionEnd s) end_); [lia|reflexivity].
  - destruct ((_ <? end_) && _); [|reflexivity].
    destruct (_ <=? end_); reflexivity.
Qed.

(** C4 (as the code has it).  Event extraction is, frame by frame, the list
    [expectedChanges]: a frame that is not the excluded one emits, in a window
    with [start <> end], a Starting change at its reception start exactly when
    [receptionStart < end] and [receptionEnd > start], followed by an Ending
    change at its reception end exactly when that end is [<= end]; in a point
    query [start = end] it emits a single Starting change exactly when its
    reception starts at the instant or strictly before it with the reception
    ending strictly after it. *)
Theorem calculateChanges_events :
  forall (start end_ : simtime_t) (airFrames : AirFrameVector) (exclude : option AirFramePtr),
    calculateChanges start end_ airFrames exclude
    = flat_map (fun entry =>
                  if isExcluded (fst entry) exclude then []
                  else expectedChanges start end_ (getSignal (snd entry)))
               airFrames.
Proof.
  intros. rewrite calculateChanges_flat_map.
  apply flat_map_ext. intros entry. apply changesOfEntry_expected.
Qed.

(** C4 fails as stated: in the point query at 5 the signal received over
    [[0, 10)] contributes a Starting change although it does not start at 5. *)
Lemma calculateChanges_point_query_counterexample :
  let s := mkSignal [100] [1] 0 1 0 10 [] 0 in
  calculateChanges 5 5 [(1%positive, mkAirFrame 1 s)] None
  <> flat_map (fun entry => claimedChanges 5 5 (getSignal (snd entry)))
              [(1%positive, mkAirFrame 1 s)].
Proof. vm_compute. discriminate. Qed.

(** C9.  With an empty signal collection the three sweeps return 0; no change
    is extracted on that path. *)
Theorem sweeps_empty_collection :
  forall (start end_ : simtime_t) (freqIndex : nat) (exclude : option AirFramePtr),
    getGlobalMax start end_ [] = Some 0
    /\ getGlobalMin start end_ [] = Some 0
    /\ getMinAtFreqIndex start end_ [] freqIndex exclude = 0.
Proof. intros. repeat split. Qed.

(** ** The channel threshold test *)

Lemma view_filter (P : AirFramePtr * AirFrame -> bool) (h : Heap) ptrs frames :
  view h ptrs = Some frames ->
  view h (map fst (List.filter P frames)) = Some (List.filter P frames).
Proof.
  revert frames. induction ptrs as [|p rest IH]; intros frames Hv; simpl in Hv.
  - inversion Hv. reflexivity.
  - destruct (h !! p) as [f|] eqn:Hp; [|discriminate].
    destruct (view h rest) as [v|] eqn:Hr; [|discriminate].
    inversion Hv; subst frames. simpl.
    destruct (P (p, f)); simpl; [|now apply IH].
    rewrite Hp. now rewrite (IH v eq_refl).
Qed.

Lemma signalsOf_filter (P : AirFramePtr * AirFrame -> bool) (h : Heap) ptrs frames :
  view h ptrs = Some frames ->
  signalsOf h (map fst (List.filter P frames)) = Some (signalsIn (List.filter P frames)).
Proof.
  intros Hv. unfold signalsOf. now rewrite (view_filter P h ptrs frames Hv).
Qed.

Lemma filter_none {A} (P : A -> bool) (l : list A) :
  (forall x, In x l -> P x = false) -> List.filter P l = [].
Proof.
  induction l as [|x l IH]; intros H; simpl; [reflexivity|].
  rewrite (H x (or_introl eq_refl)). apply IH. intros y Hy. apply H. now right.
Qed.

Lemma isInterfererAt_false now exclude p f :
  (activeAt now (getSignal f) -> exclude = Some p) ->
  isInterfererAt now exclude (p, f) = false.
Proof.
  unfold isInterfererAt, activeAt; simpl. intros H.
  destruct (Z.leb_spec (getReceptionStart (getSignal f)) now); simpl; [|reflexivity].
  destruct (Z.gtb_spec (getReceptionEnd (getSignal f)) now); simpl; [|reflexivity].
  rewrite H by lia. simpl. now rewrite Pos.eqb_refl.
Qed.

Lemma below_threshold_at_once (h : Heap) now ptrs freqIndex threshold exclude frames :
  view h ptrs = Some frames ->
  powerLevelSumAtFrequencyIndex
    (signalsIn (List.filter (isInterfererAt now exclude) frames)) freqIndex < threshold ->
  isChannelPowerBelowThreshold h now ptrs freqIndex threshold exclude = Some (true, h).
Proof.
  intros Hv Hsum.
  unfold isChannelPowerBelowThreshold.
  destruct ptrs as [|front rest]; [reflexivity|].
  rewrite Hv.
  rewrite (signalsOf_filter _ h (front :: rest) frames Hv).
  apply Z.ltb_lt in Hsum. now rewrite Hsum.
Qed.



(** C7 (as the code has it).  When no frame of the collection other than the
    excluded one is active at [now], the test answers true, and leaves the
    heap alone, for every threshold above zero; for an empty collection it
    does so for every threshold. *)
Theorem isChannelPowerBelowThreshold_no_interferer :
  forall (h : Heap) (now : simtime_t) (interfererFrames : list AirFramePtr)
         (freqIndex : nat) (threshold : Z) (exclude : option AirFramePtr)
         (frames : AirFrameVector),
    view h interfererFrames = Some frames ->
    (forall p f, In (p, f) frames -> activeAt now (getSignal f) -> exclude = Some p) ->
    interfererFrames = [] \/ 0 < threshold ->
    isChannelPowerBelowThreshold h now interfererFrames freqIndex threshold exclude
    = Some (true, h).
Proof.
  intros h now ptrs freqIndex threshold exclude frames Hv Hnone Hthr.
  destruct ptrs as [|front rest]; [reflexivity|].
  destruct Hthr as [Hnil|Hpos]; [discriminate|].
  apply (below_threshold_at_once h now (front :: rest)
           freqIndex threshold exclude frames Hv).
  rewrite filter_none; [exact Hpos|].
  intros [p f] Hin. apply isInterfererAt_false. now apply Hnone.
Qed.

Lemma isChannelPowerBelowThreshold_no_interferer_witness :
  let f := mkAirFrame 1 (mkSignal [100] [3] 0 1 10 20 [] 0) in
  let h : Heap := <[1%positive := f]> ∅ in
  isChannelPowerBelowThreshold h 5 [1%positive] 0 1 None = Some (true, h).
Proof.
  intros f h.
  apply (isChannelPowerBelowThreshold_no_interferer h 5 [1%positive] 0%nat 1 None
           [(1%positive, f)]).
  - reflexivity.
  - intros p g [Heq|[]] [H1 H2]. inversion Heq; subst. simpl in H1. lia.
  - right. lia.
Defined.

(** C7 fails as stated: with the threshold 0 and a collection whose only
    frame is received over [[10, 20)], so that nothing is active at 5, the test
    answers false. *)
Lemma isChannelPowerBelowThreshold_no_interferer_counterexample :
  let f := mkAirFrame 1 (mkSignal [100] [3] 0 1 10 20 [] 0) in
  let h : Heap := <[1%positive := f]> ∅ in
  (forall p g, In (p, g) [(1%positive, f)] -> ~ activeAt 5 (getSignal g))
  /\ isChannelPowerBelowThreshold h 5 [1%positive] 0 0 None = Some (false, h).
Proof.
  intros f h. split.
  - intros p g [Heq|[]] [H1 H2]. inversion Heq; subst. simpl in H1. lia.
  - vm_compute. reflexivity.
Qed.

(** ** Sorting by time *)

Lemma insertByTime_perm c l : Permutation (insertByTime c l) (c :: l).
Proof.
  induction l as [|d l IH]; simpl; [reflexivity|].
  destruct (compareByTime d c); [|reflexivity].
  rewrite IH. apply perm_swap.
Qed.

Lemma sortByTime_perm l : Permutation (sortByTime l) l.
Proof.
  induction l as [|c l IH]; simpl; [reflexivity|].
  rewrite insertByTime_perm. now constructor.
Qed.

Lemma insertByTime_sorted c l : sortedByTime l -> sortedByTime (insertByTime c l).
Proof.
  unfold sortedByTime.
  induction l as [|d l IH]; intros Hs; simpl.
  - repeat constructor.
  - inversion Hs as [|? ? Hl Hd]; subst.
    unfold compareByTime. destruct (Z.ltb_spec (time d) (time c)) as [Hlt|Hge].
    + constructor; [now apply IH|].
      eapply Permutation_Forall.
      * symmetry. apply insertByTime_perm.
      * constructor; [lia|exact Hd].
    + constructor; [exact Hs|].
      constructor; [exact Hge|].
      eapply List.Forall_impl; [|exact Hd]. simpl. intros; lia.
Qed.

Lemma sortByTime_sorted l : sortedByTime (sortByTime l).
Proof.
  induction l as [|c l IH]; simpl; [constructor|].
  now apply insertByTime_sorted.
Qed.

Lemma sumZ_app a b : sumZ (a ++ b) = sumZ a + sumZ b.
Proof. induction a as [|x a IH]; simpl; [reflexivity|]. rewrite IH. lia. Qed.

Lemma sumZ_perm a b : Permutation a b -> sumZ a = sumZ b.
Proof. induction 1; simpl; lia. Qed.

Lemma sumZ_map_perm {A} (f : A -> Z) a b :
  Permutation a b -> sumZ (map f a) = sumZ (map f b).
Proof. intros H. apply sumZ_perm. now apply Permutation_map. Qed.

(** ** Samples of combined signals *)

Lemma nth_zipWithZ f a b i :
  length a = length b -> f 0 0 = 0 ->
  nth i (zipWithZ f a b) 0 = f (nth i a 0) (nth i b 0).
Proof.
  intros Hlen Hf. revert b i Hlen.
  induction a as [|x a IH]; intros [|y b] i Hlen; simpl in *; try discriminate.
  - destruct i; now rewrite Hf.
  - destruct i; [reflexivity|]. apply IH. lia.
Qed.

Lemma length_zipWithZ f a b :
  length a = length b -> length (zipWithZ f a b) = length a.
Proof.
  revert b. induction a as [|x a IH]; intros [|y b] Hlen; simpl in *; try discriminate.
  - reflexivity.
  - f_equal. apply IH. lia.
Qed.

Lemma Spectrum_eqb_refl sp : Spectrum_eqb sp sp = true.
Proof. unfold Spectrum_eqb. now apply bool_decide_eq_true. Qed.

Lemma Spectrum_eqb_eq a b : Spectrum_eqb a b = true <-> a = b.
Proof. unfold Spectrum_eqb. apply bool_decide_eq_true. Qed.

Lemma plusAssign_fits sp acc s :
  fits sp acc -> fits sp s ->
  exists acc', plusAssign acc s = Some acc' /\ fits sp acc'
               /\ forall b, at_ acc' b = at_ acc b + at_ s b.
Proof.
  intros [Ha La] [Hs Ls]. unfold plusAssign. rewrite Ha, Hs, Spectrum_eqb_refl.
  eexists; split; [reflexivity|]. split.
  - split; simpl; [exact Ha|]. rewrite length_zipWithZ; congruence.
  - intros b. unfold at_; simpl. apply nth_zipWithZ; [congruence|reflexivity].
Qed.

Lemma minusAssign_fits sp acc s :
  fits sp acc -> fits sp s ->
  exists acc', minusAssign acc s = Some acc' /\ fits sp acc'
               /\ forall b, at_ acc' b = at_ acc b - at_ s b.
Proof.
  intros [Ha La] [Hs Ls]. unfold minusAssign. rewrite Ha, Hs, Spectrum_eqb_refl.
  eexists; split; [reflexivity|]. split.
  - split; simpl; [exact Ha|]. rewrite length_zipWithZ; congruence.
  - intros b. unfold at_; simpl. apply nth_zipWithZ; [congruence|reflexivity].
Qed.

Lemma newSignal_fits sp : fits sp (newSignal sp).
Proof. split; simpl; [reflexivity|]. apply repeat_length. Qed.

Lemma at_newSignal sp b : at_ (newSignal sp) b = 0.
Proof.
  unfold at_; simpl. generalize (getNumFreqs sp) as n. revert b.
  induction b as [|b IH]; intros [|n]; simpl; auto.
Qed.

(** ** The first loop of the sweeps *)

Lemma all_later_beginning b start l :
  Forall (fun c => start < time c) l ->
  sumZ (map (beginningTerm b start) l) = 0 /\ List.filter (isLater start) l = l.
Proof.
  induction 1 as [|c l Hc Hl [IH1 IH2]]; simpl; [split; reflexivity|].
  unfold beginningTerm at 1, isLater at 1.
  destruct (Z.leb_spec (time c) start); [lia|].
  destruct (Z.gtb_spec (time c) start); [|lia].
  rewrite IH1, IH2. split; reflexivity.
Qed.

Lemma sorted_head_later start c l :
  sortedByTime (c :: l) -> start < time c -> Forall (fun d => start < time d) (c :: l).
Proof.
  intros Hs Hc. inversion Hs as [|? ? _ Hall]; subst.
  constructor; [exact Hc|].
  eapply List.Forall_impl; [|exact Hall]. simpl. intros; lia.
Qed.


Lemma interferenceAtBeginningAt_sorted b start l acc :
  sortedByTime l ->
  interferenceAtBeginningAt b start l acc
  = (acc + sumZ (map (beginningTerm b start) l), List.filter (isLater start) l).
Proof.
  revert acc. induction l as [|c l IH]; intros acc Hs.
  - simpl. f_equal. lia.
  - cbn [interferenceAtBeginningAt]. exact_sums.
    destruct (Z.gtb_spec (time c) start) as [Hgt|Hle].
    + destruct (all_later_beginning b start (c :: l)) as [H1 H2].
      { apply sorted_head_later; [exact Hs|lia]. }
      rewrite H1, H2. f_equal. lia.
    + inversion Hs; subst. rewrite IH by assumption.
      cbn [map sumZ fold_right List.filter]. unfold beginningTerm at 2, isLater at 2.
      destruct (Z.leb_spec (time c) start); [|lia].
      destruct (Z.gtb_spec (time c) start); [lia|].
      f_equal. fold (sumZ (map (beginningTerm b start) l)). lia.
Qed.




Lemma ending_is_later start end_ airFrames exclude c :
  In c (calculateChanges start end_ airFrames exclude) ->
  time c <= start -> type c = starting.
Proof.
  rewrite calculateChanges_flat_map. intros Hin Hle.
  apply in_flat_map in Hin as (entry & _ & Hin).
  rewrite changesOfEntry_expected in Hin.
  destruct (isExcluded (fst entry) exclude); [destruct Hin|].
  unfold expectedChanges in Hin.
  destruct (start =? end_).
  - destruct (_ || _); [|destruct Hin]. destruct Hin as [<-|[]]. reflexivity.
  - destruct (Z.ltb_spec (getReceptionStart (getSignal (snd entry))) end_); [|destruct Hin].
    destruct (Z.gtb_spec (getReceptionEnd (getSignal (snd entry))) start); [|destruct Hin].
    cbn [andb] in Hin. destruct Hin as [<-|Hin]; [reflexivity|].
    destruct (_ <=? end_); [|destruct Hin].
    destruct Hin as [<-|[]]. simpl in Hle. lia.
Qed.




(** ** A single signal of constant power *)

Lemma zipWithZ_add_zero vs : zipWithZ Z.add (repeat 0 (length vs)) vs = vs.
Proof. induction vs as [|v vs IH]; simpl; [reflexivity|]. now rewrite IH. Qed.

Lemma fold_left_max_const p l : Forall (eq p) l -> fold_left Z.max l p = p.
Proof.
  induction 1 as [|x l <- _ IH]; simpl; [reflexivity|].
  now rewrite Z.max_id.
Qed.

Lemma fold_left_min_const p l : Forall (eq p) l -> fold_left Z.min l p = p.
Proof.
  induction 1 as [|x l <- _ IH]; simpl; [reflexivity|].
  now rewrite Z.min_id.
Qed.

Lemma dataValues_constant s p :
  (getDataStart s < getDataEnd s <= length (values s))%nat ->
  (forall i, (getDataStart s <= i < getDataEnd s)%nat -> at_ s i = p) ->
  maxOf (dataValues s) = p /\ minOf (dataValues s) = p.
Proof.
  intros Hrange Hconst.
  assert (Hlen : length (dataValues s) = (getDataEnd s - getDataStart s)%nat).
  { unfold dataValues. rewrite List.length_firstn, List.length_skipn. lia. }
  assert (Hall : Forall (eq p) (dataValues s)).
  { apply List.Forall_forall. intros x Hx.
    destruct (List.In_nth _ _ 0 Hx) as (j & Hj & <-).
    unfold dataValues. rewrite List.nth_firstn.
    destruct (Nat.ltb_spec j (getDataEnd s - getDataStart s)); [|lia].
    rewrite List.nth_skipn. symmetry. apply Hconst. lia. }
  destruct (dataValues s) as [|x l]; [simpl in Hlen; lia|].
  inversion Hall; subst. simpl. split.
  - now apply fold_left_max_const.
  - now apply fold_left_min_const.
Qed.

Lemma single_signal_changes start end_ ptr frame :
  getReceptionStart (getSignal frame) <= start -> start <= end_ ->
  end_ < getReceptionEnd (getSignal frame) ->
  sortByTime (calculateChanges start end_ [(ptr, frame)] None)
  = [mkSignalChange (getSignal frame) starting (getReceptionStart (getSignal frame))].
Proof.
  intros H1 H2 H3. unfold calculateChanges. cbn [fold_left].
  unfold calculateChanges_body. cbn [isExcluded fst snd].
  destruct (Z.eqb_spec start end_); destruct (Z.eqb_spec (getReceptionStart (getSignal frame)) start);
    cbn [andb app sortByTime fold_right insertByTime]; try reflexivity.
  all: destruct (Z.ltb_spec (getReceptionStart (getSignal frame)) end_); try lia.
  all: destruct (Z.gtb_spec (getReceptionEnd (getSignal frame)) start); try lia.
  all: destruct (Z.leb_spec (getReceptionEnd (getSignal frame)) end_); try lia.
  all: reflexivity.
Qed.

Lemma single_signal_accumulator s :
  length (values s) = getNumFreqs (getSpectrum s) ->
  (getDataStart s < getDataEnd s)%nat ->
  plusAssign (newSignal (getSpectrum s)) s
  = Some (mkSignal (getSpectrum s) (values s) (getDataStart s) (getDataEnd s) 0 0 [] 0).
Proof.
  intros Hlen Hrange. unfold plusAssign. cbn [newSignal getSpectrum].
  rewrite Spectrum_eqb_refl. unfold combineWith, includeRange.
  cbn [newSignal getSpectrum values getDataStart getDataEnd getReceptionStart
       getReceptionEnd getAnalogueModelList numAnalogueModelsApplied].
  destruct (Nat.ltb_spec (getDataStart s) (getDataEnd s)); [|lia].
  cbn [Nat.ltb Nat.leb fst snd].
  rewrite <- Hlen, zipWithZ_add_zero. reflexivity.
Qed.

(** C2.  A collection of exactly one signal, of constant power [p] on its
    populated bins (of which there is at least one) and received over
    [[receptionStart, receptionEnd)]: for every window inside that interval
    [getGlobalMax] and [getGlobalMin] both return [p]. *)
Theorem single_constant_signal :
  forall (start end_ : simtime_t) (ptr : AirFramePtr) (frame : AirFrame) (p : Z),
    length (values (getSignal frame)) = getNumFreqs (getSpectrum (getSignal frame)) ->
    (getDataStart (getSignal frame) < getDataEnd (getSignal frame)
     <= length (values (getSignal frame)))%nat ->
    (forall i, (getDataStart (getSignal frame) <= i < getDataEnd (getSignal frame))%nat ->
               at_ (getSignal frame) i = p) ->
    getReceptionStart (getSignal frame) <= start -> start <= end_ ->
    end_ < getReceptionEnd (getSignal frame) ->
    getGlobalMax start end_ [(ptr, frame)] = Some p
    /\ getGlobalMin start end_ [(ptr, frame)] = Some p.
Proof.
  intros start end_ ptr frame p Hlen Hrange Hconst H1 H2 H3.
  unfold getGlobalMax, getGlobalMin.
  rewrite (single_signal_changes start end_ ptr frame H1 H2 H3).
  unfold sweepMax, sweepMin.
  cbn [snd interferenceAtBeginning time signal].
  destruct (Z.gtb_spec (getReceptionStart (getSignal frame)) start); [lia|].
  rewrite single_signal_accumulator by (try assumption; lia).
  cbn [interferenceAtBeginning chunksMax chunksMin].
  unfold getMax, getDataMin.
  set (acc := mkSignal _ _ _ _ _ _ _ _).
  destruct (dataValues_constant acc p) as [Hmax Hmin].
  - exact Hrange.
  - exact Hconst.
  - now rewrite Hmax, Hmin.
Qed.

Lemma single_constant_signal_witness :
  let frame := mkAirFrame 1 (mkSignal [100; 200; 300] [0; 4; 4] 1 3 0 10 [] 0) in
  getGlobalMax 2 8 [(1%positive, frame)] = Some 4
  /\ getGlobalMin 2 8 [(1%positive, frame)] = Some 4.
Proof.
  intros frame.
  apply (single_constant_signal 2 8 1%positive frame 4).
  - reflexivity.
  - simpl; lia.
  - intros i Hi. simpl in Hi.
    assert (i = 1 \/ i = 2)%nat as [->| ->] by lia; reflexivity.
  - simpl; lia.
  - lia.
  - simpl; lia.
Defined.

(** ** The excluded frame *)

Lemma getMaxInterference_loop_others start end_ referenceFrame spectrum frames st :
  getMaxInterference_loop start end_ referenceFrame spectrum
    (List.filter (isOtherTransmission referenceFrame) frames) st
  = getMaxInterference_loop start end_ referenceFrame spectrum frames st.
Proof.
  revert st. induction frames as [|[p f] rest IH]; intros st; [reflexivity|].
  cbn [List.filter]. unfold isOtherTransmission at 1. cbn [snd].
  destruct (getTreeId f =? getTreeId referenceFrame) eqn:Hid; cbn [negb].
  - rewrite IH. cbn [getMaxInterference_loop]. now rewrite Hid.
  - cbn [getMaxInterference_loop]. rewrite Hid.
    repeat match goal with
           | |- (if ?c then _ else _) = (if ?c then _ else _) => destruct c; try reflexivity
           | |- match ?x with _ => _ end = match ?x with _ => _ end =>
               destruct x as [[? ?]|]; try reflexivity
           | |- match ?x with _ => _ end = match ?x with _ => _ end =>
               destruct x; try reflexivity
           end; apply IH.
Qed.

Lemma calculateChanges_not_excluded start end_ frames exclude :
  calculateChanges start end_ (List.filter (isNotExcluded exclude) frames) exclude
  = calculateChanges start end_ frames exclude.
Proof.
  induction frames as [|entry rest IH]; [reflexivity|].
  cbn [List.filter]. unfold isNotExcluded at 1.
  destruct (isExcluded (fst entry) exclude) eqn:He; cbn [negb].
  - rewrite IH, (calculateChanges_cons _ _ entry rest).
    rewrite changesOfEntry_expected, He. reflexivity.
  - rewrite !calculateChanges_cons. now rewrite IH.
Qed.

Lemma getMinAtFreqIndex_not_excluded start end_ frames freqIndex exclude :
  getMinAtFreqIndex start end_ (List.filter (isNotExcluded exclude) frames) freqIndex exclude
  = getMinAtFreqIndex start end_ frames freqIndex exclude.
Proof.
  unfold getMinAtFreqIndex.
  rewrite (calculateChanges_not_excluded start end_ frames exclude).
  destruct (List.filter (isNotExcluded exclude) frames) as [|e l] eqn:Hf.
  - destruct frames as [|e' l']; [reflexivity|].
    rewrite <- (calculateChanges_not_excluded start end_ (e' :: l') exclude), Hf.
    reflexivity.
  - destruct frames; [discriminate|reflexivity].
Qed.

Lemma view_filter_ptrs (P : AirFramePtr -> bool) (h : Heap) ptrs frames :
  view h ptrs = Some frames ->
  view h (List.filter P ptrs) = Some (List.filter (fun entry => P (fst entry)) frames).
Proof.
  revert frames. induction ptrs as [|p rest IH]; intros frames Hv; simpl in Hv.
  - inversion Hv. reflexivity.
  - destruct (h !! p) as [f|] eqn:Hp; [|discriminate].
    destruct (view h rest) as [v|] eqn:Hr; [|discriminate].
    inversion Hv; subst frames. cbn [List.filter fst].
    destruct (P p); [|now apply IH].
    cbn [view]. rewrite Hp. now rewrite (IH v eq_refl).
Qed.

Lemma filter_interferers_not_excluded now exclude frames :
  List.filter (isInterfererAt now exclude) (List.filter (isNotExcluded exclude) frames)
  = List.filter (isInterfererAt now exclude) frames.
Proof.
  induction frames as [|entry rest IH]; [reflexivity|].
  cbn [List.filter]. unfold isNotExcluded at 1, isInterfererAt at 2.
  destruct (isExcluded (fst entry) exclude) eqn:He; cbn [negb].
  - rewrite andb_false_r. exact IH.
  - cbn [List.filter]. unfold isInterfererAt at 1. rewrite He. cbn [negb].
    destruct (_ && _ && true); now rewrite IH.
Qed.

Lemma view_head (h : Heap) front rest frames :
  view h (front :: rest) = Some frames ->
  exists f tail, frames = (front, f) :: tail /\ h !! front = Some f.
Proof.
  simpl. destruct (h !! front) as [f|]; [|discriminate].
  destruct (view h rest) as [v|]; [|discriminate].
  intros Hv; inversion Hv. eauto.
Qed.

Lemma isChannelPowerBelowThreshold_not_excluded (h : Heap) now ptrs freqIndex threshold
    exclude frames n :
  view h ptrs = Some frames ->
  (forall p f, In (p, f) frames -> length (getAnalogueModelList (getSignal f)) = n) ->
  0 < threshold ->
  isChannelPowerBelowThreshold h now
    (List.filter (fun p => negb (isExcluded p exclude)) ptrs) freqIndex threshold exclude
  = isChannelPowerBelowThreshold h now ptrs freqIndex threshold exclude.
Proof.
  intros Hv Hcount Hthr.
  assert (Hv' : view h (List.filter (fun p => negb (isExcluded p exclude)) ptrs)
                = Some (List.filter (isNotExcluded exclude) frames))
    by exact (view_filter_ptrs (fun p => negb (isExcluded p exclude)) h ptrs frames Hv).
  destruct (List.filter (fun p => negb (isExcluded p exclude)) ptrs) as [|front' rest'] eqn:Hptrs'.
  - (* nothing is left: the whole vector is the excluded frame *)
    symmetry. eapply below_threshold_at_once; [exact Hv|].
    rewrite <- filter_interferers_not_excluded.
    cbn [view] in Hv'. injection Hv' as Hnil. rewrite <- Hnil. simpl. exact Hthr.
  - destruct ptrs as [|front rest]; [discriminate|].
    unfold isChannelPowerBelowThreshold. rewrite Hv, Hv'.
    rewrite filter_interferers_not_excluded.
    destruct (signalsOf h _) as [signals|]; [|reflexivity].
    destruct (_ <? threshold); [reflexivity|].
    destruct (view_head h front rest frames Hv) as (f & tail & Hframes & Hfront).
    destruct (view_head h front' rest' _ Hv') as (f' & tail' & Hframes' & Hfront').
    rewrite Hfront, Hfront'.
    assert (Hn : length (getAnalogueModelList (getSignal f)) = n).
    { apply (Hcount front). rewrite Hframes. now left. }
    assert (Hn' : length (getAnalogueModelList (getSignal f')) = n).
    { apply (Hcount front'). apply (List.filter_In (isNotExcluded exclude) (front', f') frames).
      rewrite Hframes'. now left. }
    rewrite Hn, Hn'. reflexivity.
Qed.

(** ** The order of simultaneous changes *)


Lemma fold_left_ext_in {A B} (f g : A -> B -> A) (l : list B) :
  (forall a x, In x l -> f a x = g a x) ->
  forall a, fold_left f l a = fold_left g l a.
Proof.
  induction l as [|x l IH]; intros Hfg a; simpl; [reflexivity|].
  rewrite Hfg by now left. apply IH. intros b y Hy. apply Hfg. now right.
Qed.


Lemma filter_perm {A} (P : A -> bool) l l' :
  Permutation l l' -> Permutation (List.filter P l) (List.filter P l').
Proof.
  induction 1 as [|x l l' _ IH|x y l|l l' l'' _ IH1 _ IH2]; simpl.
  - reflexivity.
  - destruct (P x); [now constructor|exact IH].
  - destruct (P x), (P y); try reflexivity. apply perm_swap.
  - now rewrite IH1.
Qed.

Lemma filter_sorted P l : sortedByTime l -> sortedByTime (List.filter P l).
Proof.
  unfold sortedByTime. induction 1 as [|c l Hl IH Hc]; simpl; [constructor|].
  destruct (P c); [|exact IH].
  constructor; [exact IH|].
  apply List.Forall_forall. intros d Hd. apply List.filter_In in Hd as [Hd _].
  rewrite List.Forall_forall in Hc. now apply Hc.
Qed.

Section ChunksFacts.
Context {A : Type}.
Variable step : SignalChange -> A -> A.
Variable eval : A -> Z.
Variable op : Z -> Z -> Z.
Hypothesis step_comm : forall c d a, step c (step d a) = step d (step c a).
Hypothesis op_comm : forall x y, op x y = op y x.
Hypothesis op_assoc : forall x y z, op x (op y z) = op (op x y) z.
Hypothesis op_idem : forall x, op x x = x.



Lemma op_swap x y z : op x (op y z) = op y (op x z).
Proof. now rewrite !op_assoc, (op_comm x y). Qed.


(** A value that is among those folded can be folded once more. *)
Lemma fold_op_absorb (V : SignalChange -> Z) l c0 ext :
  In c0 l ->
  fold_left (fun e c => op (V c) e) l (op (V c0) ext)
  = fold_left (fun e c => op (V c) e) l ext.
Proof.
  revert ext. induction l as [|c l IH]; intros ext Hin; [destruct Hin|].
  simpl. destruct Hin as [->|Hin].
  - now rewrite op_assoc, op_idem.
  - rewrite op_swap. now apply IH.
Qed.

Lemma upTo_cons_sorted e rest c :
  sortedByTime (e :: rest) -> In c rest -> upTo c (e :: rest) = e :: upTo c rest.
Proof.
  intros Hs Hin. inversion Hs as [|? ? _ Hall]; subst.
  rewrite List.Forall_forall in Hall. specialize (Hall c Hin).
  unfold upTo. cbn [List.filter].
  destruct (Z.leb_spec (time e) (time c)); [reflexivity|lia].
Qed.

Lemma upTo_head_alone e rest :
  Forall (fun d => time e < time d) rest -> upTo e (e :: rest) = [e].
Proof.
  intros Hall. unfold upTo. cbn [List.filter]. rewrite Z.leb_refl. f_equal.
  apply filter_none. intros d Hd. rewrite List.Forall_forall in Hall.
  specialize (Hall d Hd). apply Z.leb_gt. exact Hall.
Qed.

(** The second loop evaluates the plateaus, and only them: each change counts
    with the value reached once every change of its time is applied. *)
Lemma chunks_bestPlateau l acc ext :
  sortedByTime l -> chunks step eval op l acc ext = bestPlateau step eval op l acc ext.
Proof.
  revert acc ext. induction l as [|e rest IH]; intros acc ext Hs; [reflexivity|].
  assert (Hrest : sortedByTime rest) by (inversion Hs; assumption).
  cbn [chunks]. rewrite IH by exact Hrest.
  unfold bestPlateau at 2. cbn [fold_left].
  assert (Htail : forall ext',
             bestPlateau step eval op rest (step e acc) ext'
             = fold_left (fun e0 c => op (plateau step eval (e :: rest) acc c) e0) rest ext').
  { intros ext'. unfold bestPlateau. apply fold_left_ext_in.
    intros a c Hc. unfold plateau. now rewrite (upTo_cons_sorted e rest c Hs Hc). }
  rewrite Htail.
  destruct rest as [|e2 r].
  { cbn [atBoundary fold_left]. unfold plateau. now rewrite upTo_head_alone by constructor. }
  cbn [atBoundary]. destruct (Z.eqb_spec (time e) (time e2)) as [Heq|Hne]; cbn [negb].
  - replace (plateau step eval (e :: e2 :: r) acc e)
      with (plateau step eval (e :: e2 :: r) acc e2)
      by (unfold plateau, upTo; now rewrite Heq).
    symmetry. apply fold_op_absorb. now left.
  - f_equal. f_equal. unfold plateau. rewrite upTo_head_alone; [reflexivity|].
    inversion Hs as [|? ? _ Hall]; subst. inversion Hall as [|? ? He2 _]; subst.
    inversion Hrest as [|? ? _ Hall2]; subst.
    constructor; [lia|].
    eapply List.Forall_impl; [|exact Hall2]. simpl. intros; lia.
Qed.

End ChunksFacts.

(** *** The three sweeps as instances *)


Lemma chunksMinAt_chunks b l interference minimum :
  chunksMinAt b l interference minimum
  = chunks (applyChangeAt b) (fun a => a) Z.min l interference minimum.
Proof.
  revert interference minimum. induction l as [|it rest IH]; intros i m; [reflexivity|].
  cbn [chunksMinAt chunks]. rewrite IH. f_equal.
  destruct (atBoundary it rest); [|reflexivity]. exact_sums.
  destruct (Z.ltb_spec (applyChangeAt b it i) m); lia.
Qed.






Lemma getSpectrum_applyChange' it acc : getSpectrum (applyChange' it acc) = getSpectrum acc.
Proof. unfold applyChange'. destruct (type it); reflexivity. Qed.

Lemma applyChange_total it acc :
  applyChange it acc
  = if changeFits (getSpectrum acc) it then Some (applyChange' it acc) else None.
Proof.
  unfold applyChange, applyChange', changeFits, plusAssign, minusAssign.
  destruct (type it); reflexivity.
Qed.

Lemma chunksMax_chunks l acc maximum :
  chunksMax l acc maximum
  = if forallb (changeFits (getSpectrum acc)) l
    then Some (chunks applyChange' getMax Z.max l acc maximum) else None.
Proof.
  revert acc maximum. induction l as [|it rest IH]; intros acc m; [reflexivity|].
  cbn [chunksMax chunks forallb]. rewrite applyChange_total.
  destruct (changeFits (getSpectrum acc) it); [|reflexivity].
  cbn [andb]. rewrite IH, getSpectrum_applyChange'.
  destruct (forallb _ rest); [|reflexivity].
  f_equal. f_equal. destruct (atBoundary it rest); [|reflexivity].
  cbv zeta. destruct (Z.gtb_spec (getMax (applyChange' it acc)) m); lia.
Qed.

Lemma chunksMin_chunks l acc minimum :
  chunksMin l acc minimum
  = if forallb (changeFits (getSpectrum acc)) l
    then Some (chunks applyChange' getDataMin Z.min l acc minimum) else None.
Proof.
  revert acc minimum. induction l as [|it rest IH]; intros acc m; [reflexivity|].
  cbn [chunksMin chunks forallb]. rewrite applyChange_total.
  destruct (changeFits (getSpectrum acc) it); [|reflexivity].
  cbn [andb]. rewrite IH, getSpectrum_applyChange'.
  destruct (forallb _ rest); [|reflexivity].
  f_equal. f_equal. destruct (atBoundary it rest); [|reflexivity].
  cbv zeta. destruct (Z.ltb_spec (getDataMin (applyChange' it acc)) m); lia.
Qed.






(** ** Sums of integers in binary64 *)

Lemma digits2_size p : digits2_pos p = Pos.size p.
Proof. induction p; simpl; congruence. Qed.

Lemma Zpos_iter_xO p n : Z.pos (Pos.iter xO p n) = Z.pos p * 2 ^ Z.pos n.
Proof.
  induction n as [|n IH] using Pos.peano_ind.
  - simpl. lia.
  - rewrite Pos.iter_succ, Pos2Z.inj_xO, IH, Pos2Z.inj_succ, Z.pow_succ_r by lia. lia.
Qed.

Lemma Zpos_shiftl p n : Z.pos (Pos.shiftl p n) = Z.pos p * 2 ^ Z.of_N n.
Proof.
  destruct n as [|n]; unfold Pos.shiftl; cbn [Z.of_N]; [rewrite Z.pow_0_r; lia|].
  apply Zpos_iter_xO.
Qed.

Lemma size_iter_xO p n : Z.pos (Pos.size (Pos.iter xO p n)) = Z.pos (Pos.size p) + Z.pos n.
Proof.
  induction n as [|n IH] using Pos.peano_ind.
  - simpl. lia.
  - rewrite Pos.iter_succ. simpl Pos.size. rewrite Pos2Z.inj_succ, IH. lia.
Qed.

Lemma size_shiftl p n : Z.pos (Pos.size (Pos.shiftl p n)) = Z.pos (Pos.size p) + Z.of_N n.
Proof.
  destruct n as [|n]; unfold Pos.shiftl; cbn [Z.of_N]; [lia|]. apply size_iter_xO.
Qed.

Lemma shiftl_shiftl p n m : Pos.shiftl (Pos.shiftl p n) m = Pos.shiftl p (n + m).
Proof.
  apply Pos2Z.inj. rewrite !Zpos_shiftl, N2Z.inj_add, Z.pow_add_r by lia. lia.
Qed.

Lemma size_bounds p : 2 ^ (Z.pos (Pos.size p) - 1) <= Z.pos p < 2 ^ Z.pos (Pos.size p).
Proof.
  pose proof (Pos.size_gt p) as Hgt. pose proof (Pos.size_le p) as Hle.
  apply Pos2Z.pos_lt_pos in Hgt. apply Pos2Z.pos_le_pos in Hle.
  rewrite Pos2Z.inj_pow in Hgt, Hle.
  change (Z.pos p~0) with (2 * Z.pos p) in Hle.
  assert (H : 2 ^ Z.pos (Pos.size p) = 2 * 2 ^ (Z.pos (Pos.size p) - 1)).
  { rewrite <- Z.pow_succ_r by lia. f_equal. lia. }
  lia.
Qed.

Lemma size_le_53 p : Z.pos p < 2 ^ 53 -> Z.pos (Pos.size p) <= 53.
Proof.
  intros Hp. destruct (Z.le_gt_cases (Z.pos (Pos.size p)) 53) as [H|H]; [exact H|].
  pose proof (size_bounds p) as [Hlo _].
  assert (2 ^ 53 <= 2 ^ (Z.pos (Pos.size p) - 1)) by (apply Z.pow_le_mono_r; lia).
  lia.
Qed.

Lemma iter_shr_1 n : forall p,
  SpecFloat.iter_pos shr_1 n {| shr_m := Z.pos (Pos.iter xO p n); shr_r := false; shr_s := false |}
  = {| shr_m := Z.pos p; shr_r := false; shr_s := false |}.
Proof.
  induction n as [n IH|n IH|]; intros p; simpl SpecFloat.iter_pos; simpl Pos.iter.
  - cbn [shr_1 orb]. now rewrite !IH.
  - now rewrite !IH.
  - reflexivity.
Qed.

Lemma shr_fexp_shifted q d e :
  Z.pos (Pos.size q) = 53 -> -1074 <= e + Z.of_N d ->
  shr_fexp prec emax (Z.pos (Pos.shiftl q d)) e loc_Exact
  = ({| shr_m := Z.pos q; shr_r := false; shr_s := false |}, e + Z.of_N d).
Proof.
  intros Hq He. unfold shr_fexp, fexp, SpecFloat.emin. cbn [Zdigits2 shr_record_of_loc].
  rewrite digits2_size, size_shiftl, Hq.
  replace (Z.max (53 + Z.of_N d + e - prec) (3 - emax - prec) - e) with (Z.of_N d)
    by (unfold prec, emax; lia).
  destruct d as [|d]; unfold Pos.shiftl; cbn [shr Z.of_N].
  - f_equal. lia.
  - now rewrite iter_shr_1.
Qed.

Lemma binary_round_aux_shifted s q d e :
  Z.pos (Pos.size q) = 53 -> -1074 <= e + Z.of_N d <= 971 ->
  binary_round_aux prec emax s (Z.pos (Pos.shiftl q d)) e loc_Exact
  = S754_finite s q (e + Z.of_N d).
Proof.
  intros Hq He. unfold binary_round_aux.
  rewrite shr_fexp_shifted by (try exact Hq; lia).
  cbn [shr_m loc_of_shr_record round_nearest_even].
  change (Z.pos q) with (Z.pos (Pos.shiftl q 0)).
  rewrite shr_fexp_shifted by (try exact Hq; cbn [Z.of_N]; lia).
  cbn [shr_m Z.of_N]. rewrite Z.add_0_r.
  destruct (Z.leb_spec (e + Z.of_N d) (emax - prec)); [reflexivity|unfold prec, emax in *; lia].
Qed.

Lemma binary_round_shifted s p k :
  Z.pos p < 2 ^ 53 ->
  binary_round prec emax s (Pos.shiftl p k) (- Z.of_N k) = canonical s p.
Proof.
  intros Hp. pose proof (size_le_53 p Hp) as Hsz.
  assert (Hpos : 0 < Z.pos (Pos.size p)) by lia.
  unfold binary_round, canonical.
  rewrite digits2_size, size_shiftl.
  unfold fexp, SpecFloat.emin.
  replace (Z.max (Z.pos (Pos.size p) + Z.of_N k + - Z.of_N k - prec) (3 - emax - prec))
    with (Z.pos (Pos.size p) - 53) by (unfold prec, emax; lia).
  set (j := Z.to_N (53 - Z.pos (Pos.size p))).
  assert (Hj : Z.of_N j = 53 - Z.pos (Pos.size p)) by (unfold j; lia).
  assert (Hq : Z.pos (Pos.size (Pos.shiftl p j)) = 53) by (rewrite size_shiftl; lia).
  unfold shl_align.
  destruct (Z.pos (Pos.size p) - 53 - - Z.of_N k) as [|d|d] eqn:Hd.
  - assert (Hk : k = (j + 0)%N) by lia.
    rewrite Hk, <- shiftl_shiftl, binary_round_aux_shifted by (try exact Hq; lia).
    f_equal. lia.
  - assert (Hk : k = (j + N.pos d)%N) by lia.
    rewrite Hk, <- shiftl_shiftl, binary_round_aux_shifted by (try exact Hq; lia).
    f_equal. lia.
  - change (Pos.iter xO (Pos.shiftl p k) d) with (Pos.shiftl (Pos.shiftl p k) (N.pos d)).
    rewrite shiftl_shiftl.
    assert (Hk : (k + N.pos d)%N = (j + 0)%N) by lia.
    rewrite Hk, <- shiftl_shiftl, binary_round_aux_shifted by (try exact Hq; lia).
    f_equal. lia.
Qed.

Lemma normalize_shifted c k :
  Z.abs c < 2 ^ 53 ->
  binary_normalize prec emax (c * 2 ^ Z.of_N k) (- Z.of_N k) false = normalized c.
Proof.
  intros Hc. unfold normalized. destruct c as [|p|p]; [reflexivity| |].
  - rewrite <- Zpos_shiftl. cbn [binary_normalize].
    rewrite binary_round_shifted by lia.
    change p with (Pos.shiftl p 0) at 2. change 0 with (- Z.of_N 0).
    now rewrite binary_round_shifted by lia.
  - change (Z.neg p) with (- Z.pos p) at 1. rewrite Z.mul_opp_l, <- Zpos_shiftl.
    change (- Z.pos (Pos.shiftl p k)) with (Z.neg (Pos.shiftl p k)).
    cbn [binary_normalize].
    rewrite binary_round_shifted by lia.
    change p with (Pos.shiftl p 0) at 2. change 0 with (- Z.of_N 0).
    now rewrite binary_round_shifted by lia.
Qed.

Lemma normalized_canonical c :
  Z.abs c < 2 ^ 53 -> c <> 0 -> normalized c = canonical (c <? 0) (Z.to_pos (Z.abs c)).
Proof.
  intros Hc Hne. unfold normalized. destruct c as [|p|p]; [lia| |]; cbn [binary_normalize Z.abs Z.to_pos Z.ltb Z.compare].
  - change p with (Pos.shiftl p 0) at 1. change 0 with (- Z.of_N 0).
    now rewrite binary_round_shifted by lia.
  - change p with (Pos.shiftl p 0) at 1. change 0 with (- Z.of_N 0).
    now rewrite binary_round_shifted by lia.
Qed.

Lemma normalized_0 : normalized 0 = S754_zero false.
Proof. reflexivity. Qed.

Lemma shl_align_canon p k :
  Z.pos p < 2 ^ 53 -> 53 - Z.pos (Pos.size p) <= Z.of_N k ->
  fst (shl_align (Pos.shiftl p (Z.to_N (53 - Z.pos (Pos.size p))))
         (Z.pos (Pos.size p) - 53) (- Z.of_N k))
  = Pos.shiftl p k.
Proof.
  intros Hp Hk. pose proof (size_le_53 p Hp) as Hsz.
  set (j := Z.to_N (53 - Z.pos (Pos.size p))).
  unfold shl_align.
  destruct (- Z.of_N k - (Z.pos (Pos.size p) - 53)) as [|d|d] eqn:Hd; cbn [fst].
  - f_equal. lia.
  - lia.
  - change (Pos.iter xO (Pos.shiftl p j) d) with (Pos.shiftl (Pos.shiftl p j) (N.pos d)).
    rewrite shiftl_shiftl. f_equal. lia.
Qed.

Lemma cond_Zopp_shiftl c k :
  c <> 0 ->
  cond_Zopp (c <? 0) (Z.pos (Pos.shiftl (Z.to_pos (Z.abs c)) k)) = c * 2 ^ Z.of_N k.
Proof.
  intros Hc. rewrite Zpos_shiftl, Z2Pos.id by lia.
  destruct (Z.ltb_spec c 0); cbn [cond_Zopp].
  - rewrite Z.abs_neq by lia. lia.
  - rewrite Z.abs_eq by lia. reflexivity.
Qed.

Lemma size_abs_le c : Z.abs c < 2 ^ 53 -> c <> 0 -> Z.pos (Pos.size (Z.to_pos (Z.abs c))) <= 53.
Proof. intros Hc Hne. apply size_le_53. rewrite Z2Pos.id; lia. Qed.

(** Additions and subtractions of integers below [2^53] are exact. *)
Lemma SFadd_normalized a b :
  Z.abs a < 2 ^ 53 -> Z.abs b < 2 ^ 53 -> Z.abs (a + b) < 2 ^ 53 ->
  SFadd prec emax (normalized a) (normalized b) = normalized (a + b).
Proof.
  intros Ha Hb Hab.
  destruct (Z.eq_dec a 0) as [->|Hane], (Z.eq_dec b 0) as [->|Hbne];
    try reflexivity.
  - rewrite normalized_0, Z.add_0_l, (normalized_canonical b) by assumption. reflexivity.
  - rewrite normalized_0, Z.add_0_r, (normalized_canonical a) by assumption. reflexivity.
  - pose proof (size_abs_le a Ha Hane). pose proof (size_abs_le b Hb Hbne).
    rewrite (normalized_canonical a), (normalized_canonical b) by assumption. unfold canonical. cbn [SFadd].
    set (ea := Z.pos (Pos.size (Z.to_pos (Z.abs a))) - 53) in *.
    set (eb := Z.pos (Pos.size (Z.to_pos (Z.abs b))) - 53) in *.
    assert (Hk : Z.min ea eb = - Z.of_N (Z.to_N (- Z.min ea eb))) by lia.
    rewrite Hk. unfold ea, eb.
    rewrite !shl_align_canon by (try (rewrite Z2Pos.id; lia); lia).
    rewrite !cond_Zopp_shiftl by assumption.
    rewrite <- Z.mul_add_distr_r. now apply normalize_shifted.
Qed.

Lemma SFsub_normalized a b :
  Z.abs a < 2 ^ 53 -> Z.abs b < 2 ^ 53 -> Z.abs (a - b) < 2 ^ 53 ->
  SFsub prec emax (normalized a) (normalized b) = normalized (a - b).
Proof.
  intros Ha Hb Hab.
  destruct (Z.eq_dec a 0) as [->|Hane], (Z.eq_dec b 0) as [->|Hbne];
    try reflexivity.
  - rewrite normalized_0, Z.sub_0_l, (normalized_canonical b), (normalized_canonical (- b)) by lia.
    unfold canonical. cbn [SFsub]. rewrite Z.abs_opp. f_equal.
    destruct (Z.ltb_spec b 0), (Z.ltb_spec (- b) 0); try reflexivity; lia.
  - rewrite normalized_0, Z.sub_0_r, (normalized_canonical a) by assumption. reflexivity.
  - pose proof (size_abs_le a Ha Hane). pose proof (size_abs_le b Hb Hbne).
    rewrite (normalized_canonical a), (normalized_canonical b) by assumption. unfold canonical. cbn [SFsub].
    set (ea := Z.pos (Pos.size (Z.to_pos (Z.abs a))) - 53) in *.
    set (eb := Z.pos (Pos.size (Z.to_pos (Z.abs b))) - 53) in *.
    assert (Hk : Z.min ea eb = - Z.of_N (Z.to_N (- Z.min ea eb))) by lia.
    rewrite Hk. unfold ea, eb.
    rewrite !shl_align_canon by (try (rewrite Z2Pos.id; lia); lia).
    rewrite !cond_Zopp_shiftl by assumption.
    rewrite <- Z.mul_sub_distr_r. now apply normalize_shifted.
Qed.

Lemma size_lt_lt p q : Z.pos (Pos.size p) < Z.pos (Pos.size q) -> Z.pos p < Z.pos q.
Proof.
  intros H. pose proof (size_bounds p) as [_ Hp]. pose proof (size_bounds q) as [Hq _].
  assert (2 ^ Z.pos (Pos.size p) <= 2 ^ (Z.pos (Pos.size q) - 1))
    by (apply Z.pow_le_mono_r; lia).
  lia.
Qed.

Lemma compare_canon p q :
  Z.pos p < 2 ^ 53 -> Z.pos q < 2 ^ 53 ->
  match Z.pos (Pos.size p) - 53 ?= Z.pos (Pos.size q) - 53 with
  | Lt => Lt
  | Gt => Gt
  | Eq => Pos.compare_cont Eq (Pos.shiftl p (Z.to_N (53 - Z.pos (Pos.size p))))
            (Pos.shiftl q (Z.to_N (53 - Z.pos (Pos.size q))))
  end = (Z.pos p ?= Z.pos q).
Proof.
  intros Hp Hq.
  destruct (Z.compare_spec (Z.pos (Pos.size p) - 53) (Z.pos (Pos.size q) - 53)) as [He|He|He].
  - assert (Hs : Z.pos (Pos.size p) = Z.pos (Pos.size q)) by lia. rewrite Hs.
    change (Pos.compare_cont Eq ?x ?y) with (Z.pos x ?= Z.pos y).
    rewrite !Zpos_shiftl. symmetry. apply Zmult_compare_compat_r.
    apply Z.lt_gt. apply Z.pow_pos_nonneg; lia.
  - symmetry. apply Z.compare_lt_iff. apply size_lt_lt. lia.
  - symmetry. apply Z.compare_gt_iff. apply size_lt_lt. lia.
Qed.

Lemma SFcompare_normalized a b :
  Z.abs a < 2 ^ 53 -> Z.abs b < 2 ^ 53 -> SFcompare (normalized a) (normalized b) = Some (a ?= b).
Proof.
  intros Ha Hb.
  destruct (Z.eq_dec a 0) as [->|Hane], (Z.eq_dec b 0) as [->|Hbne];
    try reflexivity.
  - rewrite normalized_0, (normalized_canonical b) by assumption. unfold canonical. cbn [SFcompare].
    f_equal. destruct b; [lia|reflexivity|reflexivity].
  - rewrite normalized_0, (normalized_canonical a) by assumption. unfold canonical. cbn [SFcompare].
    f_equal. destruct a; [lia|reflexivity|reflexivity].
  - rewrite (normalized_canonical a), (normalized_canonical b) by assumption. unfold canonical. cbn [SFcompare].
    f_equal.
    destruct a as [|p|p], b as [|q|q]; try lia; cbn [Z.ltb Z.compare Z.abs Z.to_pos];
      try reflexivity.
    + now apply compare_canon.
    + change (Z.to_pos (Z.abs (Z.neg p))) with p.
      change (Z.to_pos (Z.abs (Z.neg q))) with q.
      change (p ?= q)%positive with (Z.pos p ?= Z.pos q).
      rewrite <- (compare_canon p q) by lia.
      now destruct (Z.pos (Pos.size p) - 53 ?= Z.pos (Pos.size q) - 53).
Qed.

Lemma valid_normalized c : Z.abs c < 2 ^ 53 -> valid_binary (normalized c) = true.
Proof.
  intros Hc. destruct (Z.eq_dec c 0) as [->|Hne]; [reflexivity|].
  pose proof (size_abs_le c Hc Hne).
  rewrite normalized_canonical by assumption. unfold canonical, valid_binary, bounded, canonical_mantissa.
  rewrite digits2_size, size_shiftl. unfold fexp, SpecFloat.emin, prec, emax.
  apply andb_true_intro. split; [apply Z.eqb_eq|apply Z.leb_le]; lia.
Qed.

Lemma Prim2SF_binary64_of c : Z.abs c < 2 ^ 53 -> Prim2SF (binary64_of c) = normalized c.
Proof. intros Hc. apply Prim2SF_SF2Prim. now apply valid_normalized. Qed.

Lemma add_binary64_of a b :
  Z.abs a < 2 ^ 53 -> Z.abs b < 2 ^ 53 -> Z.abs (a + b) < 2 ^ 53 ->
  PrimFloat.add (binary64_of a) (binary64_of b) = binary64_of (a + b).
Proof.
  intros Ha Hb Hab. rewrite <- (SF2Prim_Prim2SF (PrimFloat.add _ _)).
  rewrite add_spec, !Prim2SF_binary64_of by assumption. unfold SF64add.
  now rewrite SFadd_normalized.
Qed.

Lemma sub_binary64_of a b :
  Z.abs a < 2 ^ 53 -> Z.abs b < 2 ^ 53 -> Z.abs (a - b) < 2 ^ 53 ->
  PrimFloat.sub (binary64_of a) (binary64_of b) = binary64_of (a - b).
Proof.
  intros Ha Hb Hab. rewrite <- (SF2Prim_Prim2SF (PrimFloat.sub _ _)).
  rewrite sub_spec, !Prim2SF_binary64_of by assumption. unfold SF64sub.
  now rewrite SFsub_normalized.
Qed.

Lemma ltb_binary64_of a b :
  Z.abs a < 2 ^ 53 -> Z.abs b < 2 ^ 53 -> PrimFloat.ltb (binary64_of a) (binary64_of b) = (a <? b).
Proof.
  intros Ha Hb. rewrite ltb_spec, !Prim2SF_binary64_of by assumption.
  unfold SFltb. rewrite SFcompare_normalized by assumption. unfold Z.ltb.
  now destruct (a ?= b).
Qed.


(** ** The sweeps, one timestamp at a time *)






Section RunsFacts.
Context {A V : Type}.
Variable step : SignalChange -> A -> option A.
Variable eval : A -> V.
Variable keep : V -> V -> V.

End RunsFacts.





Section ScalarRunsFacts.
Context {double : Type} {arith : Arithmetic double}.



End ScalarRunsFacts.



(** ** The scalar sweep in binary64 when no sum rounds *)

Lemma magnitude_cons b c l :
  magnitude b (c :: l) = Z.abs (at_ (signal c) b) + magnitude b l.
Proof. reflexivity. Qed.

Lemma magnitude_nonneg b l : 0 <= magnitude b l.
Proof.
  induction l as [|c l IH]; [unfold magnitude, sumZ; cbn [map fold_right]; lia|].
  rewrite magnitude_cons. lia.
Qed.

Lemma magnitude_perm b l l' : Permutation l l' -> magnitude b l = magnitude b l'.
Proof. apply sumZ_map_perm. Qed.

Lemma applyChangeAt_bound b c a :
  Z.abs (applyChangeAt b c a) <= Z.abs a + Z.abs (at_ (signal c) b).
Proof. unfold applyChangeAt. exact_sums. destruct (type c); lia. Qed.

Lemma applyChangeAt_binary64 b c a :
  Z.abs a + Z.abs (at_ (signal c) b) < 2 ^ 53 ->
  applyChangeAt (arith := binary64) b c (binary64_of a)
  = binary64_of (applyChangeAt b c a).
Proof.
  intros H. unfold applyChangeAt.
  cbn [double_add double_sub double_of binary64 exactArithmetic].
  destruct (type c);
    first [reflexivity|apply add_binary64_of; lia|apply sub_binary64_of; lia].
Qed.

Lemma interferenceAtBeginningAt_binary64 b start l : forall a,
  Z.abs a + magnitude b l < 2 ^ 53 ->
  exists i rest,
    interferenceAtBeginningAt b start l a = (i, rest)
    /\ interferenceAtBeginningAt (arith := binary64) b start l (binary64_of a)
       = (binary64_of i, rest)
    /\ Z.abs i + magnitude b rest <= Z.abs a + magnitude b l.
Proof.
  induction l as [|it rest IH]; intros a Ha.
  - exists a, []. split; [reflexivity|]. split; [reflexivity|lia].
  - cbn [interferenceAtBeginningAt]. destruct (time it >? start).
    + exists a, (it :: rest). split; [reflexivity|]. split; [reflexivity|lia].
    + rewrite magnitude_cons in Ha. pose proof (magnitude_nonneg b rest).
      cbn [double_add double_of binary64 exactArithmetic].
      rewrite add_binary64_of by lia.
      destruct (IH (a + at_ (signal it) b)) as (i & r & H1 & H2 & H3); [lia|].
      exists i, r. rewrite magnitude_cons. split; [exact H1|]. split; [exact H2|lia].
Qed.

Lemma chunksMinAt_binary64 b l : forall a m bound,
  bound < 2 ^ 53 -> Z.abs a + magnitude b l <= bound -> Z.abs m <= bound ->
  chunksMinAt (arith := binary64) b l (binary64_of a) (binary64_of m)
  = binary64_of (chunksMinAt b l a m)
  /\ Z.abs (chunksMinAt b l a m) <= bound.
Proof.
  induction l as [|it rest IH]; intros a m B HB Ha Hm; [split; [reflexivity|exact Hm]|].
  rewrite magnitude_cons in Ha. pose proof (magnitude_nonneg b rest).
  pose proof (applyChangeAt_bound b it a) as Ha'.
  cbn [chunksMinAt]. rewrite applyChangeAt_binary64 by lia.
  set (a' := applyChangeAt b it a) in *.
  destruct (atBoundary it rest); [|apply IH; lia].
  cbn [double_lt binary64 exactArithmetic].
  rewrite ltb_binary64_of by lia.
  destruct (a' <? m); apply IH; lia.
Qed.

(** With samples that are integers whose magnitudes add up to less than
    [2^53] every sum of the sweep is an integer that binary64 holds, and the
    sweep computes in binary64 what it computes in exact arithmetic. *)
Lemma sweepMinAt_binary64 b start l :
  magnitude b l < 2 ^ 53 ->
  sweepMinAt (arith := binary64) b start l = binary64_of (sweepMinAt b start l)
  /\ Z.abs (sweepMinAt b start l) < 2 ^ 53.
Proof.
  intros Hl. unfold sweepMinAt.
  change (double_zero (Arithmetic := binary64)) with (binary64_of 0).
  change (double_zero (Arithmetic := exactArithmetic)) with 0.
  destruct (interferenceAtBeginningAt_binary64 b start l 0) as (i & rest & H1 & H2 & H3);
    [lia|].
  rewrite H1, H2. pose proof (magnitude_nonneg b rest).
  destruct (chunksMinAt_binary64 b rest i i (magnitude b l)) as [Heq Hle]; try lia.
  split; [exact Heq|lia].
Qed.




(** ** The maximum interference *)

Lemma at_setAt m i v j :
  at_ (setAt m i v) j
  = if (i =? j)%nat && (i <? length (values m))%nat then v else at_ m j.
Proof.
  unfold at_, setAt, setValues. cbn [values]. rewrite !nth_lookup.
  destruct (Nat.eqb_spec i j) as [->|Hne]; cbn [andb].
  - destruct (Nat.ltb_spec j (length (values m))).
    + now rewrite list_lookup_insert_eq.
    + now rewrite list_insert_ge.
  - now rewrite list_lookup_insert_ne.
Qed.

Lemma fits_setAt sp m i v : fits sp m -> fits sp (setAt m i v).
Proof.
  intros [H1 H2]. split; simpl; [exact H1|]. now rewrite length_insert.
Qed.

Lemma updateMaximum_spec sp cur n idx m :
  fits sp m -> (n <> 0 -> idx + n <= getNumFreqs sp)%nat ->
  fits sp (updateMaximum cur idx n m)
  /\ forall b, at_ (updateMaximum cur idx n m) b
               = if (idx <=? b)%nat && (b <? idx + n)%nat
                 then Z.max (at_ cur b) (at_ m b) else at_ m b.
Proof.
  revert idx m. induction n as [|n IH]; intros idx m Hfit Hle.
  - cbn [updateMaximum]. split; [exact Hfit|]. intros b.
    destruct (Nat.leb_spec idx b), (Nat.ltb_spec b (idx + 0)); cbn [andb];
      try reflexivity; lia.
  - cbn [updateMaximum].
    specialize (Hle ltac:(discriminate)).
    destruct (IH (S idx) (setAt m idx (Z.max (at_ cur idx) (at_ m idx)))) as [Hf Hat].
    + now apply fits_setAt.
    + lia.
    + split; [exact Hf|]. intros b. rewrite Hat, !at_setAt.
      destruct Hfit as [_ Hlen]. rewrite Hlen. unfold getNumFreqs in *.
      destruct (Nat.ltb_spec idx (length sp)); [|lia].
      destruct (Nat.eqb_spec idx b) as [->|Hne]; cbn [andb].
      * destruct (Nat.leb_spec (S b) b); [lia|].
        destruct (Nat.leb_spec b b); [|lia].
        destruct (Nat.ltb_spec b (b + S n)); [|lia].
        reflexivity.
      * destruct (Nat.leb_spec (S idx) b), (Nat.leb_spec idx b),
          (Nat.ltb_spec b (idx + S n)), (Nat.ltb_spec b (S idx + n));
          cbn [andb]; try reflexivity; lia.
Qed.

Lemma push_perm s q : Permutation (push s q) (s :: q).
Proof.
  induction q as [|t q IH]; simpl; [reflexivity|].
  destruct (greaterByReceptionEnd s t); [|reflexivity].
  rewrite IH. apply perm_swap.
Qed.

Lemma push_sorted s q : sortedByReceptionEnd q -> sortedByReceptionEnd (push s q).
Proof.
  unfold sortedByReceptionEnd. induction q as [|t q IH]; intros Hs; simpl.
  - repeat constructor.
  - inversion Hs as [|? ? Hq Ht]; subst. unfold greaterByReceptionEnd.
    destruct (Z.gtb_spec (getReceptionEnd s) (getReceptionEnd t)).
    + constructor; [now apply IH|].
      eapply Permutation_Forall; [symmetry; apply push_perm|].
      constructor; [lia|exact Ht].
    + constructor; [exact Hs|]. constructor; [lia|].
      eapply List.Forall_impl; [|exact Ht]. simpl. intros; lia.
Qed.

Lemma sumAt_perm b q q' : Permutation q q' -> sumAt b q = sumAt b q'.
Proof. intros H. unfold sumAt. now apply sumZ_map_perm. Qed.

Lemma sumAt_split (P : Signal -> bool) b q :
  sumAt b q = sumAt b (List.filter P q) + sumAt b (List.filter (fun s => negb (P s)) q).
Proof.
  unfold sumAt, sumZ. induction q as [|s q IH]; [reflexivity|].
  cbn [List.filter map fold_right]. rewrite IH.
  destruct (P s); cbn [negb map fold_right]; lia.
Qed.

(** The loop that removes the ended signals stops at the first signal that ends
    after the current time: on a queue in order these are all that end after
    it, and the current interference has lost the others. *)
Lemma removeEnded_spec sp ct q cur :
  sortedByReceptionEnd q -> Forall (fits sp) q -> fits sp cur ->
  Exists (fun s => ct < getReceptionEnd s) q ->
  exists cur',
    removeEnded ct q cur = Some (List.filter (endsAfter ct) q, cur')
    /\ fits sp cur'
    /\ forall b, at_ cur' b
                 = at_ cur b - sumAt b (List.filter (fun s => negb (endsAfter ct s)) q).
Proof.
  revert cur. induction q as [|top rest IH]; intros cur Hs Hfit Hcur Hex.
  - inversion Hex.
  - cbn [removeEnded List.filter].
    assert (Hrel : (getReceptionEnd top <=? ct) = negb (endsAfter ct top)).
    { unfold endsAfter.
      destruct (Z.leb_spec (getReceptionEnd top) ct), (Z.ltb_spec ct (getReceptionEnd top));
        try reflexivity; lia. }
    rewrite Hrel.
    inversion Hs as [|? ? Hrest Htop]; subst. inversion Hfit as [|? ? Hft Hfr]; subst.
    destruct (endsAfter ct top) eqn:He; cbn [negb]; unfold endsAfter in He.
    + apply Z.ltb_lt in He.
      assert (Hall : Forall (fun s => ct < getReceptionEnd s) rest).
      { eapply List.Forall_impl; [|exact Htop]. simpl. intros; lia. }
      assert (Hkeep : List.filter (endsAfter ct) rest = rest
                      /\ List.filter (fun s => negb (endsAfter ct s)) rest = []).
      { clear -Hall. induction Hall as [|s l Hs _ [IH1 IH2]]; [split; reflexivity|].
        cbn [List.filter]. apply Z.ltb_lt in Hs. fold (endsAfter ct s) in Hs.
        rewrite Hs. cbn [negb]. rewrite IH1, IH2. split; reflexivity. }
      destruct Hkeep as [Hk1 Hk2]. rewrite Hk1, Hk2.
      exists cur. split; [reflexivity|]. split; [exact Hcur|].
      intros b. unfold sumAt. simpl. lia.
    + apply Z.ltb_ge in He.
      destruct (minusAssign_fits sp cur top Hcur Hft) as (cur1 & Hm & Hf1 & Hat1).
      rewrite Hm.
      destruct (IH cur1 Hrest Hfr Hf1) as (cur' & Hrun & Hf' & Hat').
      { inversion Hex as [? ? Hh|? ? Ht]; subst; [lia|exact Ht]. }
      exists cur'. split; [exact Hrun|]. split; [exact Hf'|].
      intros b. rewrite Hat', Hat1. unfold sumAt, sumZ. cbn [map fold_right]. lia.
Qed.

Lemma sumZ_le {A} (g h : A -> Z) l :
  (forall x, In x l -> g x <= h x) -> sumZ (map g l) <= sumZ (map h l).
Proof.
  unfold sumZ. induction l as [|x l IH]; intros H; simpl; [lia|].
  pose proof (H x (or_introl eq_refl)).
  assert (fold_right Z.add 0 (map g l) <= fold_right Z.add 0 (map h l))
    by (apply IH; intros y Hy; apply H; now right).
  lia.
Qed.

Lemma sumAt_filter (P : Signal -> bool) b l :
  sumAt b (List.filter P l) = sumZ (map (fun s => if P s then at_ s b else 0) l).
Proof.
  unfold sumAt, sumZ. induction l as [|s l IH]; [reflexivity|].
  cbn [List.filter map fold_right]. rewrite <- IH.
  destruct (P s); cbn [map fold_right]; lia.
Qed.

Lemma activeSum_app l l' t b : activeSum (l ++ l') t b = activeSum l t b + activeSum l' t b.
Proof. unfold activeSum. now rewrite map_app, sumZ_app. Qed.

Lemma activeSum_one s t b :
  activeSum [s] t b = if activeAtb t s then at_ s b else 0.
Proof. unfold activeSum, sumZ. simpl. lia. Qed.

Lemma activeAtb_spec t s : activeAtb t s = true <-> activeAt t s.
Proof.
  unfold activeAtb, activeAt. rewrite andb_true_iff, Z.leb_le, Z.ltb_lt. reflexivity.
Qed.

(** The maximum after one more signal: [d] is what the signal adds at the
    bin, [c] the current interference once it is added. *)
Lemma isMaxOver_step start end_ (g : Z -> Z) (active : Z -> bool) a v c :
  isMaxOver start end_ g v -> 0 <= a ->
  (forall t, start <= t <= end_ -> active t = true ->
             g t + a <= c) ->
  (exists t, start <= t <= end_ /\ c <= g t + (if active t then a else 0)) ->
  isMaxOver start end_ (fun t => g t + (if active t then a else 0)) (Z.max c v).
Proof.
  intros [[t0 [Ht0 Hg0]] Hup] Ha HA [t1 [Ht1 HB]].
  assert (Hup' : forall t, start <= t <= end_ ->
                           g t + (if active t then a else 0) <= Z.max c v).
  { intros t Ht. destruct (active t) eqn:Hact.
    - specialize (HA t Ht Hact). lia.
    - specialize (Hup t Ht). lia. }
  split; [|exact Hup'].
  destruct (Z_le_gt_dec v c) as [Hvc|Hvc].
  - exists t1. split; [exact Ht1|]. specialize (Hup' t1 Ht1). lia.
  - exists t0. split; [exact Ht0|]. specialize (Hup' t0 Ht0).
    destruct (active t0); lia.
Qed.

Lemma isMaxOver_ext start end_ (g g' : Z -> Z) v :
  (forall t, start <= t <= end_ -> g t = g' t) ->
  isMaxOver start end_ g v -> isMaxOver start end_ g' v.
Proof.
  intros Hext [[t0 [Ht0 Hg0]] Hup]. split.
  - exists t0. split; [exact Ht0|]. now rewrite <- Hext.
  - intros t Ht. rewrite <- Hext by exact Ht. now apply Hup.
Qed.

Lemma filter_sorted_end P q : sortedByReceptionEnd q -> sortedByReceptionEnd (List.filter P q).
Proof.
  unfold sortedByReceptionEnd. induction 1 as [|c l Hl IH Hc]; simpl; [constructor|].
  destruct (P c); [|exact IH].
  constructor; [exact IH|].
  apply List.Forall_forall. intros d Hd. apply List.filter_In in Hd as [Hd _].
  rewrite List.Forall_forall in Hc. now apply Hc.
Qed.

Lemma filter_endsAfter_later ct ct' l :
  ct <= ct' ->
  List.filter (endsAfter ct') (List.filter (endsAfter ct) l) = List.filter (endsAfter ct') l.
Proof.
  intros Hle. induction l as [|s l IH]; [reflexivity|].
  cbn [List.filter].
  destruct (endsAfter ct s) eqn:H1, (endsAfter ct' s) eqn:H2;
    cbn [List.filter]; rewrite ?H2, IH; try reflexivity.
  unfold endsAfter in *. apply Z.ltb_ge in H1. apply Z.ltb_lt in H2. lia.
Qed.

(** One iteration of the loop of [getMaxInterference] for a signal that is
    added. *)
Lemma sweep_step start end_ sp swept st s :
  start <= end_ ->
  sweepInvariant start end_ sp swept st ->
  wellFormed sp s ->
  currentTime st <= getReceptionStart s ->
  start < getReceptionEnd s -> getReceptionStart s < end_ ->
  exists q' cur' cur'',
    removeEnded (getReceptionStart s) (push s (signalEndings st)) (currentInterference st)
    = Some (q', cur')
    /\ plusAssign cur' s = Some cur''
    /\ sweepInvariant start end_ sp (swept ++ [s])
         (mkSweepState
            (updateMaximum cur'' (getDataStart s) (getDataEnd s - getDataStart s)
               (maxInterference st))
            cur'' q' (getReceptionStart s)).
Proof.
  intros Hwin [Hmf Hcf Hqs Hq Hcur Hsw Hmax] Hwf Hct Hs1 Hs2.
  set (ct' := getReceptionStart s).
  set (q1 := push s (signalEndings st)).
  assert (Hq1 : Permutation q1 (s :: signalEndings st)) by apply push_perm.
  assert (Hfits_swept : Forall (fits sp) swept).
  { eapply List.Forall_impl; [|exact Hsw]. simpl. intros x [Hx _]. apply Hx. }
  assert (Hfits_q : Forall (fits sp) (signalEndings st)).
  { eapply Permutation_Forall; [symmetry; exact Hq|].
    apply List.Forall_forall. intros x Hx. apply List.filter_In in Hx as [Hx _].
    rewrite List.Forall_forall in Hfits_swept. now apply Hfits_swept. }
  destruct (removeEnded_spec sp ct' q1 (currentInterference st))
    as (cur' & Hrun & Hf' & Hat').
  { now apply push_sorted. }
  { eapply Permutation_Forall; [symmetry; exact Hq1|].
    constructor; [apply Hwf|exact Hfits_q]. }
  { exact Hcf. }
  { apply List.Exists_exists. exists s. split.
    - eapply Permutation_in; [symmetry; exact Hq1|]. now left.
    - destruct Hwf. unfold ct'. lia. }
  destruct (plusAssign_fits sp cur' s Hf' (wf_fits sp s Hwf)) as (cur'' & Hplus & Hf'' & Hat'').
  exists (List.filter (endsAfter ct') q1), cur', cur''.
  split; [exact Hrun|]. split; [exact Hplus|].
  assert (Hends : endsAfter ct' s = true).
  { unfold endsAfter, ct'. apply Z.ltb_lt. destruct Hwf. lia. }
  assert (Hq' : Permutation (List.filter (endsAfter ct') q1)
                  (List.filter (endsAfter ct') (swept ++ [s]))).
  { rewrite (filter_perm (endsAfter ct') _ _ Hq1).
    rewrite List.filter_app. cbn [List.filter]. rewrite Hends.
    rewrite <- Permutation_cons_append. constructor.
    rewrite (filter_perm (endsAfter ct') _ _ Hq).
    now rewrite filter_endsAfter_later. }
  assert (Hcur'' : forall b, at_ cur'' b = sumAt b (List.filter (endsAfter ct') q1)).
  { intros b. rewrite Hat'', Hat', Hcur.
    pose proof (sumAt_split (endsAfter ct') b q1) as Hsplit.
    rewrite (sumAt_perm b _ _ Hq1) in Hsplit.
    assert (Hcons : sumAt b (s :: signalEndings st) = at_ s b + sumAt b (signalEndings st))
      by reflexivity.
    rewrite Hcons in Hsplit. clear Hcons.
    generalize dependent (sumAt b (List.filter (fun x => negb (endsAfter ct' x)) q1)).
    generalize (sumAt b (List.filter (endsAfter ct') q1)).
    generalize (sumAt b (signalEndings st)). intros; lia. }
  assert (Hsw' : Forall (fun x => wellFormed sp x /\ getReceptionStart x <= ct'
                                  /\ start < getReceptionEnd x
                                  /\ getReceptionStart x < end_) (swept ++ [s])).
  { apply Forall_app. split.
    - eapply List.Forall_impl; [|exact Hsw]. simpl. intros x (H1 & H2 & H3 & H4).
      split; [exact H1|]. split; [lia|]. split; assumption.
    - constructor; [|constructor].
      split; [exact Hwf|]. split; [unfold ct'; lia|]. split; assumption. }
  destruct (updateMaximum_spec sp cur'' (getDataEnd s - getDataStart s) (getDataStart s)
              (maxInterference st) Hmf) as [Hmf' Hmat].
  { pose proof (wf_range sp s Hwf). lia. }
  constructor; cbn [maxInterference currentInterference signalEndings currentTime];
    try assumption.
  - apply filter_sorted_end. now apply push_sorted.
  - intros b. rewrite Hmat.
    assert (Hc : at_ cur'' b
                 = sumZ (map (fun x => if endsAfter ct' x then at_ x b else 0) (swept ++ [s]))).
    { rewrite Hcur'', (sumAt_perm b _ _ Hq'). apply sumAt_filter. }
    assert (Hnonneg : forall x, In x (swept ++ [s]) -> 0 <= at_ x b).
    { intros x Hx. rewrite List.Forall_forall in Hsw'. apply (wf_power sp x). now apply Hsw'. }
    apply (isMaxOver_ext start end_
             (fun t => activeSum swept t b + (if activeAtb t s then at_ s b else 0))).
    { intros t _. now rewrite activeSum_app, activeSum_one. }
    destruct ((getDataStart s <=? b)%nat && (b <? getDataStart s + (getDataEnd s - getDataStart s))%nat)
      eqn:Hin.
    + apply isMaxOver_step.
      * apply Hmax.
      * apply (wf_power sp s Hwf).
      * intros t Ht Hact. rewrite Hc.
        replace (activeSum swept t b + at_ s b) with (activeSum (swept ++ [s]) t b)
          by (rewrite activeSum_app, activeSum_one, Hact; reflexivity).
        unfold activeSum. apply sumZ_le. intros x Hx.
        pose proof (Hnonneg x Hx).
        destruct (activeAtb t x) eqn:Hax.
        -- apply activeAtb_spec in Hax. apply activeAtb_spec in Hact.
           unfold activeAt in *. fold ct' in Hact.
           unfold endsAfter. destruct (Z.ltb_spec ct' (getReceptionEnd x)); lia.
        -- destruct (endsAfter ct' x); lia.
      * exists (Z.max ct' start). split; [unfold ct'; lia|].
        rewrite Hc.
        replace (activeSum swept (Z.max ct' start) b
                 + (if activeAtb (Z.max ct' start) s then at_ s b else 0))
          with (activeSum (swept ++ [s]) (Z.max ct' start) b)
          by (rewrite activeSum_app, activeSum_one; reflexivity).
        unfold activeSum. apply sumZ_le. intros x Hx.
        pose proof (Hnonneg x Hx).
        rewrite List.Forall_forall in Hsw'. destruct (Hsw' x Hx) as (_ & Hx1 & Hx2 & _).
        unfold endsAfter, activeAtb.
        destruct (Z.ltb_spec ct' (getReceptionEnd x));
          destruct (Z.leb_spec (getReceptionStart x) (Z.max ct' start));
          destruct (Z.ltb_spec (Z.max ct' start) (getReceptionEnd x));
          cbn [andb]; lia.
    + assert (Hzero : at_ s b = 0).
      { apply (wf_outside sp s Hwf).
        destruct (Nat.leb_spec (getDataStart s) b),
          (Nat.ltb_spec b (getDataStart s + (getDataEnd s - getDataStart s)));
          cbn [andb] in Hin; try discriminate; lia. }
      apply (isMaxOver_ext start end_ (fun t => activeSum swept t b)); [|apply Hmax].
      intros t _. rewrite Hzero. destruct (activeAtb t s); lia.
Qed.

Lemma sweptSignals_cons start end_ ref e rest :
  sweptSignals start end_ ref (e :: rest)
  = if isSwept start end_ ref e
    then getSignal (snd e) :: sweptSignals start end_ ref rest
    else sweptSignals start end_ ref rest.
Proof.
  unfold sweptSignals, signalsIn. cbn [List.filter].
  destruct (isSwept start end_ ref e); reflexivity.
Qed.

Lemma sweptSignals_past_end start end_ ref frames :
  Forall (fun e => end_ <= getReceptionStart (getSignal (snd e))) frames ->
  sweptSignals start end_ ref frames = [].
Proof.
  induction 1 as [|e rest He _ IH]; [reflexivity|].
  rewrite sweptSignals_cons, IH. unfold isSwept.
  destruct (Z.ltb_spec (getReceptionStart (getSignal (snd e))) end_); [lia|].
  now rewrite andb_false_r.
Qed.

Lemma sweepInvariant_start start end_ sp :
  start <= end_ ->
  sweepInvariant start end_ sp [] (mkSweepState (newSignal sp) (newSignal sp) [] 0).
Proof.
  intros Hwin. constructor; cbn [maxInterference currentInterference signalEndings currentTime].
  - apply newSignal_fits.
  - apply newSignal_fits.
  - constructor.
  - reflexivity.
  - intros b. apply at_newSignal.
  - constructor.
  - intros b. rewrite at_newSignal. split.
    + exists start. split; [lia|reflexivity].
    + intros t _. unfold activeSum, sumZ. simpl. lia.
Qed.

(** The loop of [getMaxInterference] from any of its states on: it returns, and
    what it returns is at every bin the maximum over the window of the sum of
    the signals it has added and will add. *)
Lemma getMaxInterference_loop_spec start end_ ref sp frames :
  start <= end_ ->
  forall st swept,
    sweepInvariant start end_ sp swept st ->
    sortedByReceptionStart frames ->
    Forall (fun e => wellFormed sp (getSignal (snd e))
                     /\ currentTime st <= getReceptionStart (getSignal (snd e))) frames ->
    exists result,
      getMaxInterference_loop start end_ ref sp frames st = Some result
      /\ fits sp result
      /\ forall b, isMaxOver start end_
                     (fun t => activeSum (swept ++ sweptSignals start end_ ref frames) t b)
                     (at_ result b).
Proof.
  intros Hwin. induction frames as [|[p f] rest IH]; intros st swept Hinv Hsorted Hall.
  - exists (maxInterference st). split; [reflexivity|].
    split; [apply Hinv|]. intros b.
    unfold sweptSignals, signalsIn. cbn [List.filter map]. rewrite app_nil_r. apply Hinv.
  - inversion Hsorted as [|? ? Hsrest Hhead]; subst.
    inversion Hall as [|? ? [Hwf Hct] Hallrest]; subst. cbn [snd] in Hwf, Hct.
    cbn [getMaxInterference_loop]. rewrite sweptSignals_cons.
    unfold isSwept, isOtherTransmission. cbn [snd].
    set (s := getSignal f) in *.
    destruct (getTreeId f =? getTreeId ref); cbn [negb andb].
    { now apply IH. }
    destruct (Z.leb_spec (getReceptionEnd s) start) as [Hend|Hend]; cbn [orb].
    { destruct (Z.ltb_spec start (getReceptionEnd s)); [lia|]. cbn [andb]. now apply IH. }
    destruct (Z.gtb_spec (getReceptionStart s) end_) as [Hst|Hst].
    { destruct (Z.ltb_spec (getReceptionStart s) end_); [lia|].
      rewrite andb_false_r. now apply IH. }
    destruct (Z.gtb_spec (getReceptionEnd s) start); [|lia].
    destruct (Z.leb_spec (getReceptionStart s) end_); [|lia].
    destruct (Z.geb_spec (getReceptionStart s) (currentTime st)); [|lia].
    rewrite (proj2 (Spectrum_eqb_eq (getSpectrum s) sp)) by apply Hwf.
    cbn [negb].
    destruct (Z.ltb_spec start (getReceptionEnd s)); [|lia]. cbn [andb].
    destruct (Z.geb_spec (getReceptionStart s) end_) as [Hbreak|Hgo].
    + (* the signal starts when the window ends: the loop is left *)
      destruct (Z.ltb_spec (getReceptionStart s) end_); [lia|].
      exists (maxInterference st). split; [reflexivity|]. split; [apply Hinv|].
      intros b. rewrite sweptSignals_past_end.
      * rewrite app_nil_r. apply Hinv.
      * eapply List.Forall_impl; [|exact Hhead]. cbn [snd]. intros e He. fold s in He. lia.
    + destruct (Z.ltb_spec (getReceptionStart s) end_); [|lia].
      destruct (sweep_step start end_ sp swept st s Hwin Hinv Hwf)
        as (q' & cur' & cur'' & Hrun & Hplus & Hinv'); try lia.
      rewrite Hrun, Hplus.
      destruct (IH _ (swept ++ [s]) Hinv' Hsrest) as (result & Hres & Hfit & Hmax).
      * cbn [currentTime].
        rewrite List.Forall_forall in Hallrest, Hhead. apply List.Forall_forall.
        intros e He. split; [now apply Hallrest|]. specialize (Hhead e He).
        cbn [snd] in Hhead. fold s in Hhead. exact Hhead.
      * exists result. split; [exact Hres|]. split; [exact Hfit|].
        intros b. rewrite <- app_assoc in Hmax. apply Hmax.
Qed.

Lemma interferenceStartedBefore_swept start end_ ref frames t b :
  start <= t ->
  interferenceStartedBefore end_ ref frames t b
  = activeSum (sweptSignals start end_ ref frames) t b.
Proof.
  intros Ht. unfold interferenceStartedBefore, activeSum, sumZ.
  induction frames as [|e rest IH]; [reflexivity|].
  rewrite sweptSignals_cons. cbn [map fold_right]. rewrite IH.
  unfold isSwept, activeAtb.
  destruct (isOtherTransmission ref e); cbn [andb]; [|reflexivity].
  destruct (Z.ltb_spec (getReceptionStart (getSignal (snd e))) end_);
    destruct (Z.ltb_spec start (getReceptionEnd (getSignal (snd e))));
    destruct (Z.leb_spec (getReceptionStart (getSignal (snd e))) t);
    destruct (Z.ltb_spec t (getReceptionEnd (getSignal (snd e))));
    cbn [andb map fold_right]; unfold activeAtb;
    repeat match goal with
           | |- context [?a <=? ?b] => destruct (Z.leb_spec a b)
           | |- context [?a <? ?b] => destruct (Z.ltb_spec a b)
           end; cbn [andb]; lia.
Qed.

(** C1 (as the code has it).  For a window with [start <= end] and interferers
    in ascending order of reception start that meet the data model
    ([wellFormed]: the spectrum of the reference frame, powers that are not
    negative and are zero outside the populated range, a reception interval
    of positive length that starts at or after time 0), [getMaxInterference]
    returns a signal over the spectrum of the reference frame whose value at
    each bin is the maximum, over the instants [t] of [[start, end]], of the sum
    of the powers at that bin of the interferers of another tree id whose
    reception starts before [end] and whose reception interval contains [t]. *)
Theorem getMaxInterference_maximum :
  forall (start end_ : simtime_t) (referenceFrame : AirFrame)
         (interfererFrames : AirFrameVector),
    start <= end_ ->
    sortedByReceptionStart interfererFrames ->
    (forall entry, In entry interfererFrames ->
       wellFormed (getSpectrum (getSignal referenceFrame)) (getSignal (snd entry))) ->
    exists result,
      getMaxInterference start end_ referenceFrame interfererFrames = Some result
      /\ getSpectrum result = getSpectrum (getSignal referenceFrame)
      /\ forall b, isMaxOver start end_
                     (fun t => interferenceStartedBefore end_ referenceFrame interfererFrames t b)
                     (at_ result b).
Proof.
  intros start end_ ref frames Hwin Hsorted Hwf.
  unfold getMaxInterference.
  destruct (getMaxInterference_loop_spec start end_ ref (getSpectrum (getSignal ref)) frames
              Hwin _ [] (sweepInvariant_start start end_ _ Hwin) Hsorted)
    as (result & Hres & Hfit & Hmax).
  - apply List.Forall_forall. intros e He. split; [now apply Hwf|].
    cbn [currentTime]. apply (wf_interval _ _ (Hwf e He)).
  - exists result. split; [exact Hres|]. split; [apply Hfit|].
    intros b. eapply isMaxOver_ext; [|apply Hmax].
    intros t Ht. cbn [app]. symmetry. apply interferenceStartedBefore_swept. lia.
Qed.

Lemma wellFormed_single sp p start end_ :
  getNumFreqs sp = 1%nat -> 0 <= p -> 0 <= start < end_ ->
  wellFormed sp (mkSignal sp [p] 0 1 start end_ [] 0).
Proof.
  intros Hn Hp Hint. constructor; cbn.
  - split; [reflexivity|]. now rewrite Hn.
  - lia.
  - intros [|[|b]]; cbn; lia.
  - intros [|[|b]] Hb; cbn; try reflexivity. lia.
  - exact Hint.
Qed.

Lemma getMaxInterference_maximum_witness :
  let ref := mkAirFrame 9 (mkSignal [100] [7] 0 1 0 20 [] 0) in
  let a := mkAirFrame 1 (mkSignal [100] [1] 0 1 0 10 [] 0) in
  let b := mkAirFrame 2 (mkSignal [100] [2] 0 1 5 15 [] 0) in
  let frames := [(1%positive, a); (2%positive, b)] in
  exists result,
    getMaxInterference 0 15 ref frames = Some result
    /\ getSpectrum result = [100]
    /\ forall bin, isMaxOver 0 15
                     (fun t => interferenceStartedBefore 15 ref frames t bin)
                     (at_ result bin).
Proof.
  intros ref a b frames.
  apply (getMaxInterference_maximum 0 15 ref frames).
  - lia.
  - repeat constructor; simpl; lia.
  - intros entry [<-|[<-|[]]]; apply wellFormed_single; try reflexivity; lia.
Defined.

(** C1 fails as stated: an interferer that meets the data model and is
    received over [[10, 20)] with power 5 is active at the instant 10 of the
    window [[0, 10]], where the interference is therefore 5, and
    [getMaxInterference] returns 0 at that bin. *)
Lemma getMaxInterference_window_end_counterexample :
  let ref := mkAirFrame 9 (mkSignal [100] [7] 0 1 0 20 [] 0) in
  let frames := [(1%positive, mkAirFrame 1 (mkSignal [100] [5] 0 1 10 20 [] 0))] in
  sortedByReceptionStart frames
  /\ (forall entry, In entry frames -> wellFormed [100] (getSignal (snd entry)))
  /\ exists result,
       getMaxInterference 0 10 ref frames = Some result
       /\ ~ isMaxOver 0 10 (fun t => interferenceAt ref frames t 0) (at_ result 0).
Proof.
  intros ref frames. split; [repeat constructor|]. split.
  - intros entry [<-|[]]. apply wellFormed_single; try reflexivity; lia.
  - eexists. split; [reflexivity|].
    intros [_ Hup]. specialize (Hup 10 ltac:(lia)).
    change (5 <= 0) in Hup. lia.
Qed.

(** ** The minimum SINR *)

Lemma sameShape_refl s : sameShape s s.
Proof. repeat split. Qed.

Lemma sameShape_trans s s' s'' : sameShape s s' -> sameShape s' s'' -> sameShape s s''.
Proof.
  intros (H1 & H2 & H3 & H4 & H5) (G1 & G2 & G3 & G4 & G5).
  unfold sameShape. repeat split; congruence.
Qed.

Lemma applyAnalogueModel_shape index s : sameShape s (applyAnalogueModel index s).
Proof.
  unfold applyAnalogueModel.
  destruct (nth_error (getAnalogueModelList s) index); repeat split.
Qed.

Lemma applyStages_shape n index s : sameShape s (applyStages n index s).
Proof.
  revert index s. induction n as [|n IH]; intros index s; cbn [applyStages].
  - apply sameShape_refl.
  - eapply sameShape_trans; [apply applyAnalogueModel_shape|apply IH].
Qed.

Lemma applyAllAnalogueModels_shape s : sameShape s (applyAllAnalogueModels s).
Proof. apply applyStages_shape. Qed.

Lemma onSignal_shape (g : Signal -> Signal) (h : Heap) p q fr :
  (forall s, sameShape s (g s)) ->
  h !! q = Some fr ->
  exists fr', onSignal g p h !! q = Some fr' /\ sameFrameShape fr fr'.
Proof.
  intros Hg Hq. unfold onSignal. rewrite lookup_alter.
  destruct (decide (p = q)) as [->|Hne].
  - rewrite Hq. eexists. split; [reflexivity|]. split; [reflexivity|apply Hg].
  - exists fr. split; [exact Hq|]. split; [reflexivity|apply sameShape_refl].
Qed.

Lemma onSignals_shape (g : Signal -> Signal) ptrs (h : Heap) q fr :
  (forall s, sameShape s (g s)) ->
  h !! q = Some fr ->
  exists fr', onSignals g ptrs h !! q = Some fr' /\ sameFrameShape fr fr'.
Proof.
  intros Hg. revert h fr. induction ptrs as [|p rest IH]; intros h fr Hq; cbn [onSignals].
  - exists fr. split; [exact Hq|]. split; [reflexivity|apply sameShape_refl].
  - destruct (onSignal_shape g h p q fr Hg Hq) as (fr1 & H1 & [Ht1 Hs1]).
    destruct (IH _ _ H1) as (fr2 & H2 & [Ht2 Hs2]).
    exists fr2. split; [exact H2|]. split; [congruence|].
    eapply sameShape_trans; eassumption.
Qed.

Lemma view_shape (h h' : Heap) ptrs frames :
  (forall q fr, h !! q = Some fr -> exists fr', h' !! q = Some fr' /\ sameFrameShape fr fr') ->
  view h ptrs = Some frames ->
  exists frames',
    view h' ptrs = Some frames'
    /\ Forall2 (fun e e' => sameFrameShape (snd e) (snd e')) frames frames'.
Proof.
  intros Hh. revert frames. induction ptrs as [|p rest IH]; intros frames Hv; cbn [view] in *.
  - injection Hv as <-. exists []. split; [reflexivity|constructor].
  - destruct (h !! p) as [fr|] eqn:Hp; [|discriminate].
    destruct (view h rest) as [v|]; [|discriminate].
    injection Hv as <-.
    destruct (Hh p fr Hp) as (fr' & Hp' & Hshape).
    destruct (IH v eq_refl) as (v' & Hv' & Hall).
    rewrite Hp', Hv'. eexists. split; [reflexivity|].
    constructor; [exact Hshape|exact Hall].
Qed.

Lemma sorted_shape (frames frames' : AirFrameVector) :
  Forall2 (fun e e' => sameFrameShape (snd e) (snd e')) frames frames' ->
  sortedByReceptionStart frames -> sortedByReceptionStart frames'.
Proof.
  unfold sortedByReceptionStart.
  induction 1 as [|e e' l l' He Hl IH]; intros Hs; [constructor|].
  inversion Hs as [|? ? Hrest Hhead]; subst.
  constructor; [now apply IH|].
  destruct He as [_ (_ & _ & _ & Hst & _)].
  clear -Hl Hhead Hst. induction Hl as [|x x' l l' Hx _ IH]; [constructor|].
  inversion Hhead; subst. constructor; [|now apply IH].
  destruct Hx as [_ (_ & _ & _ & Hxs & _)]. lia.
Qed.

Lemma sweepable_shape sp (frames frames' : AirFrameVector) :
  Forall2 (fun e e' => sameFrameShape (snd e) (snd e')) frames frames' ->
  Forall (fun e => sweepable sp (getSignal (snd e))) frames ->
  Forall (fun e => sweepable sp (getSignal (snd e))) frames'.
Proof.
  induction 1 as [|e e' l l' He _ IH]; intros Hall; [constructor|].
  apply List.Forall_cons_iff in Hall as [[Hsp Hint] Hrest].
  constructor; [|now apply IH].
  destruct He as [_ (H1 & _ & _ & H4 & H5)].
  split; [congruence|]. rewrite <- H4, <- H5. exact Hint.
Qed.

Lemma removeEnded_returns sp ct q cur :
  Forall (fun s => getSpectrum s = sp) q -> getSpectrum cur = sp ->
  Exists (fun s => ct < getReceptionEnd s) q ->
  exists q' cur',
    removeEnded ct q cur = Some (q', cur')
    /\ getSpectrum cur' = sp /\ Forall (fun s => getSpectrum s = sp) q'.
Proof.
  revert cur. induction q as [|top rest IH]; intros cur Hq Hcur Hex.
  - inversion Hex.
  - cbn [removeEnded]. inversion Hq as [|? ? Htop Hrest]; subst.
    destruct (Z.leb_spec (getReceptionEnd top) ct).
    + unfold minusAssign. rewrite Htop, Spectrum_eqb_refl.
      apply IH; [exact Hrest|reflexivity|].
      inversion Hex; subst; [lia|assumption].
    + exists (top :: rest), cur. split; [reflexivity|]. split; [reflexivity|exact Hq].
Qed.

(** Under its assertions the loop of [getMaxInterference] returns. *)
Lemma getMaxInterference_loop_returns start end_ ref sp frames :
  forall st,
    getSpectrum (currentInterference st) = sp ->
    Forall (fun s => getSpectrum s = sp) (signalEndings st) ->
    sortedByReceptionStart frames ->
    Forall (fun e => sweepable sp (getSignal (snd e))
                     /\ currentTime st <= getReceptionStart (getSignal (snd e))) frames ->
    exists result, getMaxInterference_loop start end_ ref sp frames st = Some result.
Proof.
  induction frames as [|[p f] rest IH]; intros st Hcur Hq Hsorted Hall.
  - eexists. reflexivity.
  - apply StronglySorted_inv in Hsorted as [Hsrest Hhead].
    apply List.Forall_cons_iff in Hall as [[[Hsp Hint] Hct] Hallrest]. cbn [snd] in *.
    cbn [getMaxInterference_loop]. set (s := getSignal f) in *.
    destruct (getTreeId f =? getTreeId ref); [now apply IH|].
    destruct (Z.leb_spec (getReceptionEnd s) start); cbn [orb]; [now apply IH|].
    destruct (Z.gtb_spec (getReceptionStart s) end_); [now apply IH|].
    destruct (Z.gtb_spec (getReceptionEnd s) start); [|lia].
    destruct (Z.leb_spec (getReceptionStart s) end_); [|lia].
    destruct (Z.geb_spec (getReceptionStart s) (currentTime st)); [|lia].
    rewrite (proj2 (Spectrum_eqb_eq (getSpectrum s) sp)) by exact Hsp.
    cbn [negb].
    destruct (Z.geb_spec (getReceptionStart s) end_); [eexists; reflexivity|].
    destruct (removeEnded_returns sp (getReceptionStart s) (push s (signalEndings st))
                (currentInterference st))
      as (q' & cur' & Hrun & Hcur' & Hq').
    + eapply Permutation_Forall; [symmetry; apply push_perm|]. now constructor.
    + exact Hcur.
    + apply List.Exists_exists. exists s. split; [|lia].
      eapply Permutation_in; [symmetry; apply push_perm|]. now left.
    + rewrite Hrun. unfold plusAssign. rewrite Hcur', Hsp, Spectrum_eqb_refl.
      apply IH; cbn [currentInterference signalEndings currentTime];
        [exact Hcur'|exact Hq'|exact Hsrest|].
      rewrite List.Forall_forall in Hallrest, Hhead. apply List.Forall_forall.
      intros e He. split; [now apply Hallrest|].
      specialize (Hhead e He). cbn [snd] in Hhead. fold s in Hhead. exact Hhead.
Qed.

Lemma minOverData_none signal interference noise i min_sinr :
  minOverData signal interference noise i 0 min_sinr = min_sinr.
Proof. reflexivity. Qed.

Lemma attenuated_lookup (h : Heap) sf ptrs q fr :
  h !! q = Some fr ->
  exists fr',
    onSignals applyAllAnalogueModels ptrs (onSignal applyAllAnalogueModels sf h) !! q
    = Some fr'
    /\ sameFrameShape fr fr'.
Proof.
  intros Hq.
  destruct (onSignal_shape applyAllAnalogueModels h sf q fr
              applyAllAnalogueModels_shape Hq) as (fr1 & H1 & [Ht1 Hs1]).
  destruct (onSignals_shape applyAllAnalogueModels ptrs _ q fr1
              applyAllAnalogueModels_shape H1) as (fr2 & H2 & [Ht2 Hs2]).
  exists fr2. split; [exact H2|]. split; [congruence|].
  eapply sameShape_trans; eassumption.
Qed.

(** C10.  When the populated bin range of the reference signal is empty
    ([dataStart = dataEnd]), every value that [getMinSINR] returns is positive
    infinity: the minimum starts from [INFINITY] and the loop over the
    populated range has no iteration.  And it does return whenever its
    assertions hold: the window lies in the reception interval of the
    reference signal, and the interferers are in ascending order of reception
    start, over the spectrum of the reference signal and received over
    intervals of positive length from time 0 on. *)
Theorem getMinSINR_empty_range :
  forall (h : Heap) (start end_ : simtime_t) (signalFrame : AirFramePtr)
         (interfererFrames : list AirFramePtr) (noise : Z) (frame : AirFrame),
    h !! signalFrame = Some frame ->
    getDataStart (getSignal frame) = getDataEnd (getSignal frame) ->
    (forall r h', getMinSINR h start end_ signalFrame interfererFrames noise = Some (r, h') ->
                  r = INFINITY)
    /\ (forall frames,
          view h interfererFrames = Some frames ->
          getReceptionStart (getSignal frame) <= start ->
          end_ <= getReceptionEnd (getSignal frame) ->
          sortedByReceptionStart frames ->
          Forall (fun e => sweepable (getSpectrum (getSignal frame)) (getSignal (snd e)))
                 frames ->
          exists h', getMinSINR h start end_ signalFrame interfererFrames noise
                     = Some (INFINITY, h')).
Proof.
  intros h start end_ sf ptrs noise frame Hsf Hempty.
  destruct (attenuated_lookup h sf ptrs sf frame Hsf)
    as (frame' & Hsf' & [Htree (Hsp & Hds & Hde & _)]).
  assert (Hnone : (getDataEnd (getSignal frame') - getDataStart (getSignal frame') = 0)%nat)
    by lia.
  split.
  - intros r h'. unfold getMinSINR. rewrite Hsf.
    destruct (negb _); [discriminate|]. destruct (negb _); [discriminate|].
    rewrite Hsf'.
    destruct (view _ ptrs) as [frames'|]; [|discriminate].
    destruct (getMaxInterference _ _ _ _) as [interference|]; [|discriminate].
    rewrite Hnone, minOverData_none. intros [= <- _]. reflexivity.
  - intros frames Hview Hstart Hend Hsorted Hsweep.
    unfold getMinSINR. rewrite Hsf.
    destruct (Z.geb_spec start (getReceptionStart (getSignal frame))); [|lia].
    destruct (Z.leb_spec end_ (getReceptionEnd (getSignal frame))); [|lia].
    cbn [negb]. rewrite Hsf'.
    destruct (view_shape h _ ptrs frames (attenuated_lookup h sf ptrs) Hview)
      as (frames' & Hview' & Hshape).
    rewrite Hview'.
    destruct (getMaxInterference_loop_returns start end_ frame'
                (getSpectrum (getSignal frame')) frames'
                (mkSweepState (newSignal (getSpectrum (getSignal frame')))
                   (newSignal (getSpectrum (getSignal frame'))) [] 0))
      as (interference & Hint).
    + reflexivity.
    + constructor.
    + eapply sorted_shape; eassumption.
    + pose proof (sweepable_shape _ _ _ Hshape Hsweep) as Hsweep'.
      eapply List.Forall_impl; [|exact Hsweep']. cbn [currentTime].
      intros e [He1 He2]. split; [split; [congruence|exact He2]|lia].
    + unfold getMaxInterference. rewrite Hint, Hnone, minOverData_none.
      eexists. reflexivity.
Qed.

Lemma getMinSINR_empty_range_witness :
  let frame := mkAirFrame 9 (mkSignal [100] [7] 0 0 0 20 [] 0) in
  let a := mkAirFrame 1 (mkSignal [100] [1] 0 1 0 10 [] 0) in
  let h : Heap := <[9%positive := frame]> (<[1%positive := a]> ∅) in
  exists h', getMinSINR h 2 8 9%positive [1%positive] 1 = Some (INFINITY, h').
Proof.
  intros frame a h.
  refine (proj2 (getMinSINR_empty_range h 2 8 9%positive [1%positive] 1 frame _ _)
            [(1%positive, a)] _ _ _ _ _).
  - reflexivity.
  - reflexivity.
  - reflexivity.
  - simpl; lia.
  - simpl; lia.
  - repeat constructor.
  - repeat constructor; simpl; lia.
Defined.

(** ** The excluded frame, entry point by entry point *)

Lemma applyStages_count n index s :
  (index + n <= length (getAnalogueModelList s))%nat ->
  getAnalogueModelList (applyStages n index s) = getAnalogueModelList s
  /\ numAnalogueModelsApplied (applyStages n index s) = (numAnalogueModelsApplied s + n)%nat.
Proof.
  revert index s. induction n as [|n IH]; intros index s Hle; cbn [applyStages].
  - split; [reflexivity|lia].
  - assert (Hstep : getAnalogueModelList (applyAnalogueModel index s) = getAnalogueModelList s
                    /\ numAnalogueModelsApplied (applyAnalogueModel index s)
                       = S (numAnalogueModelsApplied s)).
    { unfold applyAnalogueModel.
      destruct (nth_error (getAnalogueModelList s) index) eqn:Hnth; [split; reflexivity|].
      apply nth_error_None in Hnth. lia. }
    destruct Hstep as [Hl Hc].
    destruct (IH (S index) (applyAnalogueModel index s)) as [Hl' Hc'].
    + rewrite Hl. lia.
    + split; [congruence|]. rewrite Hc', Hc. lia.
Qed.

Lemma applyAllAnalogueModels_idem s :
  applyAllAnalogueModels (applyAllAnalogueModels s) = applyAllAnalogueModels s.
Proof.
  unfold applyAllAnalogueModels at 2 3.
  destruct (Nat.le_gt_cases (numAnalogueModelsApplied s) (length (getAnalogueModelList s)))
    as [Hle|Hgt].
  - destruct (applyStages_count
                (length (getAnalogueModelList s) - numAnalogueModelsApplied s)
                (numAnalogueModelsApplied s) s) as [Hl Hc]; [lia|].
    unfold applyAllAnalogueModels. rewrite Hl, Hc.
    replace (length (getAnalogueModelList s)
             - (numAnalogueModelsApplied s
                + (length (getAnalogueModelList s) - numAnalogueModelsApplied s)))%nat
      with 0%nat by lia.
    reflexivity.
  - replace (length (getAnalogueModelList s) - numAnalogueModelsApplied s)%nat
      with 0%nat by lia.
    cbn [applyStages]. unfold applyAllAnalogueModels.
    replace (length (getAnalogueModelList s) - numAnalogueModelsApplied s)%nat
      with 0%nat by lia.
    reflexivity.
Qed.

Lemma onSignals_lookup_idem (g : Signal -> Signal) ptrs (h : Heap) (q : AirFramePtr) :
  (forall s, g (g s) = g s) ->
  onSignals g ptrs h !! q
  = if existsb (Pos.eqb q) ptrs then onFrame g <$> h !! q else h !! q.
Proof.
  intros Hg. revert h. induction ptrs as [|p rest IH]; intros h; cbn [onSignals existsb].
  - reflexivity.
  - rewrite IH. unfold onSignal.
    destruct (Pos.eqb_spec q p) as [->|Hne]; cbn [orb].
    + rewrite lookup_alter_eq.
      destruct (existsb (Pos.eqb p) rest); [|reflexivity].
      assert (Hidem : forall o : option AirFrame,
                 onFrame g <$> (onFrame g <$> o) = onFrame g <$> o).
      { intros [fr|]; [|reflexivity]. cbn. unfold onFrame. cbn. now rewrite Hg. }
      apply Hidem.
    + rewrite lookup_alter_ne by congruence. reflexivity.
Qed.

Lemma view_ext (h h' : Heap) ptrs :
  (forall p, In p ptrs -> h !! p = h' !! p) -> view h ptrs = view h' ptrs.
Proof.
  induction ptrs as [|p rest IH]; intros Hext; [reflexivity|].
  cbn [view]. rewrite (Hext p (or_introl eq_refl)), IH; [reflexivity|].
  intros q Hq. apply Hext. now right.
Qed.

Lemma view_In (h : Heap) ptrs frames :
  view h ptrs = Some frames ->
  forall e, In e frames -> h !! (fst e) = Some (snd e).
Proof.
  revert frames. induction ptrs as [|p rest IH]; intros frames Hv e He; cbn [view] in Hv.
  - injection Hv as <-. destruct He.
  - destruct (h !! p) as [f|] eqn:Hp; [|discriminate].
    destruct (view h rest) as [v|]; [|discriminate].
    injection Hv as <-. destruct He as [<-|He]; [exact Hp|].
    now apply (IH v).
Qed.

Lemma existsb_filter_kept (P : AirFramePtr -> bool) (q : AirFramePtr) ptrs :
  P q = true ->
  existsb (Pos.eqb q) (List.filter P ptrs) = existsb (Pos.eqb q) ptrs.
Proof.
  intros HP. induction ptrs as [|p rest IH]; [reflexivity|].
  cbn [List.filter existsb].
  destruct (Pos.eqb_spec q p) as [<-|Hne].
  - rewrite HP. cbn [existsb]. now rewrite Pos.eqb_refl.
  - destruct (P p); cbn [existsb orb]; [|exact IH].
    destruct (Pos.eqb_spec q p); [congruence|]. exact IH.
Qed.

(** [getMinSINR] divides by the interference of the frames of another tree id
    than the reference frame: without the pointers to its duplicates the ratio
    is the same. *)
Lemma getMinSINR_others (h : Heap) start end_ sf ptrs noise frame frames :
  h !! sf = Some frame ->
  view h ptrs = Some frames ->
  option_map fst (getMinSINR h start end_ sf (List.filter (isOtherPtr h frame) ptrs) noise)
  = option_map fst (getMinSINR h start end_ sf ptrs noise).
Proof.
  intros Hsf Hview. unfold getMinSINR. rewrite Hsf.
  destruct (negb _); [reflexivity|]. destruct (negb _); [reflexivity|].
  set (g := applyAllAnalogueModels).
  set (ptrs' := List.filter (isOtherPtr h frame) ptrs).
  change (onSignals g ptrs (onSignal g sf h)) with (onSignals g (sf :: ptrs) h).
  change (onSignals g ptrs' (onSignal g sf h)) with (onSignals g (sf :: ptrs') h).
  assert (Hlook : forall l (q : AirFramePtr),
             onSignals g (sf :: l) h !! q
             = if existsb (Pos.eqb q) (sf :: l) then onFrame g <$> h !! q else h !! q).
  { intros l q. apply onSignals_lookup_idem. apply applyAllAnalogueModels_idem. }
  assert (Hsf2 : forall l, onSignals g (sf :: l) h !! sf = Some (onFrame g frame)).
  { intros l. rewrite Hlook. cbn [existsb]. now rewrite Pos.eqb_refl, Hsf. }
  rewrite !Hsf2.
  destruct (view_shape h (onSignals g (sf :: ptrs) h) ptrs frames) as (frames2 & Hview2 & _).
  { intros q fr Hq. apply (attenuated_lookup h sf ptrs q fr Hq). }
  { exact Hview. }
  assert (Hview2' : view (onSignals g (sf :: ptrs') h) ptrs'
                    = Some (List.filter (isOtherTransmission (onFrame g frame)) frames2)).
  { rewrite (view_ext _ (onSignals g (sf :: ptrs) h)).
    - unfold ptrs'. rewrite (view_filter_ptrs _ _ _ _ Hview2). f_equal.
      apply List.filter_ext_in. intros e He.
      pose proof (view_In _ _ _ Hview2 e He) as Hlk. rewrite Hlook in Hlk.
      unfold isOtherPtr, isOtherTransmission.
      destruct (h !! fst e) as [f|].
      + destruct (existsb _ _); cbn in Hlk; injection Hlk as <-; reflexivity.
      + destruct (existsb _ _); cbn in Hlk; discriminate.
    - intros p Hp. rewrite !Hlook. cbn [existsb].
      unfold ptrs' in *. apply List.filter_In in Hp as [_ HP].
      now rewrite existsb_filter_kept. }
  rewrite Hview2, Hview2'.
  unfold getMaxInterference at 1.
  rewrite getMaxInterference_loop_others.
  fold (getMaxInterference start end_ (onFrame g frame) frames2).
  destruct (getMaxInterference start end_ (onFrame g frame) frames2); reflexivity.
Qed.

(** C3 (as the code has it).  What keeps a frame out of an aggregate differs by
    entry point.  [getMaxInterference] leaves out every frame whose tree id is
    the reference frame's, whichever object it is, and so does [getMinSINR],
    which takes from it the interference it divides by: without the
    duplicates of the reference frame both return the same.
    [getMinAtFreqIndex] and [isChannelPowerBelowThreshold] leave out the
    excluded frame object itself, the one at the address [exclude]: taking it
    out of the collection changes neither result nor heap (for the threshold
    test, with a threshold above zero and frames that carry the same number of
    attenuation stages). *)
Theorem excluded_frame_contributes_nothing :
  (forall start end_ referenceFrame interfererFrames,
     getMaxInterference start end_ referenceFrame
       (List.filter (isOtherTransmission referenceFrame) interfererFrames)
     = getMaxInterference start end_ referenceFrame interfererFrames)
  /\ (forall (h : Heap) start end_ signalFrame interfererFrames noise frame frames,
        h !! signalFrame = Some frame ->
        view h interfererFrames = Some frames ->
        option_map fst
          (getMinSINR h start end_ signalFrame
             (List.filter (isOtherPtr h frame) interfererFrames) noise)
        = option_map fst (getMinSINR h start end_ signalFrame interfererFrames noise))
  /\ (forall start end_ airFrames freqIndex exclude,
        getMinAtFreqIndex start end_ (List.filter (isNotExcluded exclude) airFrames)
          freqIndex exclude
        = getMinAtFreqIndex start end_ airFrames freqIndex exclude)
  /\ (forall (h : Heap) now interfererFrames freqIndex threshold exclude frames n,
        view h interfererFrames = Some frames ->
        (forall p f, In (p, f) frames ->
                     length (getAnalogueModelList (getSignal f)) = n) ->
        0 < threshold ->
        isChannelPowerBelowThreshold h now
          (List.filter (fun p => negb (isExcluded p exclude)) interfererFrames)
          freqIndex threshold exclude
        = isChannelPowerBelowThreshold h now interfererFrames freqIndex threshold exclude).
Proof.
  split; [|split; [|split]].
  - intros. apply getMaxInterference_loop_others.
  - intros. eapply getMinSINR_others; eassumption.
  - intros. apply getMinAtFreqIndex_not_excluded.
  - intros. eapply isChannelPowerBelowThreshold_not_excluded; eassumption.
Qed.

Lemma excluded_frame_contributes_nothing_witness :
  let f := mkAirFrame 1 (mkSignal [100] [3] 0 1 0 10 [mkAnalogueModel (map (fun v => v / 2))] 0) in
  let g := mkAirFrame 2 (mkSignal [100] [5] 0 1 0 10 [mkAnalogueModel (map (fun v => v / 2))] 0) in
  let h : Heap := <[1%positive := f]> (<[2%positive := g]> ∅) in
  isChannelPowerBelowThreshold h 5 [2%positive] 0 2 (Some 1%positive)
  = isChannelPowerBelowThreshold h 5 [1%positive; 2%positive] 0 2 (Some 1%positive).
Proof.
  intros f g h.
  apply (proj2 (proj2 (proj2 excluded_frame_contributes_nothing)) h 5 [1%positive; 2%positive]
           0%nat 2 (Some 1%positive) [(1%positive, f); (2%positive, g)] 1%nat).
  - reflexivity.
  - intros p x [Heq|[Heq|[]]]; inversion Heq; reflexivity.
  - lia.
Defined.

(** C3 fails as stated: a duplicate of the excluded frame, a distinct object at
    address 2 with the tree id and the signal data of the frame at address 1,
    does contribute to [getMinAtFreqIndex] when the frame at address 1 is the
    excluded one. *)
Lemma excluded_frame_duplicate_counterexample :
  let f := mkAirFrame 7 (mkSignal [100] [3] 0 1 0 10 [] 0) in
  getMinAtFreqIndex 0 5 [(1%positive, f); (2%positive, f)] 0 (Some 1%positive) = 3
  /\ getMinAtFreqIndex 0 5 [(1%positive, f)] 0 (Some 1%positive) = 0.
Proof. split; vm_compute; reflexivity. Qed.


(** * Further properties of the signal utilities *)

(** ** Event extraction: what a change can be *)

Lemma expectedChanges_shape start end_ s c :
  In c (expectedChanges start end_ s) ->
  signal c = s
  /\ ((type c = starting /\ time c = getReceptionStart s /\ time c <= end_)
      \/ (type c = ending /\ time c = getReceptionEnd s /\ start < time c <= end_)).
Proof.
  unfold expectedChanges.
  destruct (Z.eqb_spec start end_) as [He|He].
  - destruct (Z.eqb_spec (getReceptionStart s) start);
      destruct (Z.ltb_spec (getReceptionStart s) start);
      destruct (Z.gtb_spec (getReceptionEnd s) start); cbn [orb andb];
      intros Hin; try destruct Hin as [<-|[]]; try destruct Hin;
      (split; [reflexivity|left; cbn; repeat split; lia]).
  - destruct (Z.ltb_spec (getReceptionStart s) end_);
      destruct (Z.gtb_spec (getReceptionEnd s) start); cbn [andb];
      intros Hin; try destruct Hin.
    + subst c. split; [reflexivity|left; cbn; repeat split; lia].
    + destruct (Z.leb_spec (getReceptionEnd s) end_); [|destruct H1].
      destruct H1 as [<-|[]]. split; [reflexivity|right; cbn; repeat split; lia].
Qed.

Lemma length_expectedChanges start end_ s :
  (length (expectedChanges start end_ s) <= 2)%nat.
Proof.
  unfold expectedChanges.
  repeat match goal with
         | |- context [if ?x then _ else _] => destruct x
         end; simpl; lia.
Qed.

Lemma length_calculateChanges start end_ frames exclude :
  (length (calculateChanges start end_ frames exclude) <= 2 * length frames)%nat.
Proof.
  induction frames as [|entry rest IH]; [simpl; lia|].
  rewrite calculateChanges_cons, length_app, changesOfEntry_expected.
  pose proof (length_expectedChanges start end_ (getSignal (snd entry))).
  destruct (isExcluded (fst entry) exclude); simpl in *; lia.
Qed.

(** X1.  Every change that [calculateChanges] emits is a change of a frame of
    the collection that is not the excluded one; it is either a Starting change,
    at the reception start of its signal and not later than [end], or an Ending
    change, at the reception end of its signal, later than [start] and not
    later than [end]; the kind [nothing] is never emitted, and there are at
    most two changes per frame. *)
Theorem calculateChanges_shape :
  forall (start end_ : simtime_t) (airFrames : AirFrameVector)
         (exclude : option AirFramePtr),
    (length (calculateChanges start end_ airFrames exclude) <= 2 * length airFrames)%nat
    /\ forall c, In c (calculateChanges start end_ airFrames exclude) ->
         exists entry,
           In entry airFrames
           /\ isExcluded (fst entry) exclude = false
           /\ signal c = getSignal (snd entry)
           /\ ((type c = starting /\ time c = getReceptionStart (signal c)
                /\ time c <= end_)
               \/ (type c = ending /\ time c = getReceptionEnd (signal c)
                   /\ start < time c <= end_)).
Proof.
  intros start end_ frames exclude. split; [apply length_calculateChanges|].
  intros c Hin. rewrite calculateChanges_flat_map in Hin.
  apply in_flat_map in Hin as (entry & Hentry & Hin).
  rewrite changesOfEntry_expected in Hin.
  destruct (isExcluded (fst entry) exclude) eqn:Hex; [destruct Hin|].
  destruct (expectedChanges_shape _ _ _ _ Hin) as [Hs Hkind].
  exists entry. repeat split; try assumption. now rewrite Hs.
Qed.

(** ** The sweeps when nothing overlaps the window *)

Lemma expectedChanges_contributes start end_ s :
  expectedChanges start end_ s = [] <-> contributes start end_ s = false.
Proof.
  unfold expectedChanges, contributes.
  destruct (Z.eqb_spec start end_) as [->|He]; cbn [andb orb].
  - destruct (Z.eqb_spec (getReceptionStart s) end_); cbn [orb].
    + split; discriminate.
    + destruct (Z.ltb_spec (getReceptionStart s) end_); cbn [andb]; [|tauto].
      destruct (getReceptionEnd s >? end_); split; try discriminate; reflexivity.
  - destruct ((getReceptionStart s <? end_) && (getReceptionEnd s >? start));
      split; try discriminate; reflexivity.
Qed.

Lemma calculateChanges_nothing start end_ frames exclude :
  (forall entry, In entry frames ->
     isExcluded (fst entry) exclude = true
     \/ contributes start end_ (getSignal (snd entry)) = false) ->
  calculateChanges start end_ frames exclude = [].
Proof.
  induction frames as [|entry rest IH]; intros H; [reflexivity|].
  rewrite calculateChanges_cons, changesOfEntry_expected, IH.
  - destruct (H entry (or_introl eq_refl)) as [-> | Hc]; [reflexivity|].
    apply expectedChanges_contributes in Hc. rewrite Hc.
    now destruct (isExcluded (fst entry) exclude).
  - intros e He. apply H. now right.
Qed.

Lemma contributes_outside start end_ s :
  start < end_ ->
  getReceptionEnd s <= start \/ end_ <= getReceptionStart s ->
  contributes start end_ s = false.
Proof.
  intros Hwin Hout. unfold contributes.
  destruct (Z.eqb_spec start end_); [lia|]. cbn [andb orb].
  destruct (Z.ltb_spec (getReceptionStart s) end_),
    (Z.gtb_spec (getReceptionEnd s) start); cbn [andb]; try reflexivity; lia.
Qed.

(** X2.  In a window of positive length, when every signal of the collection
    has ended by [start] or starts at [end] or later, no change is extracted and
    [getGlobalMax], [getGlobalMin] and [getMinAtFreqIndex] return 0, whatever
    the powers and the spectra of the signals. *)
Theorem sweeps_nothing_overlaps :
  forall (start end_ : simtime_t) (airFrames : AirFrameVector) (freqIndex : nat)
         (exclude : option AirFramePtr),
    start < end_ ->
    (forall entry, In entry airFrames ->
       getReceptionEnd (getSignal (snd entry)) <= start
       \/ end_ <= getReceptionStart (getSignal (snd entry))) ->
    getGlobalMax start end_ airFrames = Some 0
    /\ getGlobalMin start end_ airFrames = Some 0
    /\ getMinAtFreqIndex start end_ airFrames freqIndex exclude = 0.
Proof.
  intros start end_ frames freqIndex exclude Hwin Hout.
  assert (Hnone : forall ex, calculateChanges start end_ frames ex = []).
  { intros ex. apply calculateChanges_nothing. intros entry He. right.
    apply contributes_outside; [exact Hwin|now apply Hout]. }
  unfold getGlobalMax, getGlobalMin, getMinAtFreqIndex. rewrite !Hnone.
  destruct frames; repeat split.
Qed.

Lemma sweeps_nothing_overlaps_witness :
  let a := mkAirFrame 1 (mkSignal [100] [1] 0 1 0 10 [] 0) in
  let b := mkAirFrame 2 (mkSignal [100; 200] [2; 3] 0 2 20 30 [] 0) in
  let airFrames := [(1%positive, a); (2%positive, b)] in
  getGlobalMax 10 20 airFrames = Some 0
  /\ getGlobalMin 10 20 airFrames = Some 0
  /\ getMinAtFreqIndex 10 20 airFrames 0 None = 0.
Proof.
  intros a b airFrames.
  apply (sweeps_nothing_overlaps 10 20 airFrames 0%nat None).
  - lia.
  - intros entry [<-|[<-|[]]]; simpl; lia.
Defined.


(** ** The global minimum is not above the global maximum *)

Lemma fold_left_max_ge l x : x <= fold_left Z.max l x.
Proof.
  revert x. induction l as [|y l IH]; intros x; cbn [fold_left]; [lia|].
  specialize (IH (Z.max x y)). lia.
Qed.

Lemma fold_left_min_le l x : fold_left Z.min l x <= x.
Proof.
  revert x. induction l as [|y l IH]; intros x; cbn [fold_left]; [lia|].
  specialize (IH (Z.min x y)). lia.
Qed.

Lemma getDataMin_le_getMax s : getDataMin s <= getMax s.
Proof.
  unfold getDataMin, getMax, minOf, maxOf.
  destruct (dataValues s) as [|x l]; [lia|].
  pose proof (fold_left_max_ge l x). pose proof (fold_left_min_le l x). lia.
Qed.

Lemma chunks_min_le_max (step : SignalChange -> Signal -> Signal) l acc lo hi :
  lo <= hi ->
  chunks step getDataMin Z.min l acc lo <= chunks step getMax Z.max l acc hi.
Proof.
  revert acc lo hi. induction l as [|it rest IH]; intros acc lo hi Hle; cbn [chunks].
  - exact Hle.
  - apply IH. pose proof (getDataMin_le_getMax (step it acc)).
    destruct (atBoundary it rest); lia.
Qed.

(** X3.  Whenever [getGlobalMin] and [getGlobalMax] both return on the same
    window and collection, the minimum is not above the maximum. *)
Theorem getGlobalMin_le_getGlobalMax :
  forall (start end_ : simtime_t) (airFrames : AirFrameVector) (minimum maximum : Z),
    getGlobalMin start end_ airFrames = Some minimum ->
    getGlobalMax start end_ airFrames = Some maximum ->
    minimum <= maximum.
Proof.
  intros start end_ frames lo hi. unfold getGlobalMin, getGlobalMax.
  destruct frames as [|front others]; [intros [= <-] [= <-]; lia|].
  destruct (sortByTime _) as [|c0 l0]; [intros [= <-] [= <-]; lia|].
  unfold sweepMin, sweepMax.
  destruct (interferenceAtBeginning _ _ _) as [[i rest]|]; [|discriminate].
  rewrite chunksMin_chunks, chunksMax_chunks.
  destruct (forallb _ rest); [|discriminate].
  intros [= <-] [= <-]. apply chunks_min_le_max. apply getDataMin_le_getMax.
Qed.

Lemma getGlobalMin_le_getGlobalMax_witness :
  let a := mkAirFrame 1 (mkSignal [100] [1] 0 1 0 10 [] 0) in
  let b := mkAirFrame 2 (mkSignal [100] [2] 0 1 5 15 [] 0) in
  let airFrames := [(1%positive, a); (2%positive, b)] in
  getGlobalMin 0 14 airFrames = Some 1
  /\ getGlobalMax 0 14 airFrames = Some 3
  /\ 1 <= 3.
Proof.
  intros a b airFrames.
  split; [reflexivity|]. split; [reflexivity|].
  apply (getGlobalMin_le_getGlobalMax 0 14 airFrames 1 3); reflexivity.
Defined.

(** ** The minimum at one frequency bin *)

Lemma getMinAtFreqIndex_sweep start end_ frames b exclude :
  getMinAtFreqIndex start end_ frames b exclude
  = sweepMinAt b start (sortByTime (calculateChanges start end_ frames exclude)).
Proof.
  unfold getMinAtFreqIndex. destruct frames as [|e l]; [reflexivity|].
  destruct (sortByTime _); reflexivity.
Qed.

Lemma sumZ_map_filter {A} (P : A -> bool) (f : A -> Z) l :
  sumZ (map f (List.filter P l)) = sumZ (map (fun x => if P x then f x else 0) l).
Proof.
  unfold sumZ. induction l as [|x l IH]; [reflexivity|].
  cbn [List.filter map fold_right]. rewrite <- IH.
  destruct (P x); cbn [map fold_right]; lia.
Qed.

Lemma sumZ_map_add {A} (f g : A -> Z) l :
  sumZ (map f l) + sumZ (map g l) = sumZ (map (fun x => f x + g x) l).
Proof. unfold sumZ. induction l as [|x l IH]; cbn [map fold_right]; lia. Qed.

Lemma sumZ_map_ext_in {A} (f g : A -> Z) l :
  (forall x, In x l -> f x = g x) -> sumZ (map f l) = sumZ (map g l).
Proof. intros H. f_equal. now apply map_ext_in. Qed.

Lemma stepAll_applyChangeAt b l i :
  stepAll (applyChangeAt b) l i = i + sumZ (map (delta b) l).
Proof.
  unfold stepAll, sumZ. revert i. induction l as [|c l IH]; intros i; cbn [fold_left map fold_right].
  - lia.
  - rewrite IH. unfold delta, applyChangeAt. exact_sums. destruct (type c); lia.
Qed.

Lemma fold_min_le_init (V : SignalChange -> Z) l init :
  fold_left (fun e c => Z.min (V c) e) l init <= init.
Proof.
  revert init. induction l as [|c l IH]; intros init; cbn [fold_left]; [lia|].
  specialize (IH (Z.min (V c) init)). lia.
Qed.

Lemma fold_min_le (V : SignalChange -> Z) l init c :
  In c l -> fold_left (fun e c => Z.min (V c) e) l init <= V c.
Proof.
  revert init. induction l as [|d l IH]; intros init Hin; [destruct Hin|].
  cbn [fold_left]. destruct Hin as [->|Hin].
  - pose proof (fold_min_le_init V l (Z.min (V c) init)). lia.
  - now apply IH.
Qed.

Lemma fold_min_attained (V : SignalChange -> Z) l init :
  fold_left (fun e c => Z.min (V c) e) l init = init
  \/ exists c, In c l /\ fold_left (fun e c => Z.min (V c) e) l init = V c.
Proof.
  revert init. induction l as [|d l IH]; intros init; cbn [fold_left]; [now left|].
  destruct (IH (Z.min (V d) init)) as [Heq|(c & Hc & Heq)].
  - rewrite Heq. destruct (Z.min_spec (V d) init) as [[_ ->]|[_ ->]].
    + right. exists d. split; [now left|reflexivity].
    + now left.
  - right. exists c. split; [now right|exact Heq].
Qed.

(** The value that the sweep reaches: the least of the power at [start] and of
    the powers at the times of the later changes. *)
Lemma sweepMinAt_plateaus b start l :
  sortedByTime l ->
  (forall c, In c l -> time c <= start -> type c = starting) ->
  sweepMinAt b start l
  = fold_left (fun e c => Z.min (powerUpTo b (time c) l) e)
      (List.filter (isLater start) l) (powerUpTo b start l).
Proof.
  intros Hs Hstart. unfold sweepMinAt.
  rewrite interferenceAtBeginningAt_sorted by exact Hs.
  assert (Hinit : 0 + sumZ (map (beginningTerm b start) l) = powerUpTo b start l).
  { unfold powerUpTo. rewrite Z.add_0_l. apply sumZ_map_ext_in. intros c Hc.
    unfold beginningTerm. destruct (Z.leb_spec (time c) start); [|reflexivity].
    unfold delta, applyChangeAt. rewrite (Hstart c Hc) by assumption.
    exact_sums. lia. }
  exact_sums. rewrite Hinit, chunksMinAt_chunks.
  rewrite chunks_bestPlateau;
    [|apply Z.min_comm|apply Z.min_assoc|apply Z.min_id|now apply filter_sorted].
  unfold bestPlateau. apply fold_left_ext_in. intros e c Hc. f_equal.
  apply List.filter_In in Hc as [Hc Hlater].
  unfold isLater in Hlater. apply Z.gtb_gt in Hlater.
  unfold plateau, upTo. rewrite stepAll_applyChangeAt.
  rewrite sumZ_map_filter, sumZ_map_filter. unfold powerUpTo.
  rewrite sumZ_map_add. apply sumZ_map_ext_in. intros d Hd.
  unfold isLater.
  destruct (Z.leb_spec (time d) start), (Z.gtb_spec (time d) start),
    (Z.leb_spec (time d) (time c)); lia.
Qed.

(** The last instant up to [t] at which the power changes. *)
Lemma last_change start t l :
  start <= t ->
  exists t0,
    start <= t0 <= t
    /\ (t0 = start \/ exists c, In c l /\ isLater start c = true /\ t0 = time c)
    /\ forall d, In d l -> (time d <= t <-> time d <= t0).
Proof.
  intros Ht. induction l as [|d0 l (t0 & Hr & Hor & Hiff)].
  - exists start. split; [lia|]. split; [now left|]. intros d [].
  - destruct (Z_le_gt_dec (time d0) t) as [Hle|Hgt];
      [destruct (Z_le_gt_dec (time d0) t0) as [Hle0|Hgt0]|].
    + exists t0. split; [exact Hr|]. split.
      * destruct Hor as [->|(c & Hc & Hl & ->)]; [now left|right; exists c; auto with datatypes].
      * intros d [<-|Hd]; [lia|now apply Hiff].
    + exists (time d0). split; [lia|]. split.
      * right. exists d0. split; [now left|]. split; [|reflexivity].
        unfold isLater. apply Z.gtb_gt. lia.
      * intros d [<-|Hd]; [lia|]. specialize (Hiff d Hd). lia.
    + exists t0. split; [exact Hr|]. split.
      * destruct Hor as [->|(c & Hc & Hl & ->)]; [now left|right; exists c; auto with datatypes].
      * intros d [<-|Hd]; [lia|now apply Hiff].
Qed.

Lemma powerUpTo_same b t t0 l :
  (forall d, In d l -> (time d <= t <-> time d <= t0)) ->
  powerUpTo b t l = powerUpTo b t0 l.
Proof.
  intros Hiff. unfold powerUpTo. apply sumZ_map_ext_in. intros d Hd.
  specialize (Hiff d Hd).
  destruct (Z.leb_spec (time d) t), (Z.leb_spec (time d) t0); try reflexivity; lia.
Qed.

Lemma powerUpTo_perm b t l l' : Permutation l l' -> powerUpTo b t l = powerUpTo b t l'.
Proof. intros H. unfold powerUpTo. now apply sumZ_map_perm. Qed.

Lemma powerUpTo_entry b start end_ t exclude entry :
  start < end_ -> start <= t <= end_ ->
  getReceptionStart (getSignal (snd entry)) < getReceptionEnd (getSignal (snd entry)) ->
  powerUpTo b t (changesOfEntry start end_ exclude entry)
  = if negb (isExcluded (fst entry) exclude)
       && (getReceptionStart (getSignal (snd entry)) <? end_)
       && activeAtb t (getSignal (snd entry))
    then at_ (getSignal (snd entry)) b else 0.
Proof.
  intros Hwin Ht Hnd. rewrite changesOfEntry_expected.
  destruct (isExcluded (fst entry) exclude); [reflexivity|].
  set (s := getSignal (snd entry)) in *.
  unfold expectedChanges, activeAtb, powerUpTo, delta, applyChangeAt, sumZ.
  cbn [negb andb].
  destruct (Z.eqb_spec start end_); [lia|].
  destruct (Z.ltb_spec (getReceptionStart s) end_);
    destruct (Z.gtb_spec (getReceptionEnd s) start);
    destruct (Z.leb_spec (getReceptionEnd s) end_);
    destruct (Z.leb_spec (getReceptionStart s) t);
    destruct (Z.ltb_spec t (getReceptionEnd s));
    cbn [andb map fold_right time type signal]; exact_sums;
    repeat match goal with
           | |- context [?a <=? ?b] => destruct (Z.leb_spec a b)
           end; lia.
Qed.

Lemma powerUpTo_changes b start end_ t frames exclude :
  start < end_ -> start <= t <= end_ ->
  (forall entry, In entry frames ->
     getReceptionStart (getSignal (snd entry)) < getReceptionEnd (getSignal (snd entry))) ->
  powerUpTo b t (calculateChanges start end_ frames exclude)
  = activePowerStartedBefore end_ t frames exclude b.
Proof.
  intros Hwin Ht. induction frames as [|entry rest IH]; intros Hnd; [reflexivity|].
  rewrite calculateChanges_cons. unfold powerUpTo in *.
  rewrite map_app, sumZ_app. fold (powerUpTo b t (changesOfEntry start end_ exclude entry)).
  rewrite powerUpTo_entry; [|assumption..|apply Hnd; now left].
  rewrite IH; [reflexivity|]. intros e He. apply Hnd. now right.
Qed.

Lemma changes_not_after_end start end_ frames exclude c :
  In c (calculateChanges start end_ frames exclude) -> time c <= end_.
Proof.
  intros Hin. rewrite calculateChanges_flat_map in Hin.
  apply in_flat_map in Hin as (entry & _ & Hin).
  rewrite changesOfEntry_expected in Hin.
  destruct (isExcluded (fst entry) exclude); [destruct Hin|].
  destruct (expectedChanges_shape _ _ _ _ Hin) as [_ [H|H]]; lia.
Qed.

(** In exact arithmetic the sweep returns the least total power over the
    instants of the window. *)
Lemma exact_minimum :
  forall (start end_ : simtime_t) (airFrames : AirFrameVector) (freqIndex : nat)
         (exclude : option AirFramePtr),
    start < end_ ->
    (forall entry, In entry airFrames ->
       getReceptionStart (getSignal (snd entry)) < getReceptionEnd (getSignal (snd entry))) ->
    isMinOver start end_
      (fun t => activePowerStartedBefore end_ t airFrames exclude freqIndex)
      (getMinAtFreqIndex start end_ airFrames freqIndex exclude).
Proof.
  intros start end_ frames b exclude Hwin Hnd.
  rewrite getMinAtFreqIndex_sweep.
  set (l := sortByTime (calculateChanges start end_ frames exclude)).
  assert (Hperm : Permutation l (calculateChanges start end_ frames exclude))
    by apply sortByTime_perm.
  assert (Hpower : forall t, start <= t <= end_ ->
                             powerUpTo b t l = activePowerStartedBefore end_ t frames exclude b).
  { intros t Ht. rewrite (powerUpTo_perm b t _ _ Hperm). now apply powerUpTo_changes. }
  assert (Hbound : forall c, In c l -> time c <= end_).
  { intros c Hc. apply (Permutation_in _ Hperm) in Hc.
    now apply (changes_not_after_end start end_ frames exclude). }
  rewrite sweepMinAt_plateaus.
  2: apply sortByTime_sorted.
  2: { intros c Hc. apply (ending_is_later start end_ frames exclude).
       eapply Permutation_in; eassumption. }
  set (V := fun c => powerUpTo b (time c) l).
  split.
  - destruct (fold_min_attained V (List.filter (isLater start) l) (powerUpTo b start l))
      as [Heq|(c & Hc & Heq)].
    + exists start. split; [lia|]. rewrite <- Hpower by lia. symmetry. exact Heq.
    + apply List.filter_In in Hc as [Hc Hl]. unfold isLater in Hl. apply Z.gtb_gt in Hl.
      exists (time c). specialize (Hbound c Hc). split; [lia|].
      rewrite <- Hpower by lia. symmetry. exact Heq.
  - intros t Ht. rewrite <- Hpower by exact Ht.
    destruct (last_change start t l) as (t0 & Hr & Hor & Hiff); [lia|].
    rewrite (powerUpTo_same b t t0 l Hiff).
    destruct Hor as [->|(c & Hc & Hl & ->)].
    + apply fold_min_le_init.
    + apply (fold_min_le V). apply List.filter_In. auto.
Qed.

Lemma magnitude_app b l l' : magnitude b (l ++ l') = magnitude b l + magnitude b l'.
Proof.
  induction l as [|c l IH]; [reflexivity|].
  cbn [app]. rewrite !magnitude_cons, IH. lia.
Qed.

Lemma magnitude_changesOfEntry b start end_ exclude entry :
  magnitude b (changesOfEntry start end_ exclude entry)
  <= 2 * Z.abs (at_ (getSignal (snd entry)) b).
Proof.
  rewrite changesOfEntry_expected.
  destruct (isExcluded (fst entry) exclude); [cbn; lia|].
  unfold expectedChanges.
  repeat match goal with
         | |- context [if ?c then _ else _] => destruct c
         end;
    unfold magnitude, sumZ; cbn [map fold_right signal]; lia.
Qed.

Lemma magnitude_calculateChanges b start end_ frames exclude :
  magnitude b (calculateChanges start end_ frames exclude) <= 2 * totalMagnitude b frames.
Proof.
  rewrite calculateChanges_flat_map.
  induction frames as [|entry rest IH]; [cbn; lia|].
  cbn [flat_map]. rewrite magnitude_app.
  pose proof (magnitude_changesOfEntry b start end_ exclude entry).
  unfold totalMagnitude, sumZ in *. cbn [map fold_right]. lia.
Qed.

(** With small integer samples [getMinAtFreqIndex] computes in binary64 what
    it computes in exact arithmetic. *)
Lemma getMinAtFreqIndex_binary64 start end_ frames b exclude :
  2 * totalMagnitude b frames < 2 ^ 53 ->
  getMinAtFreqIndex (arith := binary64) start end_ frames b exclude
  = binary64_of (getMinAtFreqIndex start end_ frames b exclude)
  /\ Z.abs (getMinAtFreqIndex start end_ frames b exclude) < 2 ^ 53.
Proof.
  intros Hsmall.
  pose proof (magnitude_calculateChanges b start end_ frames exclude) as Hle.
  rewrite <- (magnitude_perm b _ _ (sortByTime_perm _)) in Hle.
  unfold getMinAtFreqIndex.
  destruct frames as [|e l]; [split; [reflexivity|cbn; lia]|].
  destruct (sortByTime _) as [|c0 l0]; [split; [reflexivity|cbn; lia]|].
  apply sweepMinAt_binary64. lia.
Qed.

(** X4.  For a window of positive length and signals received over intervals
    of positive length, whose samples at the queried bin are integers with
    magnitudes that add up to less than [2^52] (so that no sum of
    the sweep rounds), [getMinAtFreqIndex], computing in binary64, returns the
    [double] that holds the minimum, over the instants [t] of [[start, end]], of
    the total power at the bin of the signals, the excluded frame left out,
    whose reception starts before [end] and whose reception interval contains
    [t].  The powers may have any sign; a signal that starts exactly at [end]
    is not counted. *)
Theorem getMinAtFreqIndex_minimum :
  forall (start end_ : simtime_t) (airFrames : AirFrameVector) (freqIndex : nat)
         (exclude : option AirFramePtr),
    start < end_ ->
    (forall entry, In entry airFrames ->
       getReceptionStart (getSignal (snd entry)) < getReceptionEnd (getSignal (snd entry))) ->
    2 * totalMagnitude freqIndex airFrames < 2 ^ 53 ->
    exists minimum,
      getMinAtFreqIndex (arith := binary64) start end_ airFrames freqIndex exclude
      = binary64_of minimum
      /\ Z.abs minimum < 2 ^ 53
      /\ isMinOver start end_
           (fun t => activePowerStartedBefore end_ t airFrames exclude freqIndex)
           minimum.
Proof.
  intros start end_ frames b exclude Hwin Hnd Hsmall.
  destruct (getMinAtFreqIndex_binary64 start end_ frames b exclude Hsmall) as [Heq Hlt].
  exists (getMinAtFreqIndex start end_ frames b exclude).
  split; [exact Heq|]. split; [exact Hlt|]. now apply exact_minimum.
Qed.

Lemma getMinAtFreqIndex_minimum_witness :
  let a := mkAirFrame 1 (mkSignal [100] [1] 0 1 0 10 [] 0) in
  let b := mkAirFrame 2 (mkSignal [100] [2] 0 1 5 15 [] 0) in
  let airFrames := [(1%positive, a); (2%positive, b)] in
  exists minimum,
    getMinAtFreqIndex (arith := binary64) 0 14 airFrames 0 None = binary64_of minimum
    /\ Z.abs minimum < 2 ^ 53
    /\ isMinOver 0 14 (fun t => activePowerStartedBefore 14 t airFrames None 0) minimum.
Proof.
  intros a b airFrames.
  apply (getMinAtFreqIndex_minimum 0 14 airFrames 0%nat None).
  - lia.
  - intros entry [<-|[<-|[]]]; simpl; lia.
  - vm_compute. reflexivity.
Defined.




(** ** The maximum interference: what the loop does with each frame *)

(** An iteration either goes on to the next frame, in a state that does not
    depend on the frames to come, or ends the call with a result that does not
    depend on them. *)
Lemma loop_step start end_ ref sp e st :
  (exists st', forall rest,
      getMaxInterference_loop start end_ ref sp (e :: rest) st
      = getMaxInterference_loop start end_ ref sp rest st')
  \/ (exists r, forall rest, getMaxInterference_loop start end_ ref sp (e :: rest) st = r).
Proof.
  destruct e as [p f]. cbn [getMaxInterference_loop].
  destruct (getTreeId f =? getTreeId ref); [left; eauto|].
  destruct (_ || _); [left; eauto|].
  repeat (destruct (negb _); [right; eauto|]).
  destruct (_ >=? end_); [right; eauto|].
  destruct (removeEnded _ _ _) as [[q c]|]; [|right; eauto].
  destruct (plusAssign c _); [left; eauto|right; eauto].
Qed.

Lemma loop_skip start end_ ref sp e rest st :
  isCandidate start end_ ref e = false ->
  getMaxInterference_loop start end_ ref sp (e :: rest) st
  = getMaxInterference_loop start end_ ref sp rest st.
Proof.
  destruct e as [p f]. unfold isCandidate, isOtherTransmission.
  cbn [getMaxInterference_loop snd].
  destruct (getTreeId f =? getTreeId ref); [reflexivity|]. cbn [negb andb].
  destruct (_ || _); [reflexivity|discriminate].
Qed.

Lemma loop_candidates start end_ ref sp frames st :
  getMaxInterference_loop start end_ ref sp
    (List.filter (isCandidate start end_ ref) frames) st
  = getMaxInterference_loop start end_ ref sp frames st.
Proof.
  revert st. induction frames as [|e rest IH]; intros st; [reflexivity|].
  cbn [List.filter]. destruct (isCandidate start end_ ref e) eqn:Hc.
  - destruct (loop_step start end_ ref sp e st) as [[st' H]|[r H]].
    + now rewrite !H.
    + now rewrite !H.
  - now rewrite loop_skip.
Qed.

Lemma updateMaximum_keeps sp cur n idx m :
  fits sp m ->
  fits sp (updateMaximum cur idx n m)
  /\ forall b, at_ m b <= at_ (updateMaximum cur idx n m) b.
Proof.
  revert idx m. induction n as [|n IH]; intros idx m Hfit; cbn [updateMaximum].
  - split; [exact Hfit|]. intros; lia.
  - destruct (IH (S idx) (setAt m idx (Z.max (at_ cur idx) (at_ m idx)))) as [Hf Hle].
    + now apply fits_setAt.
    + split; [exact Hf|]. intros b. specialize (Hle b). rewrite at_setAt in Hle.
      destruct (Nat.eqb_spec idx b) as [->|_]; cbn [andb] in Hle; [|exact Hle].
      destruct (b <? length (values m))%nat; lia.
Qed.

Lemma loop_result_shape start end_ ref sp frames :
  forall st result,
    fits sp (maxInterference st) ->
    (forall b, 0 <= at_ (maxInterference st) b) ->
    getMaxInterference_loop start end_ ref sp frames st = Some result ->
    fits sp result /\ forall b, 0 <= at_ result b.
Proof.
  induction frames as [|[p f] rest IH]; intros st result Hfit Hpos; cbn [getMaxInterference_loop].
  - intros [= <-]. auto.
  - destruct (getTreeId f =? getTreeId ref); [now apply IH|].
    destruct (_ || _); [now apply IH|].
    repeat (destruct (negb _); [discriminate|]).
    destruct (_ >=? end_); [intros [= <-]; auto|].
    destruct (removeEnded _ _ _) as [[q c]|]; [|discriminate].
    destruct (plusAssign c _) as [c'|]; [|discriminate].
    apply IH; cbn [maxInterference].
    + now apply updateMaximum_keeps.
    + intros b.
      destruct (updateMaximum_keeps sp c' (getDataEnd (getSignal f) - getDataStart (getSignal f))
                  (getDataStart (getSignal f)) (maxInterference st) Hfit) as [_ Hle].
      specialize (Hle b). specialize (Hpos b). lia.
Qed.

(** X6.  Whatever the interferers, a signal that [getMaxInterference] returns
    is over the spectrum of the reference frame, has one sample per bin of it,
    and is negative at no bin: the maximum starts from zero and only grows. *)
Theorem getMaxInterference_result_shape :
  forall (start end_ : simtime_t) (referenceFrame : AirFrame)
         (interfererFrames : AirFrameVector) (result : Signal),
    getMaxInterference start end_ referenceFrame interfererFrames = Some result ->
    getSpectrum result = getSpectrum (getSignal referenceFrame)
    /\ length (values result) = getNumFreqs (getSpectrum (getSignal referenceFrame))
    /\ forall b, 0 <= at_ result b.
Proof.
  intros start end_ ref frames result Hres. unfold getMaxInterference in Hres.
  apply loop_result_shape in Hres; cbn [maxInterference].
  - destruct Hres as [[Hsp Hlen] Hpos]. auto.
  - apply newSignal_fits.
  - intros b. rewrite at_newSignal. lia.
Qed.

Lemma getMaxInterference_result_shape_witness :
  let ref := mkAirFrame 9 (mkSignal [100] [7] 0 1 0 20 [] 0) in
  let a := mkAirFrame 1 (mkSignal [100] [-4] 0 1 0 10 [] 0) in
  let result := mkSignal [100] [0] 0 0 0 0 [] 0 in
  getSpectrum result = [100]
  /\ length (values result) = 1%nat
  /\ forall b, 0 <= at_ result b.
Proof.
  intros ref a result.
  apply (getMaxInterference_result_shape 0 15 ref [(1%positive, a)] result).
  reflexivity.
Defined.

(** X7.  [getMaxInterference] skips the duplicates of the reference frame and
    the frames whose reception is over by [start] or starts after [end]: without
    them it returns the same; and when the collection holds no other frame, it
    returns the zero signal over the spectrum of the reference frame, whatever
    the order, the spectra and the reception intervals of the frames. *)
Theorem getMaxInterference_skips :
  forall (start end_ : simtime_t) (referenceFrame : AirFrame)
         (interfererFrames : AirFrameVector),
    getMaxInterference start end_ referenceFrame
      (List.filter (isCandidate start end_ referenceFrame) interfererFrames)
    = getMaxInterference start end_ referenceFrame interfererFrames
    /\ ((forall entry, In entry interfererFrames ->
           isCandidate start end_ referenceFrame entry = false) ->
        getMaxInterference start end_ referenceFrame interfererFrames
        = Some (newSignal (getSpectrum (getSignal referenceFrame)))).
Proof.
  intros start end_ ref frames. split.
  - apply loop_candidates.
  - intros Hnone. unfold getMaxInterference.
    rewrite <- loop_candidates, filter_none by exact Hnone. reflexivity.
Qed.

Lemma getMaxInterference_skips_witness :
  let ref := mkAirFrame 9 (mkSignal [100] [7] 0 1 0 20 [] 0) in
  let a := mkAirFrame 9 (mkSignal [100] [7] 0 1 0 20 [] 0) in
  let b := mkAirFrame 2 (mkSignal [300; 400] [2; 2] 0 2 40 30 [] 0) in
  getMaxInterference 5 15 ref [(1%positive, b); (2%positive, a)]
  = Some (newSignal [100]).
Proof.
  intros ref a b.
  apply (proj2 (getMaxInterference_skips 5 15 ref [(1%positive, b); (2%positive, a)])).
  intros entry [<-|[<-|[]]]; reflexivity.
Defined.

(** ** The maximum interference: the assertions and the early exit *)

Lemma isCandidate_spec start end_ ref p f :
  isCandidate start end_ ref (p, f) = true ->
  (getTreeId f =? getTreeId ref) = false
  /\ start < getReceptionEnd (getSignal f)
  /\ getReceptionStart (getSignal f) <= end_.
Proof.
  unfold isCandidate, isOtherTransmission. cbn [snd].
  destruct (getTreeId f =? getTreeId ref); [discriminate|]. cbn [negb andb].
  destruct (Z.leb_spec (getReceptionEnd (getSignal f)) start); [discriminate|].
  destruct (Z.gtb_spec (getReceptionStart (getSignal f)) end_); [discriminate|].
  intros _. repeat split; lia.
Qed.

Lemma loop_rejects start end_ ref sp p f rest st :
  isCandidate start end_ ref (p, f) = true ->
  getReceptionStart (getSignal f) < currentTime st
  \/ getSpectrum (getSignal f) <> sp ->
  getMaxInterference_loop start end_ ref sp ((p, f) :: rest) st = None.
Proof.
  intros Hc Hbad. destruct (isCandidate_spec _ _ _ _ _ Hc) as (Hid & H1 & H2).
  cbn [getMaxInterference_loop]. rewrite Hid.
  destruct (Z.leb_spec (getReceptionEnd (getSignal f)) start); [lia|].
  destruct (Z.gtb_spec (getReceptionStart (getSignal f)) end_); [lia|]. cbn [orb].
  destruct (Z.gtb_spec (getReceptionEnd (getSignal f)) start); [|lia].
  destruct (Z.leb_spec (getReceptionStart (getSignal f)) end_); [|lia]. cbn [negb].
  destruct (Z.geb_spec (getReceptionStart (getSignal f)) (currentTime st)) as [Hge|Hlt];
    cbn [negb]; [|reflexivity].
  destruct Hbad as [Hbad|Hbad]; [lia|].
  destruct (Spectrum_eqb (getSpectrum (getSignal f)) sp) eqn:Heq; [|reflexivity].
  apply Spectrum_eqb_eq in Heq. contradiction.
Qed.

(** X8.  The first frame that [getMaxInterference] does not skip must start at
    or after time 0, where the cursor of the loop starts, and be over the
    spectrum of the reference frame: otherwise the call fails on an
    assertion. *)
Theorem getMaxInterference_first_candidate :
  forall (start end_ : simtime_t) (referenceFrame : AirFrame)
         (interfererFrames others : AirFrameVector) (p : AirFramePtr) (f : AirFrame),
    List.filter (isCandidate start end_ referenceFrame) interfererFrames = (p, f) :: others ->
    getReceptionStart (getSignal f) < 0
    \/ getSpectrum (getSignal f) <> getSpectrum (getSignal referenceFrame) ->
    getMaxInterference start end_ referenceFrame interfererFrames = None.
Proof.
  intros start end_ ref frames others p f Hfilter Hbad.
  unfold getMaxInterference. rewrite <- loop_candidates, Hfilter.
  apply loop_rejects; [|exact Hbad].
  assert (Hin : In (p, f) (List.filter (isCandidate start end_ ref) frames))
    by (rewrite Hfilter; now left).
  now apply List.filter_In in Hin.
Qed.

Lemma getMaxInterference_first_candidate_witness :
  let ref := mkAirFrame 9 (mkSignal [100] [7] 0 1 0 20 [] 0) in
  let a := mkAirFrame 9 (mkSignal [100] [7] 0 1 0 20 [] 0) in
  let b := mkAirFrame 2 (mkSignal [300; 400] [2; 2] 0 2 3 30 [] 0) in
  getMaxInterference 5 15 ref [(1%positive, a); (2%positive, b)] = None.
Proof.
  intros ref a b.
  apply (getMaxInterference_first_candidate 5 15 ref
           [(1%positive, a); (2%positive, b)] [] 2%positive b).
  - reflexivity.
  - right. discriminate.
Defined.

Lemma loop_progress start end_ ref sp p f rest st :
  isCandidate start end_ ref (p, f) = true ->
  getReceptionStart (getSignal f) < end_ ->
  getMaxInterference_loop start end_ ref sp ((p, f) :: rest) st = None
  \/ exists st',
       getMaxInterference_loop start end_ ref sp ((p, f) :: rest) st
       = getMaxInterference_loop start end_ ref sp rest st'
       /\ currentTime st' = getReceptionStart (getSignal f).
Proof.
  intros Hc Hlt. destruct (isCandidate_spec _ _ _ _ _ Hc) as (Hid & H1 & H2).
  cbn [getMaxInterference_loop]. rewrite Hid.
  destruct (Z.leb_spec (getReceptionEnd (getSignal f)) start); [lia|].
  destruct (Z.gtb_spec (getReceptionStart (getSignal f)) end_); [lia|]. cbn [orb].
  repeat (destruct (negb _); [now left|]).
  destruct (Z.geb_spec (getReceptionStart (getSignal f)) end_); [lia|].
  destruct (removeEnded _ _ _) as [[q c]|]; [|now left].
  destruct (plusAssign c _); [|now left].
  right. eexists. split; reflexivity.
Qed.

Lemma loop_out_of_order start end_ ref sp l1 :
  forall st p1 f1 p2 f2 l2,
    Forall (fun e => isCandidate start end_ ref e = true
                     /\ getReceptionStart (getSignal (snd e)) < end_)
           (l1 ++ [(p1, f1)]) ->
    isCandidate start end_ ref (p2, f2) = true ->
    getReceptionStart (getSignal f2) < getReceptionStart (getSignal f1) ->
    getMaxInterference_loop start end_ ref sp (l1 ++ (p1, f1) :: (p2, f2) :: l2) st = None.
Proof.
  induction l1 as [|[p f] l1 IH]; intros st p1 f1 p2 f2 l2 Hall Hc2 Hlt.
  - cbn [app] in *. apply List.Forall_cons_iff in Hall as [[Hc1 He1] _]. cbn [snd] in He1.
    destruct (loop_progress start end_ ref sp p1 f1 ((p2, f2) :: l2) st Hc1 He1)
      as [Hnone|(st' & Heq & Hct)]; [exact Hnone|].
    rewrite Heq. apply loop_rejects; [exact Hc2|]. left. lia.
  - cbn [app] in *. apply List.Forall_cons_iff in Hall as [[Hc He] Hall]. cbn [snd] in He.
    destruct (loop_progress start end_ ref sp p f (l1 ++ (p1, f1) :: (p2, f2) :: l2) st Hc He)
      as [Hnone|(st' & Heq & _)]; [exact Hnone|].
    rewrite Heq. now apply IH.
Qed.

(** X9.  Interferers out of order are fatal: when, among the frames that
    [getMaxInterference] does not skip, one starts earlier than the frame
    before it, and that frame and all before it start before [end] (so that the
    loop gets there), the call fails on an assertion, whatever else the
    collection holds. *)
Theorem getMaxInterference_out_of_order :
  forall (start end_ : simtime_t) (referenceFrame : AirFrame)
         (interfererFrames before after : AirFrameVector)
         (p1 p2 : AirFramePtr) (f1 f2 : AirFrame),
    List.filter (isCandidate start end_ referenceFrame) interfererFrames
    = before ++ (p1, f1) :: (p2, f2) :: after ->
    Forall (fun e => getReceptionStart (getSignal (snd e)) < end_) (before ++ [(p1, f1)]) ->
    getReceptionStart (getSignal f2) < getReceptionStart (getSignal f1) ->
    getMaxInterference start end_ referenceFrame interfererFrames = None.
Proof.
  intros start end_ ref frames before after p1 p2 f1 f2 Hfilter Hall Hlt.
  unfold getMaxInterference. rewrite <- loop_candidates, Hfilter.
  assert (Hcand : forall e, In e (before ++ (p1, f1) :: (p2, f2) :: after) ->
                            isCandidate start end_ ref e = true).
  { intros e He. rewrite <- Hfilter in He. now apply List.filter_In in He. }
  apply loop_out_of_order; [|apply Hcand; apply in_or_app; right; right; now left|exact Hlt].
  rewrite List.Forall_forall in Hall. apply List.Forall_forall. intros e He.
  split; [|now apply Hall].
  apply Hcand. apply in_app_or in He as [He|[<-|[]]]; apply in_or_app; [now left|right; now left].
Qed.

Lemma getMaxInterference_out_of_order_witness :
  let ref := mkAirFrame 9 (mkSignal [100] [7] 0 1 0 20 [] 0) in
  let a := mkAirFrame 1 (mkSignal [100] [1] 0 1 5 10 [] 0) in
  let b := mkAirFrame 2 (mkSignal [100] [2] 0 1 2 15 [] 0) in
  getMaxInterference 0 15 ref [(1%positive, a); (2%positive, b)] = None.
Proof.
  intros ref a b.
  apply (getMaxInterference_out_of_order 0 15 ref [(1%positive, a); (2%positive, b)]
           [] [] 1%positive 2%positive a b).
  - reflexivity.
  - constructor; [simpl; lia|constructor].
  - simpl. lia.
Defined.

Lemma loop_stops start end_ ref sp pre :
  forall st p f rest rest',
    isCandidate start end_ ref (p, f) = true ->
    end_ <= getReceptionStart (getSignal f) ->
    getMaxInterference_loop start end_ ref sp (pre ++ (p, f) :: rest) st
    = getMaxInterference_loop start end_ ref sp (pre ++ (p, f) :: rest') st.
Proof.
  induction pre as [|e pre IH]; intros st p f rest rest' Hc Hend; cbn [app].
  - destruct (isCandidate_spec _ _ _ _ _ Hc) as (Hid & H1 & H2).
    cbn [getMaxInterference_loop]. rewrite Hid.
    destruct (Z.leb_spec (getReceptionEnd (getSignal f)) start); [lia|].
    destruct (Z.gtb_spec (getReceptionStart (getSignal f)) end_); [lia|]. cbn [orb].
    repeat (destruct (negb _); [reflexivity|]).
    destruct (Z.geb_spec (getReceptionStart (getSignal f)) end_); [reflexivity|lia].
  - destruct (loop_step start end_ ref sp e st) as [[st' H]|[r H]].
    + rewrite !H. now apply IH.
    + now rewrite !H.
Qed.

(** X10.  [getMaxInterference] leaves its loop at the first frame it does not
    skip whose reception starts at [end] or later: the frames after it are not
    read, so that the result (a signal or a failed assertion) is the same
    whatever follows that frame. *)
Theorem getMaxInterference_stops_at_end :
  forall (start end_ : simtime_t) (referenceFrame : AirFrame)
         (before after after' : AirFrameVector) (p : AirFramePtr) (f : AirFrame),
    isCandidate start end_ referenceFrame (p, f) = true ->
    end_ <= getReceptionStart (getSignal f) ->
    getMaxInterference start end_ referenceFrame (before ++ (p, f) :: after)
    = getMaxInterference start end_ referenceFrame (before ++ (p, f) :: after').
Proof. intros. unfold getMaxInterference. now apply loop_stops. Qed.

Lemma getMaxInterference_stops_at_end_witness :
  let ref := mkAirFrame 9 (mkSignal [100] [7] 0 1 0 20 [] 0) in
  let a := mkAirFrame 1 (mkSignal [100] [1] 0 1 0 10 [] 0) in
  let b := mkAirFrame 2 (mkSignal [100] [2] 0 1 10 15 [] 0) in
  let c := mkAirFrame 3 (mkSignal [100] [4] 0 1 5 15 [] 0) in
  getMaxInterference 0 10 ref [(1%positive, a); (2%positive, b); (3%positive, c)]
  = getMaxInterference 0 10 ref [(1%positive, a); (2%positive, b)].
Proof.
  intros ref a b c.
  apply (getMaxInterference_stops_at_end 0 10 ref [(1%positive, a)]
           [(3%positive, c)] [] 2%positive b); [reflexivity|simpl; lia].
Defined.

(** ** The channel threshold test: its answer and its effect *)




Lemma onSignals_lookup_other (g : Signal -> Signal) ptrs (h : Heap) (q : AirFramePtr) :
  ~ In q ptrs -> onSignals g ptrs h !! q = h !! q.
Proof.
  revert h. induction ptrs as [|p rest IH]; intros h Hq; cbn [onSignals]; [reflexivity|].
  rewrite IH by (intros H; apply Hq; now right).
  unfold onSignal. apply lookup_alter_ne. intros ->. apply Hq. now left.
Qed.

Lemma applyAnalogueModels_stages n :
  forall index interferers b threshold (h h' : Heap) answer,
    applyAnalogueModels n index interferers b threshold h = Some (answer, h') ->
    exists k, (k <= n)%nat
              /\ h' = attenuated k index interferers h
              /\ (answer = false -> k = n)
              /\ forall j, (0 < j < k)%nat ->
                    exists signals,
                      signalsOf (attenuated j index interferers h) interferers = Some signals
                      /\ threshold <= powerLevelSumAtFrequencyIndex signals b.
Proof.
  induction n as [|n IH]; intros index interferers b threshold h h' answer;
    cbn [applyAnalogueModels].
  - destruct (signalsOf h interferers); [|discriminate].
    destruct (_ >=? threshold); [|discriminate].
    intros [= <- <-]. exists 0%nat. repeat split; auto. intros j Hj. lia.
  - destruct (signalsOf _ interferers) as [signals|] eqn:Hs; [|discriminate].
    destruct (Z.ltb_spec (powerLevelSumAtFrequencyIndex signals b) threshold).
    + intros [= <- <-]. exists 1%nat. split; [lia|]. split; [reflexivity|].
      split; [discriminate|]. intros j Hj. lia.
    + intros Hrun. apply IH in Hrun as (k & Hk & Hh & Hfalse & Hbefore).
      exists (S k). split; [lia|]. split; [exact Hh|]. split.
      * intros Ha. now rewrite Hfalse.
      * intros [|[|j]] Hj; [lia| |].
        -- exists signals. split; [exact Hs|exact H].
        -- apply (Hbefore (S j)). lia.
Qed.

Lemma attenuated_lookup_other n :
  forall index interferers (h : Heap) (q : AirFramePtr),
    ~ In q interferers -> attenuated n index interferers h !! q = h !! q.
Proof.
  induction n as [|n IH]; intros index interferers h q Hq; cbn [attenuated]; [reflexivity|].
  rewrite IH by exact Hq. now apply onSignals_lookup_other.
Qed.

(** The heap that the test returns: a number of stages, from the first on, have
    run on the interferers, and before the last of them the sum was not below
    the threshold. *)
Lemma isChannelPowerBelowThreshold_heap (h h' : Heap) now ptrs b threshold exclude
    answer frames :
  view h ptrs = Some frames ->
  isChannelPowerBelowThreshold h now ptrs b threshold exclude = Some (answer, h') ->
  exists k,
    h' = attenuated k 0 (interferersAt now exclude frames) h
    /\ (forall j, (j < k)%nat ->
           exists signals,
             signalsOf (attenuated j 0 (interferersAt now exclude frames) h)
               (interferersAt now exclude frames) = Some signals
             /\ threshold <= powerLevelSumAtFrequencyIndex signals b)
    /\ forall front frontFrame others,
         frames = (front, frontFrame) :: others ->
         (k <= length (getAnalogueModelList (getSignal frontFrame)))%nat
         /\ (answer = false -> k = length (getAnalogueModelList (getSignal frontFrame))).
Proof.
  intros Hview. unfold isChannelPowerBelowThreshold.
  destruct ptrs as [|front rest].
  - intros [= <- <-]. exists 0%nat. split; [reflexivity|]. split; [intros j Hj; lia|].
    cbn [view] in Hview. injection Hview as <-. discriminate.
  - rewrite Hview. fold (interferersAt now exclude frames).
    destruct (signalsOf h (interferersAt now exclude frames)) as [signals|] eqn:Hs;
      [|discriminate].
    destruct (Z.ltb_spec (powerLevelSumAtFrequencyIndex signals b) threshold).
    + intros [= <- <-]. exists 0%nat. split; [reflexivity|]. split; [intros j Hj; lia|].
      intros ? ? ? _. split; [lia|discriminate].
    + destruct (view_head h front rest frames Hview) as (f & tail & Hframes & Hfront).
      rewrite Hfront. destruct (forallb _ signals); [|discriminate].
      intros Hrun.
      apply applyAnalogueModels_stages in Hrun as (k & Hk & Hh & Hfalse & Hbefore).
      exists k. split; [exact Hh|]. split.
      * intros [|j] Hj; [exists signals; split; [exact Hs|exact H]|].
        apply Hbefore. lia.
      * intros front' frontFrame others Heq. rewrite Hframes in Heq.
        injection Heq as _ <- _. auto.
Qed.

Lemma interferer_not_excluded now exclude frames q :
  In q (interferersAt now exclude frames) -> exclude <> Some q.
Proof.
  unfold interferersAt. intros Hin Hex.
  apply in_map_iff in Hin as ([p f] & Hp & Hin). cbn [fst] in Hp. subst p.
  apply List.filter_In in Hin as [_ Hint].
  unfold isInterfererAt in Hint. cbn [fst] in Hint. rewrite Hex in Hint.
  cbn [isExcluded] in Hint. rewrite Pos.eqb_refl, andb_false_r in Hint. discriminate.
Qed.

(** X12.  [isChannelPowerBelowThreshold] changes no frame but the interferers:
    whatever it answers, the excluded frame, the frames of the collection that
    are not active at [now] and the frames outside the collection are in the
    heap it returns as they were. *)
Theorem isChannelPowerBelowThreshold_frame :
  forall (h h' : Heap) (now : simtime_t) (interfererFrames : list AirFramePtr)
         (freqIndex : nat) (threshold : Z) (exclude : option AirFramePtr)
         (answer : bool) (frames : AirFrameVector),
    view h interfererFrames = Some frames ->
    isChannelPowerBelowThreshold h now interfererFrames freqIndex threshold exclude
    = Some (answer, h') ->
    (forall q, ~ In q (interferersAt now exclude frames) -> h' !! q = h !! q)
    /\ (forall q, exclude = Some q -> h' !! q = h !! q).
Proof.
  intros h h' now ptrs b threshold exclude answer frames Hview Hrun.
  destruct (isChannelPowerBelowThreshold_heap _ _ _ _ _ _ _ _ _ Hview Hrun) as (k & -> & _ & _).
  split.
  - intros q Hq. now apply attenuated_lookup_other.
  - intros q Hex. apply attenuated_lookup_other.
    intros Hin. now apply (interferer_not_excluded now exclude frames q).
Qed.

Lemma isChannelPowerBelowThreshold_frame_witness :
  let stage := mkAnalogueModel (map (fun v => v / 2)) in
  let f := mkAirFrame 1 (mkSignal [100] [8] 0 1 0 10 [stage] 0) in
  let g := mkAirFrame 2 (mkSignal [100] [6] 0 1 0 10 [stage] 0) in
  let f' := mkAirFrame 1 (mkSignal [100] [4] 0 1 0 10 [stage] 1) in
  let h : Heap := <[1%positive := f]> (<[2%positive := g]> ∅) in
  let h' : Heap := <[1%positive := f']> (<[2%positive := g]> ∅) in
  (forall q, ~ In q (interferersAt 5 (Some 2%positive) [(1%positive, f); (2%positive, g)]) ->
             h' !! q = h !! q)
  /\ (forall q, Some 2%positive = Some q -> h' !! q = h !! q).
Proof.
  intros stage f g f' h h'.
  apply (isChannelPowerBelowThreshold_frame h h' 5 [1%positive; 2%positive] 0%nat 5
           (Some 2%positive) true [(1%positive, f); (2%positive, g)]).
  - reflexivity.
  - vm_compute. reflexivity.
Defined.





(** ** The minimum SINR: its assertions, its effect, its value *)

(** X15.  The window of [getMinSINR] must lie in the reception interval of the
    reference signal: a window that starts before the reception starts, or
    ends after it ends, fails on an assertion, before any signal is
    attenuated. *)
Theorem getMinSINR_window :
  forall (h : Heap) (start end_ : simtime_t) (signalFrame : AirFramePtr)
         (interfererFrames : list AirFramePtr) (noise : Z) (frame : AirFrame),
    h !! signalFrame = Some frame ->
    start < getReceptionStart (getSignal frame)
    \/ getReceptionEnd (getSignal frame) < end_ ->
    getMinSINR h start end_ signalFrame interfererFrames noise = None.
Proof.
  intros h start end_ sf ptrs noise frame Hsf Hout.
  unfold getMinSINR. rewrite Hsf.
  destruct (Z.geb_spec start (getReceptionStart (getSignal frame))); cbn [negb];
    [|reflexivity].
  destruct (Z.leb_spec end_ (getReceptionEnd (getSignal frame))); cbn [negb];
    [lia|reflexivity].
Qed.

Lemma getMinSINR_window_witness :
  let frame := mkAirFrame 9 (mkSignal [100] [7] 0 1 5 20 [] 0) in
  let h : Heap := <[9%positive := frame]> ∅ in
  getMinSINR h 2 8 9%positive [] 1 = None.
Proof.
  intros frame h.
  apply (getMinSINR_window h 2 8 9%positive [] 1 frame); [reflexivity|].
  left. simpl. lia.
Defined.

Lemma existsb_In (q : AirFramePtr) ptrs : existsb (Pos.eqb q) ptrs = true <-> In q ptrs.
Proof.
  rewrite existsb_exists. split.
  - intros (p & Hp & Heq). apply Pos.eqb_eq in Heq. now subst.
  - intros Hq. exists q. split; [exact Hq|apply Pos.eqb_refl].
Qed.

(** X16.  What [getMinSINR] changes when it returns: every frame of the heap is
    still there with its tree id, its spectrum, its populated range and its
    reception interval (attenuation rewrites power samples only), and a frame
    that is neither the reference frame nor in the collection is exactly as it
    was. *)
Theorem getMinSINR_effect :
  forall (h h' : Heap) (start end_ : simtime_t) (signalFrame : AirFramePtr)
         (interfererFrames : list AirFramePtr) (noise : Z) (r : ratio),
    getMinSINR h start end_ signalFrame interfererFrames noise = Some (r, h') ->
    (forall (q : AirFramePtr) f, h !! q = Some f ->
       exists f', h' !! q = Some f' /\ sameFrameShape f f')
    /\ (forall q : AirFramePtr,
          ~ In q (signalFrame :: interfererFrames) -> h' !! q = h !! q).
Proof.
  intros h h' start end_ sf ptrs noise r. unfold getMinSINR.
  destruct (h !! sf) as [frame|]; [|discriminate].
  destruct (negb _); [discriminate|]. destruct (negb _); [discriminate|].
  destruct (_ !! sf) as [frame'|]; [|discriminate].
  destruct (view _ ptrs) as [frames|]; [|discriminate].
  destruct (getMaxInterference _ _ _ _); [|discriminate].
  intros [= _ <-]. split.
  - intros q f Hq. now apply attenuated_lookup.
  - intros q Hq.
    rewrite onSignals_lookup_other by (intros Hin; apply Hq; now right).
    unfold onSignal. apply lookup_alter_ne. intros ->. apply Hq. now left.
Qed.

Lemma getMinSINR_effect_witness :
  let stage := mkAnalogueModel (map (fun v => v / 2)) in
  let frame := mkAirFrame 9 (mkSignal [100] [8] 0 1 0 20 [stage] 0) in
  let a := mkAirFrame 1 (mkSignal [100] [6] 0 1 0 10 [stage] 0) in
  let h : Heap := <[9%positive := frame]> (<[1%positive := a]> ∅) in
  let h' : Heap :=
    onSignals applyAllAnalogueModels [1%positive]
      (onSignal applyAllAnalogueModels 9%positive h) in
  (forall (q : AirFramePtr) f, h !! q = Some f ->
     exists f', h' !! q = Some f' /\ sameFrameShape f f')
  /\ (forall q : AirFramePtr, ~ In q [9%positive; 1%positive] -> h' !! q = h !! q).
Proof.
  intros stage frame a h h'.
  apply (getMinSINR_effect h h' 2 8 9%positive [1%positive] 1 (Finite (4 # 4))).
  vm_compute. reflexivity.
Defined.

Lemma divide_positive x y : 0 < y -> divide x y = Finite (inject_Z x / inject_Z y)%Q.
Proof. intros Hy. unfold divide. destruct (Z.eqb_spec y 0); [lia|reflexivity]. Qed.

Lemma std_min_finite p q :
  std_min (Finite p) (Finite q) = if Qlt_le_dec q p then Finite q else Finite p.
Proof. unfold std_min, ratio_ltb. destruct (Qlt_le_dec q p); reflexivity. Qed.

(** The loop of [getMinSINR] over divisors that are above zero, from a finite
    minimum on: it ends with the least of that minimum and of the ratios. *)
Lemma minOverData_finite signal interference noise :
  (forall i, 0 < at_ interference i + noise) ->
  forall n i q0,
    exists q,
      minOverData signal interference noise i n (Finite q0) = Finite q
      /\ (q <= q0)%Q
      /\ (forall j, (i <= j < i + n)%nat -> (q <= sinrAt signal interference noise j)%Q)
      /\ (q = q0 \/ exists j, (i <= j < i + n)%nat /\ q = sinrAt signal interference noise j).
Proof.
  intros Hpos. induction n as [|n IH]; intros i q0; cbn [minOverData].
  - exists q0. split; [reflexivity|]. split; [apply Qle_refl|].
    split; [intros j Hj; lia|now left].
  - rewrite divide_positive by apply Hpos. rewrite std_min_finite.
    fold (sinrAt signal interference noise i).
    destruct (Qlt_le_dec (sinrAt signal interference noise i) q0) as [Hlt|Hle].
    + destruct (IH (S i) (sinrAt signal interference noise i)) as (q & Hrun & Hq & Hall & Hatt).
      exists q. split; [exact Hrun|]. split; [|split].
      * eapply Qle_trans; [exact Hq|]. now apply Qlt_le_weak.
      * intros j Hj. destruct (Nat.eq_dec j i) as [->|Hne]; [exact Hq|].
        apply Hall. lia.
      * right. destruct Hatt as [->|(j & Hj & ->)].
        -- exists i. split; [lia|reflexivity].
        -- exists j. split; [lia|reflexivity].
    + destruct (IH (S i) q0) as (q & Hrun & Hq & Hall & Hatt).
      exists q. split; [exact Hrun|]. split; [exact Hq|]. split.
      * intros j Hj. destruct (Nat.eq_dec j i) as [->|Hne].
        -- eapply Qle_trans; eassumption.
        -- apply Hall. lia.
      * destruct Hatt as [->|(j & Hj & ->)]; [now left|].
        right. exists j. split; [lia|reflexivity].
Qed.

(** X17.  With a noise floor above zero [getMinSINR] never divides by zero, the
    interference being negative at no bin: when it returns for a reference
    signal with populated bins, its value is a finite ratio, the least over
    the populated bins of the power of the attenuated reference signal over
    the maximum interference plus noise, and the ratio of one of these
    bins. *)
Theorem getMinSINR_minimum :
  forall (h h' : Heap) (start end_ : simtime_t) (signalFrame : AirFramePtr)
         (interfererFrames : list AirFramePtr) (noise : Z) (r : ratio),
    getMinSINR h start end_ signalFrame interfererFrames noise = Some (r, h') ->
    0 < noise ->
    exists frame' frames' interference,
      h' !! signalFrame = Some frame'
      /\ view h' interfererFrames = Some frames'
      /\ getMaxInterference start end_ frame' frames' = Some interference
      /\ ((getDataStart (getSignal frame') < getDataEnd (getSignal frame'))%nat ->
          exists q,
            r = Finite q
            /\ (forall i, (getDataStart (getSignal frame') <= i
                           < getDataEnd (getSignal frame'))%nat ->
                          (q <= sinrAt (getSignal frame') interference noise i)%Q)
            /\ (exists i, (getDataStart (getSignal frame') <= i
                           < getDataEnd (getSignal frame'))%nat
                          /\ q = sinrAt (getSignal frame') interference noise i)).
Proof.
  intros h h' start end_ sf ptrs noise r Hrun Hnoise. unfold getMinSINR in Hrun.
  destruct (h !! sf) as [frame|]; [|discriminate].
  destruct (negb _); [discriminate|]. destruct (negb _); [discriminate|].
  destruct (_ !! sf) as [frame'|] eqn:Hsf'; [|discriminate].
  destruct (view _ ptrs) as [frames'|] eqn:Hview'; [|discriminate].
  destruct (getMaxInterference _ _ _ _) as [interference|] eqn:Hint; [|discriminate].
  injection Hrun as <- <-.
  exists frame', frames', interference.
  split; [exact Hsf'|]. split; [exact Hview'|]. split; [exact Hint|].
  intros Hrange.
  set (s := getSignal frame') in *.
  assert (Hpos : forall i, 0 < at_ interference i + noise).
  { intros i. apply loop_result_shape in Hint; cbn [maxInterference].
    - destruct Hint as [_ Hge]. specialize (Hge i). lia.
    - apply newSignal_fits.
    - intros b. rewrite at_newSignal. lia. }
  destruct (getDataEnd s - getDataStart s)%nat as [|n] eqn:Hn; [lia|].
  cbn [minOverData]. rewrite divide_positive by apply Hpos.
  assert (Hfirst : std_min INFINITY
                     (Finite (inject_Z (at_ s (getDataStart s))
                              / inject_Z (at_ interference (getDataStart s) + noise))%Q)
                   = Finite (sinrAt s interference noise (getDataStart s)))
    by reflexivity.
  rewrite Hfirst.
  destruct (minOverData_finite s interference noise Hpos n (S (getDataStart s))
              (sinrAt s interference noise (getDataStart s)))
    as (q & Hq & Hle & Hall & Hatt).
  exists q. split; [exact Hq|]. split.
  - intros i Hi. destruct (Nat.eq_dec i (getDataStart s)) as [->|Hne]; [exact Hle|].
    apply Hall. lia.
  - destruct Hatt as [->|(j & Hj & ->)].
    + exists (getDataStart s). split; [lia|reflexivity].
    + exists j. split; [lia|reflexivity].
Qed.

Lemma getMinSINR_minimum_witness :
  let stage := mkAnalogueModel (map (fun v => v / 2)) in
  let frame := mkAirFrame 9 (mkSignal [100] [8] 0 1 0 20 [stage] 0) in
  let a := mkAirFrame 1 (mkSignal [100] [6] 0 1 0 10 [stage] 0) in
  let h : Heap := <[9%positive := frame]> (<[1%positive := a]> ∅) in
  let h' : Heap :=
    onSignals applyAllAnalogueModels [1%positive]
      (onSignal applyAllAnalogueModels 9%positive h) in
  exists frame' frames' interference,
    h' !! 9%positive = Some frame'
    /\ view h' [1%positive] = Some frames'
    /\ getMaxInterference 2 8 frame' frames' = Some interference
    /\ ((getDataStart (getSignal frame') < getDataEnd (getSignal frame'))%nat ->
        exists q,
          Finite (4 # 4) = Finite q
          /\ (forall i, (getDataStart (getSignal frame') <= i
                         < getDataEnd (getSignal frame'))%nat ->
                        (q <= sinrAt (getSignal frame') interference 1 i)%Q)
          /\ (exists i, (getDataStart (getSignal frame') <= i
                         < getDataEnd (getSignal frame'))%nat
                        /\ q = sinrAt (getSignal frame') interference 1 i)).
Proof.
  intros stage frame a h h'.
  apply (getMinSINR_minimum h h' 2 8 9%positive [1%positive] 1 (Finite (4 # 4))).
  - vm_compute. reflexivity.
  - lia.
Defined.
